(** * SyncedVcfData: synchronized VCF ingest, genotype encoding and
      64-SNP bit-plane packing (Eagle, src/SyncedVcfData.cpp)

    A shallow embedding of [process_ref_genotypes],
    [process_target_genotypes], [SyncedVcfData::processVcfs],
    [SyncedVcfData::processMap], [SyncedVcfData::buildGenoBits] and the
    constructor, followed by the properties of the specification that
    they decide.

    Conventions.
    - [int], [int32_t], [uint], [uchar] and [uint64] values are [Z];
      unsigned arithmetic is reduced modulo its width where the source
      computes in that width.  The base-pair coordinate the source stores
      in a [pair <int, int>], and the difference of two such coordinates,
      are reduced to the two's complement range of [int]; a property
      that needs the exact value states as a hypothesis that it fits.
    - [double] values are binary64 primitive floats.
    - [exit(1)] is the [Exit] constructor of [result]; the diagnostic
      text is replaced by a tag.
    - Vector and loop indices inside [buildGenoBits] are [nat]: they
      index allocated vectors.
    - A read past the end of a vector or array is undefined in the
      source; the embedding reads a default there, and a property that
      depends on the value read states that value as a hypothesis.
    - The synced reader is the list of joined lines it yields; the
      files, the region restriction and the output stream are outside
      the embedding, except for the list of lines written. *)

From Stdlib Require Import ZArith List Bool Lia PrimFloat.
From Stdlib Require FloatAxioms SpecFloat FloatOps.
From stdpp Require Import base numbers list strings.

#[local] Open Scope Z_scope.

(** ** Fatal exits *)

Inductive fatal : Type :=
| RefPloidy            (* "ref ploidy != 2 (ngt != 2*nsmpl)" *)
| RefHaploid           (* "ref genotypes contain haploid sample" *)
| TargetPloidy         (* "target ploidy != 2 (ngt != 2*nsmpl)" *)
| TargetHaploid        (* "target genotypes contain haploid sample" *)
| TargetMultiAllelic   (* "multi-allelic site found in target" *)
| InvalidChromosome    (* "Invalid chromosome number" *)
| TooFewSnps           (* "Target and ref have too few matching SNPs" *)
| ZeroRange.           (* "Physical and genetic distance ranges must be positive" *)

Inductive result (A : Type) : Type :=
| Ok (a : A)
| Exit (e : fatal).
Arguments Ok {A} a.
Arguments Exit {A} e.

Definition rbind {A B} (r : result A) (k : A -> result B) : result B :=
  match r with
  | Ok a => k a
  | Exit e => Exit e
  end.

Notation "x <~ c ;; k" := (rbind c (fun x => k))
  (at level 100, c at next level, right associativity).

(** A [for] loop whose body may exit. *)
Fixpoint for_each {S X} (body : S -> X -> result S) (xs : list X) (s : S)
  : result S :=
  match xs with
  | [] => Ok s
  | x :: xs' => s' <~ body s x ;; for_each body xs' s'
  end.

(** ** Fixed-width arithmetic *)

Definition uint32 (z : Z) : Z := z mod 2 ^ 32.
Definition uint64 (z : Z) : Z := z mod 2 ^ 64.
Definition uchar (z : Z) : Z := z mod 2 ^ 8.

(** A value stored in, or computed as, an [int]. *)
Definition int32 (z : Z) : Z := (z + 2 ^ 31) mod 2 ^ 32 - 2 ^ 31.

(** ** The genotype encoding of htslib

    [process_*_genotypes] read the [int32_t] genotype array through
    four names of htslib's [vcf.h].  The functions below are
    parametric in them; [htslib_vcf] is the encoding htslib ships. *)

Class BcfGt : Type := {
  bcf_int32_vector_end : Z;
  bcf_gt_is_missing : Z -> bool;
  bcf_gt_allele : Z -> Z;
  bcf_gt_is_phased : Z -> bool
}.

(** [#define bcf_int32_vector_end (-2147483647)],
    [#define bcf_gt_is_missing(val) ((val)>>1 ? 0 : 1)],
    [#define bcf_gt_allele(val) (((val)>>1)-1)],
    [#define bcf_gt_is_phased(idx) ((idx)&1)]. *)
Definition htslib_vcf : BcfGt := {|
  bcf_int32_vector_end := -2147483647;
  bcf_gt_is_missing := fun val => Z.shiftr val 1 =? 0;
  bcf_gt_allele := fun val => Z.shiftr val 1 - 1;
  bcf_gt_is_phased := fun idx => negb (Z.land idx 1 =? 0)
|}.

(** [bcf_gt_unphased(idx)], [bcf_gt_phased(idx)] and [bcf_gt_missing]:
    how htslib writes the calls that the examples read. *)
Definition bcf_gt_unphased (idx : Z) : Z := Z.shiftl (idx + 1) 1.
Definition bcf_gt_phased (idx : Z) : Z := Z.lor (Z.shiftl (idx + 1) 1) 1.
Definition bcf_gt_missing : Z := 0.

(** [gt[k]] for an [int32_t *gt]. *)
Definition rd (gt : list Z) (k : Z) : Z := nth (Z.to_nat k) gt 0.

(** Marsaglia's multiply-with-carry step on the [uint w]:
    [w = 18000*(w&65535) + (w>>16)]. *)
Definition mwc (w : Z) : Z :=
  uint32 (18000 * Z.land w 65535 + Z.shiftr w 16).

(** [uint w = 521288629;] in [processVcfs]. *)
Definition w_init : Z := 521288629.

Section Genotypes.
Context {HTS : BcfGt}.

(** *** Reference side *)

(** The locals of one iteration of the sample loop. *)
Record ref_locals : Type := RefLocals {
  haps0 : bool;
  haps1 : bool;
  r_missing : bool;
  r_unphased : bool
}.

(** [haps[j] = b] for [j] in [0, 1]. *)
Definition set_haps (j : Z) (b : bool) (l : ref_locals) : ref_locals :=
  if j =? 0
  then RefLocals b (haps1 l) (r_missing l) (r_unphased l)
  else RefLocals (haps0 l) b (r_missing l) (r_unphased l).

(** Body of [for (int j=0; j<ploidy; j++)] in [process_ref_genotypes]. *)
Definition ref_allele (ptr : Z -> Z) (l : ref_locals) (j : Z)
  : result ref_locals :=
  if ptr j =? bcf_int32_vector_end then Exit RefHaploid
  else if bcf_gt_is_missing (ptr j)
  then Ok (RefLocals (haps0 l) (haps1 l) true (r_unphased l))
  else
    let idx := bcf_gt_allele (ptr j) in
    let l1 := set_haps j (1 <=? idx) l in
    if (j =? 1) && negb (bcf_gt_is_phased (ptr j))
    then Ok (RefLocals (haps0 l1) (haps1 l1) (r_missing l1) true)
    else Ok l1.

(** The state the sample loop of [process_ref_genotypes] updates. *)
Record ref_acc : Type := RefAcc {
  ra_hapsRef : list bool;
  ra_numMissing : Z;
  ra_numUnphased : Z;
  ra_w : Z
}.

(** What follows the allele loop: missing, unphased, swap, push. *)
Definition ref_finish (refAltSwap : bool) (a : ref_acc) (l : ref_locals)
  : ref_acc :=
  let '(h0, h1, nMiss, nUnph, w) :=
    if r_missing l then
      (false, false, ra_numMissing a + 1, ra_numUnphased a, ra_w a)
    else if r_unphased l then
      if negb (eqb (haps0 l) (haps1 l)) then
        let w' := mwc (ra_w a) in
        if negb (Z.land w' 1 =? 0)
        then (haps1 l, haps0 l, ra_numMissing a, ra_numUnphased a + 1, w')
        else (haps0 l, haps1 l, ra_numMissing a, ra_numUnphased a + 1, w')
      else
        (haps0 l, haps1 l, ra_numMissing a, ra_numUnphased a + 1, ra_w a)
    else (haps0 l, haps1 l, ra_numMissing a, ra_numUnphased a, ra_w a) in
  let '(h0, h1) := if refAltSwap then (negb h0, negb h1) else (h0, h1) in
  RefAcc (ra_hapsRef a ++ [h0; h1]) nMiss nUnph w.

(** Body of [for (int i=0; i<nsmpl; i++)] in [process_ref_genotypes]. *)
Definition ref_sample (ploidy : Z) (gt : list Z) (refAltSwap : bool)
    (a : ref_acc) (i : Z) : result ref_acc :=
  let ptr := fun j => rd gt (i * ploidy + j) in
  l <~ for_each (ref_allele ptr) (seqZ 0 ploidy)
         (RefLocals false false false false) ;;
  Ok (ref_finish refAltSwap a l).

Definition process_ref_genotypes (nsmpl ngt : Z) (gt : list Z)
    (refAltSwap : bool) (hapsRef : list bool) (w : Z) : result ref_acc :=
  if negb (ngt =? 2 * nsmpl) then Exit RefPloidy
  else
    let ploidy := Z.quot ngt nsmpl in
    for_each (ref_sample ploidy gt refAltSwap)
      (seqZ 0 nsmpl)
      (RefAcc hapsRef 0 0 w).

(** *** Target side *)

Record tgt_locals : Type := TgtLocals {
  t_missing : bool;
  t_g : Z
}.

(** Body of [for (int j=0; j<ploidy; j++)] in [process_target_genotypes]. *)
Definition tgt_allele (ptr : Z -> Z) (l : tgt_locals) (j : Z)
  : result tgt_locals :=
  if ptr j =? bcf_int32_vector_end then Exit TargetHaploid
  else if bcf_gt_is_missing (ptr j) then Ok (TgtLocals true (t_g l))
  else
    let idx := bcf_gt_allele (ptr j) in
    if 1 <? idx then Exit TargetMultiAllelic
    else Ok (TgtLocals (t_missing l) (uchar (t_g l + idx))).

Record tgt_acc : Type := TgtAcc {
  ta_genosTarget : list Z;
  ta_numMissing : Z
}.

Definition tgt_finish (a : tgt_acc) (l : tgt_locals) : tgt_acc :=
  if t_missing l
  then TgtAcc (ta_genosTarget a ++ [9]) (ta_numMissing a + 1)
  else TgtAcc (ta_genosTarget a ++ [t_g l]) (ta_numMissing a).

(** Body of [for (int i=0; i<nsmpl; i++)] in [process_target_genotypes]. *)
Definition tgt_sample (ploidy : Z) (gt : list Z) (a : tgt_acc) (i : Z)
  : result tgt_acc :=
  let ptr := fun j => rd gt (i * ploidy + j) in
  l <~ for_each (tgt_allele ptr) (seqZ 0 ploidy)
         (TgtLocals false 0) ;;
  Ok (tgt_finish a l).

Definition process_target_genotypes (nsmpl ngt : Z) (gt : list Z)
    (genosTarget : list Z) : result tgt_acc :=
  if negb (ngt =? 2 * nsmpl) then Exit TargetPloidy
  else
    let ploidy := Z.quot ngt nsmpl in
    for_each (tgt_sample ploidy gt)
      (seqZ 0 nsmpl)
      (TgtAcc genosTarget 0).

End Genotypes.

(** ** The joint iteration of [processVcfs] *)

(** What the source reads of a [bcf1_t] line. *)
Record bcf1 : Type := Bcf1 {
  rid : Z;                  (* rec->rid *)
  pos : Z;                  (* rec->pos *)
  n_allele : Z;             (* rec->n_allele *)
  d_allele : list string;   (* rec->d.allele[] after bcf_unpack *)
  gt_arr : list Z;          (* the array bcf_get_genotypes fills *)
  gt_n : Z                  (* the value bcf_get_genotypes returns *)
}.

(** What the source reads of a [bcf_hdr_t]. *)
Record bcf_hdr : Type := BcfHdr {
  bcf_hdr_nsamples : Z;
  bcf_hdr_id2name : Z -> string
}.

(** A line of the synced reader: [bcf_sr_get_line(sr, 0)] and
    [bcf_sr_get_line(sr, 1)], [None] for a null pointer. *)
Definition sr_line : Type := (option bcf1 * option bcf1)%type.

(** The [uint] and [uint64] tallies of [processVcfs]. *)
Record counters : Type := Counters {
  MtargetOnly : Z;
  MrefOnly : Z;
  MmultiAllelic : Z;
  Mmonomorphic : Z;
  MwithMissingRef : Z;
  MwithUnphasedRef : Z;
  MrefAltError : Z;
  numRefAltSwaps : Z;
  GmissingRef : Z;
  GunphasedRef : Z;
  GmissingTarget : Z
}.

Definition counters_init : counters := Counters 0 0 0 0 0 0 0 0 0 0 0.

Definition inc_MtargetOnly (c : counters) : counters :=
  let 'Counters a b c d e f g h i j k := c in
  Counters (uint32 (a + 1)) b c d e f g h i j k.
Definition inc_MrefOnly (c : counters) : counters :=
  let 'Counters a b c d e f g h i j k := c in
  Counters a (uint32 (b + 1)) c d e f g h i j k.
Definition inc_MmultiAllelic (c : counters) : counters :=
  let 'Counters a b c d e f g h i j k := c in
  Counters a b (uint32 (c + 1)) d e f g h i j k.
Definition inc_Mmonomorphic (c : counters) : counters :=
  let 'Counters a b c d e f g h i j k := c in
  Counters a b c (uint32 (d + 1)) e f g h i j k.
Definition inc_MrefAltError (c : counters) : counters :=
  let 'Counters a b c d e f g h i j k := c in
  Counters a b c d e f (uint32 (g + 1)) h i j k.
Definition inc_numRefAltSwaps (c : counters) : counters :=
  let 'Counters a b c d e f g h i j k := c in
  Counters a b c d e f g (uint32 (h + 1)) i j k.

(** The four statements after [process_ref_genotypes] returns. *)
Definition tally_ref (numMissing numUnphased : Z) (c : counters) : counters :=
  let 'Counters a b c d e f g h i j k := c in
  Counters a b c d
    (if numMissing =? 0 then e else uint32 (e + 1))
    (if numUnphased =? 0 then f else uint32 (f + 1))
    g h (uint64 (i + numMissing)) (uint64 (j + numUnphased)) k.

(** [GmissingTarget += numMissing]. *)
Definition tally_target (numMissing : Z) (c : counters) : counters :=
  let 'Counters a b c d e f g h i j k := c in
  Counters a b c d e f g h i j (uint64 (k + numMissing)).

(** Everything the [while] loop of [processVcfs] reads and writes. *)
Record sync : Type := Sync {
  s_M : Z;
  s_cnt : counters;
  s_w : Z;
  s_prev_rid : Z;
  s_chrom : Z;
  s_chrBps : list (Z * Z);
  s_hapsRef : list bool;
  s_genosTarget : list Z;
  s_out : list bcf1          (* the lines given to bcf_write *)
}.

Definition with_cnt (s : sync) (c : counters) : sync :=
  Sync (s_M s) c (s_w s) (s_prev_rid s) (s_chrom s) (s_chrBps s)
       (s_hapsRef s) (s_genosTarget s) (s_out s).

(** How one iteration of the [while] loop ends. *)
Inductive flow : Type :=
| Next (s : sync)      (* [continue], or the end of the body *)
| Break (s : sync).    (* [break] *)

(** [strcmp(a, b) == 0]. *)
Definition streq (a b : string) : bool := bool_decide (a = b).

(** [rec->d.allele[k]]. *)
Definition allele_at (r : bcf1) (k : nat) : string := nth k (d_allele r) "".

(** The [if (allowRefAltSwap) { ... }] block of the loop body, with the
    [bool refAltSwap = false;] before it.  [None] is its [continue]. *)
Definition reconcile (allowRefAltSwap : bool) (ref tgt : bcf1) (c : counters)
  : option bool * counters :=
  if allowRefAltSwap then
    if negb (n_allele tgt =? 2) || negb (n_allele ref =? 2)
    then (None, inc_MrefAltError c)
    else if streq (allele_at tgt 0) (allele_at ref 0)
            && streq (allele_at tgt 1) (allele_at ref 1)
    then (Some false, c)
    else if streq (allele_at tgt 0) (allele_at ref 1)
            && streq (allele_at tgt 1) (allele_at ref 0)
    then (Some true, inc_numRefAltSwaps c)
    else (None, inc_MrefAltError c)
  else (Some false, c).

Section Sync.
Context {HTS : BcfGt}.
(** [sscanf(name, "%d", &chrom)]: the integer read, [None] when no
    conversion is made and [chrom] keeps its value. *)
Variable sscanf_d : string -> option Z.
Variables ref_hdr tgt_hdr : bcf_hdr.

Definition Nref : Z := bcf_hdr_nsamples ref_hdr.
Definition Ntarget : Z := bcf_hdr_nsamples tgt_hdr.

(** The chromosome check: [if (prev_rid<0) { ... }]. *)
Definition learn_chrom (tgt : bcf1) (s : sync) : result sync :=
  if s_prev_rid s <? 0 then
    if s_chrom s =? 0 then
      let chrom :=
        match sscanf_d (bcf_hdr_id2name tgt_hdr (rid tgt)) with
        | Some c => c
        | None => s_chrom s
        end in
      if negb ((1 <=? chrom) && (chrom <=? 22)) then Exit InvalidChromosome
      else Ok (Sync (s_M s) (s_cnt s) (s_w s) (rid tgt) chrom (s_chrBps s)
                    (s_hapsRef s) (s_genosTarget s) (s_out s))
    else Ok (Sync (s_M s) (s_cnt s) (s_w s) (rid tgt) (s_chrom s)
                  (s_chrBps s) (s_hapsRef s) (s_genosTarget s) (s_out s))
  else Ok s.

(** From [M++] to [bcf_write]: the line passed the checks.  The key
    pushed is a [pair <int, int>]: [tgt->pos+1] is stored as an [int]. *)
Definition accept (refAltSwap : bool) (ref tgt : bcf1) (s : sync)
  : result sync :=
  let M := uint64 (s_M s + 1) in
  let chrBps := s_chrBps s ++ [(s_chrom s, int32 (pos tgt + 1))] in
  r <~ process_ref_genotypes Nref (gt_n ref) (gt_arr ref) refAltSwap
         (s_hapsRef s) (s_w s) ;;
  let c1 := tally_ref (ra_numMissing r) (ra_numUnphased r) (s_cnt s) in
  t <~ process_target_genotypes Ntarget (gt_n tgt) (gt_arr tgt)
         (s_genosTarget s) ;;
  let c2 := tally_target (ta_numMissing t) c1 in
  Ok (Sync M c2 (ra_w r) (s_prev_rid s) (s_chrom s) chrBps
           (ra_hapsRef r) (ta_genosTarget t) (s_out s ++ [tgt])).

(** The body of [while ( bcf_sr_next_line(sr) )]. *)
Definition sync_line (allowRefAltSwap : bool) (s : sync) (ln : sr_line)
  : result flow :=
  match fst ln with
  | None => Ok (Next (with_cnt s (inc_MtargetOnly (s_cnt s))))
  | Some ref =>
    match snd ln with
    | None => Ok (Next (with_cnt s (inc_MrefOnly (s_cnt s))))
    | Some tgt =>
      if 2 <? n_allele tgt
      then Ok (Next (with_cnt s (inc_MmultiAllelic (s_cnt s))))
      else if n_allele tgt <? 2
      then Ok (Next (with_cnt s (inc_Mmonomorphic (s_cnt s))))
      else
        match reconcile allowRefAltSwap ref tgt (s_cnt s) with
        | (None, c) => Ok (Next (with_cnt s c))
        | (Some refAltSwap, c) =>
          s1 <~ learn_chrom tgt (with_cnt s c) ;;
          if negb (s_prev_rid s1 =? rid tgt) then Ok (Break s1)
          else
            s2 <~ accept refAltSwap ref tgt s1 ;;
            Ok (Next s2)
        end
    end
  end.

Fixpoint sync_loop (allowRefAltSwap : bool) (lines : list sr_line)
    (s : sync) : result sync :=
  match lines with
  | [] => Ok s
  | ln :: rest =>
    f <~ sync_line allowRefAltSwap s ln ;;
    match f with
    | Next s' => sync_loop allowRefAltSwap rest s'
    | Break s' => Ok s'
    end
  end.

(** The state before the loop: [M = 0], the tallies at 0,
    [w = 521288629], [prev_rid = -1], empty vectors. *)
Definition sync_init (chrom : Z) : sync :=
  Sync 0 counters_init w_init (-1) chrom [] [] [] [].

(** [processVcfs]: the loop, then [if (M <= 1U) exit(1)].  The final
    state carries the returned [chrBps], the filled [hapsRef] and
    [genosTarget], and [M]. *)
Definition processVcfs (lines : list sr_line) (allowRefAltSwap : bool)
    (chrom : Z) : result sync :=
  s <~ sync_loop allowRefAltSwap lines (sync_init chrom) ;;
  if s_M s <=? 1 then Exit TooFewSnps else Ok s.

End Sync.

(** ** Genetic coordinates *)

(** [processMap]: [cMs[m] = 100 * mapInterpolater.interp(chr, bp)].
    [interp] is the interpolation of [Genetics::MapInterpolater] for the
    map file given. *)
Definition processMap (interp : Z -> Z -> float) (chrBps : list (Z * Z))
  : list float :=
  map (fun cb => PrimFloat.mul 100 (interp (fst cb) (snd cb))) chrBps.

(** ** Segments and bit planes: [buildGenoBits] *)

(** [uint64_masks]: the three 64-bit planes of one individual in one
    segment. *)
Record uint64_masks : Type := Masks {
  is0 : Z;
  is2 : Z;
  is9 : Z
}.

#[export] Instance uint64_masks_inhabited : Inhabited uint64_masks :=
  populate (Masks 0 0 0).

Definition segMin : nat := 16.

(** The vectors the segmentation loop grows. *)
Record seg_state : Type := SegState {
  snpInds : list nat;
  cMvec : list float;
  seg64snpInds : list (list nat);
  seg64cMvecs : list (list float)
}.

(** [cMs[m]]. *)
Definition cM_at (cMs : list float) (m : nat) : float := nth m cMs 0%float.

(** The test that closes the current segment before SNP [m] is added:
    [cMvec.size() == 64 ||
     (cMvec.size() >= segMin && cMs[m] > cMvec[0] + cMmax)]. *)
Definition seg_full (cMs : list float) (cMmax : float) (cMvec : list float)
    (m : nat) : bool :=
  (length cMvec =? 64)%nat
  || ((segMin <=? length cMvec)%nat
      && PrimFloat.ltb (PrimFloat.add (cM_at cMvec 0) cMmax) (cM_at cMs m)).

(** Body of [for (uint64 m = 0; m < M; m++)], first loop. *)
Definition seg_step (cMs : list float) (cMmax : float) (s : seg_state)
    (m : nat) : seg_state :=
  let s1 :=
    if seg_full cMs cMmax (cMvec s) m
    then SegState [] [] (seg64snpInds s ++ [snpInds s])
                  (seg64cMvecs s ++ [cMvec s])
    else s in
  SegState (snpInds s1 ++ [m]) (cMvec s1 ++ [cM_at cMs m])
           (seg64snpInds s1) (seg64cMvecs s1).

(** The first loop and the two [push_back]s after it. *)
Definition segment (M : nat) (cMs : list float) (cMmax : float) : seg_state :=
  let s := fold_left (seg_step cMs cMmax) (seq 0 M) (SegState [] [] [] []) in
  SegState (snpInds s) (cMvec s) (seg64snpInds s ++ [snpInds s])
           (seg64cMvecs s ++ [cMvec s]).

(** [(uint64) v << j]. *)
Definition shl64 (v : Z) (j : nat) : Z := uint64 (Z.shiftl v (Z.of_nat j)).

(** [genoBits[i].is0 |= v], and likewise for the other planes. *)
Definition or_is0 (i : nat) (v : Z) (genoBits : list uint64_masks)
  : list uint64_masks :=
  alter (fun x => Masks (Z.lor (is0 x) v) (is2 x) (is9 x)) i genoBits.
Definition or_is2 (i : nat) (v : Z) (genoBits : list uint64_masks)
  : list uint64_masks :=
  alter (fun x => Masks (is0 x) (Z.lor (is2 x) v) (is9 x)) i genoBits.
Definition or_is9 (i : nat) (v : Z) (genoBits : list uint64_masks)
  : list uint64_masks :=
  alter (fun x => Masks (is0 x) (is2 x) (Z.lor (is9 x) v)) i genoBits.

Section Pack.
Variables (Nref_ Ntarget_ : nat).
Variable hapsRef : list bool.
Variable genosTarget : list Z.

Definition N_ : nat := (Nref_ + Ntarget_)%nat.

(** Body of [for (uint64 n = 0; n < Nref; n++)]. *)
Definition pack_ref (m64 j m : nat) (genoBits : list uint64_masks)
    (n : nat) : list uint64_masks :=
  let haps0 := nth (m * 2 * Nref_ + 2 * n)%nat hapsRef false in
  let haps1 := nth (m * 2 * Nref_ + 2 * n + 1)%nat hapsRef false in
  or_is2 (m64 * N_ + n)%nat (shl64 (Z.b2z haps1) j)
    (or_is0 (m64 * N_ + n)%nat (shl64 (Z.b2z haps0) j) genoBits).

(** Body of [for (uint64 n = Nref; n < N; n++)]. *)
Definition pack_target (m64 j m : nat) (genoBits : list uint64_masks)
    (n : nat) : list uint64_masks :=
  let geno := nth (m * Ntarget_ + n - Nref_)%nat genosTarget 0 in
  or_is9 (m64 * N_ + n)%nat (shl64 (Z.b2z (geno =? 9)) j)
    (or_is2 (m64 * N_ + n)%nat (shl64 (Z.b2z (geno =? 2)) j)
       (or_is0 (m64 * N_ + n)%nat (shl64 (Z.b2z (geno =? 0)) j) genoBits)).

(** Body of [for (uint64 j = 0; j < seg64snpInds[m64].size(); j++)]. *)
Definition pack_snp (m64 : nat) (seg : list nat)
    (genoBits : list uint64_masks) (j : nat) : list uint64_masks :=
  let m := nth j seg 0%nat in
  let g1 := fold_left (pack_ref m64 j m) (seq 0 Nref_) genoBits in
  fold_left (pack_target m64 j m) (seq Nref_ Ntarget_) g1.

(** Body of [for (uint64 n = 0; n < N; n++)], the padding loop. *)
Definition pad_indiv (m64 : nat) (seg : list nat)
    (genoBits : list uint64_masks) (n : nat) : list uint64_masks :=
  fold_left (fun g j => or_is9 (m64 * N_ + n)%nat (shl64 1 j) g)
    (seq (length seg) (64 - length seg)) genoBits.

(** Body of [for (uint64 m64 = 0; m64 < Mseg64; m64++)]. *)
Definition pack_seg (segs : list (list nat)) (genoBits : list uint64_masks)
    (m64 : nat) : list uint64_masks :=
  let seg := nth m64 segs [] in
  let g1 := fold_left (pack_snp m64 seg) (seq 0 (length seg)) genoBits in
  fold_left (pad_indiv m64 seg) (seq 0 N_) g1.

(** The allocation, the [memset] and the packing loop. *)
Definition pack (segs : list (list nat)) : list uint64_masks :=
  fold_left (pack_seg segs) (seq 0 (length segs))
    (replicate (length segs * N_) (Masks 0 0 0)).

End Pack.

(** What [buildGenoBits] leaves in the object. *)
Record packed : Type := Packed {
  Mseg64 : nat;
  p_seg64snpInds : list (list nat);
  p_seg64cMvecs : list (list float);
  genoBits : list uint64_masks
}.

Definition buildGenoBits (M Nref_ Ntarget_ : nat) (hapsRef : list bool)
    (genosTarget : list Z) (cMs : list float) (cMmax : float) : packed :=
  let s := segment M cMs cMmax in
  Packed (length (seg64snpInds s)) (seg64snpInds s) (seg64cMvecs s)
         (pack Nref_ Ntarget_ hapsRef genosTarget (seg64snpInds s)).

(** ** The constructor *)

(** Body of [for (uint64 m = 0; m+1 < chrBps.size(); m++)].  The
    difference of the two [int] coordinates is an [int], converted to
    [uint64] by the [+=]. *)
Definition range_step (chrBps : list (Z * Z)) (cMs : list float)
    (acc : Z * float) (m : nat) : Z * float :=
  let a := nth m chrBps (0, 0) in
  let b := nth (m + 1) chrBps (0, 0) in
  if fst b =? fst a
  then (uint64 (fst acc + int32 (snd b - snd a)),
        PrimFloat.add (snd acc)
          (PrimFloat.sub (cM_at cMs (m + 1)) (cM_at cMs m)))
  else acc.

(** [physRange] and [cMrange] after the loop. *)
Definition ranges (chrBps : list (Z * Z)) (cMs : list float) : Z * float :=
  fold_left (range_step chrBps cMs) (seq 0 (length chrBps - 1))
    (0, 0%float).

Section Constructor.
Context {HTS : BcfGt}.
Variable sscanf_d : string -> option Z.
Variables ref_hdr tgt_hdr : bcf_hdr.
Variable interp : Z -> Z -> float.

(** [SyncedVcfData::SyncedVcfData]: what is left in the object, or
    the exit taken. *)
Definition SyncedVcfData (lines : list sr_line) (allowRefAltSwap : bool)
    (chrom : Z) (cMmax : float) : result packed :=
  s <~ processVcfs sscanf_d ref_hdr tgt_hdr lines allowRefAltSwap chrom ;;
  let cMs := processMap interp (s_chrBps s) in
  let '(physRange, cMrange) := ranges (s_chrBps s) cMs in
  if (physRange =? 0) || PrimFloat.eqb cMrange 0 then Exit ZeroRange
  else
    Ok (buildGenoBits (Z.to_nat (s_M s))
          (Z.to_nat (Nref ref_hdr)) (Z.to_nat (Ntarget tgt_hdr))
          (s_hapsRef s) (s_genosTarget s) cMs cMmax).

End Constructor.

(** * The vocabulary of the properties

    Definitions in the words of the specification, the invariants of
    the loops, and the data of the examples. *)

Section SpecGenotypes.
Context {HTS : BcfGt}.

(** A well-formed allele call of a diploid, biallelic record: not the
    vector-end sentinel, and either missing or allele index 0 or 1. *)
Definition call_ok (v : Z) : Prop :=
  v <> bcf_int32_vector_end
  /\ (bcf_gt_is_missing v = true \/ 0 <= bcf_gt_allele v <= 1).




(** The locals the allele loop leaves for a sample with calls [a], [b]. *)
Definition ref_locals_of (a b : Z) : ref_locals :=
  RefLocals
    (if bcf_gt_is_missing a then false else 1 <=? bcf_gt_allele a)
    (if bcf_gt_is_missing b then false else 1 <=? bcf_gt_allele b)
    (bcf_gt_is_missing a || bcf_gt_is_missing b)
    (if bcf_gt_is_missing b then false else negb (bcf_gt_is_phased b)).

(** A call to which the phase-randomization rule applies: not missing,
    second allele not phased, the two haplotype bits different. *)
Definition het_unphased (l : ref_locals) : bool :=
  negb (r_missing l) && r_unphased l && negb (eqb (haps0 l) (haps1 l)).

(** The calls of the samples [ix] of a record, as the allele loop
    leaves them. *)
Definition ref_calls (gt : list Z) (ix : list Z) : list ref_locals :=
  map (fun i => ref_locals_of (rd gt (2 * i)) (rd gt (2 * i + 1))) ix.

End SpecGenotypes.

(** The pair of haplotype bits of a call before the REF/ALT inversion,
    for generator state [w] on entry. *)
Definition ref_pair (l : ref_locals) (w : Z) : bool * bool :=
  if r_missing l then (false, false)
  else if het_unphased l && Z.odd (mwc w) then (haps1 l, haps0 l)
  else (haps0 l, haps1 l).

(** The rule of the specification over a sequence of calls, each with
    the REF/ALT flag of its record.  One generator state is threaded
    through the whole sequence: it is stepped at every call to which
    the rule applies and at no other, and the pair of such a call is
    swapped exactly when the stepped state is odd.  The result is the
    bits pushed and the state left. *)
Fixpoint randomize (calls : list (bool * ref_locals)) (w : Z)
  : list bool * Z :=
  match calls with
  | [] => ([], w)
  | (swap, l) :: rest =>
    let hs := ref_pair l w in
    let r := randomize rest (if het_unphased l then mwc w else w) in
    (xorb swap (fst hs) :: xorb swap (snd hs) :: fst r, snd r)
  end.

(** The number of calls of a sequence to which the rule applies. *)
Definition het_count (calls : list (bool * ref_locals)) : nat :=
  length (List.filter (fun c => het_unphased (snd c)) calls).

(** A line that reaches the chromosome check: both records present,
    the target biallelic, the alleles reconciled; with the REF/ALT flag
    of the reconciliation block. *)
Definition gated (allowRefAltSwap : bool) (ln : sr_line)
  : option (bool * bcf1 * bcf1) :=
  match ln with
  | (Some ref, Some tgt) =>
    if (2 <? n_allele tgt) || (n_allele tgt <? 2) then None
    else
      match fst (reconcile allowRefAltSwap ref tgt counters_init) with
      | Some refAltSwap => Some (refAltSwap, ref, tgt)
      | None => None
      end
  | _ => None
  end.

Section SpecRun.
Context {HTS : BcfGt}.
Variable sscanf_d : string -> option Z.
Variables ref_hdr tgt_hdr : bcf_hdr.

(** The lines a run of the [while] loop from state [s] accepts, in the
    order read: the gated lines up to the first break or exit. *)
Fixpoint accepted (allowRefAltSwap : bool) (lines : list sr_line) (s : sync)
  : list (bool * bcf1 * bcf1) :=
  match lines with
  | [] => []
  | ln :: rest =>
    match sync_line sscanf_d ref_hdr tgt_hdr allowRefAltSwap s ln with
    | Ok (Next s') =>
      match gated allowRefAltSwap ln with
      | Some x => x :: accepted allowRefAltSwap rest s'
      | None => accepted allowRefAltSwap rest s'
      end
    | _ => []
    end
  end.

(** The calls of the reference samples of an accepted line, each with
    the flag of the line. *)
Definition record_calls (x : bool * bcf1 * bcf1) : list (bool * ref_locals) :=
  map (pair (fst (fst x)))
      (ref_calls (gt_arr (snd (fst x))) (seqZ 0 (Nref ref_hdr))).

(** The sequence of reference calls of a run: those of its accepted
    lines, record after record. *)
Definition run_calls (allowRefAltSwap : bool) (lines : list sr_line)
    (chrom : Z) : list (bool * ref_locals) :=
  flat_map record_calls (accepted allowRefAltSwap lines (sync_init chrom)).

(** Where the chromosome number of a run without a requested chromosome
    comes from: it is 0 until a line is written, and then the number
    [sscanf] reads in the contig name of the first line written. *)
Definition chrom_read (s : sync) : Prop :=
  (s_out s = [] -> s_chrom s = 0 /\ s_prev_rid s < 0)
  /\ (forall t rest, s_out s = t :: rest ->
        sscanf_d (bcf_hdr_id2name tgt_hdr (rid t)) = Some (s_chrom s)
        /\ 1 <= s_chrom s <= 22).

End SpecRun.

(** Coordinates that do not decrease along the list. *)
Fixpoint nondecreasing (cs : list float) : bool :=
  match cs with
  | a :: (b :: _) as rest => PrimFloat.leb a b && nondecreasing rest
  | _ => true
  end.

(** A binary64 value that is a zero or a finite nonzero number. *)
Definition proper (x : SpecFloat.spec_float) : Prop :=
  match x with
  | SpecFloat.S754_zero _ | SpecFloat.S754_finite _ _ _ => True
  | _ => False
  end.

(** A binary64 value that is a zero. *)
Definition is_zero_sf (x : SpecFloat.spec_float) : Prop :=
  match x with
  | SpecFloat.S754_zero _ => True
  | _ => False
  end.

(** What every state of the [while] loop satisfies: [M] counts the
    accepted lines, all of them carry the chromosome of the state, that
    chromosome is known once a line was gated or accepted, and the
    generator state is an iterate of the seed. *)
Record sync_inv (s : sync) : Prop := SyncInv {
  inv_M : s_M s = uint64 (Z.of_nat (length (s_chrBps s)));
  inv_chr : Forall (fun e => fst e = s_chrom s) (s_chrBps s);
  inv_rid : 0 <= s_prev_rid s -> s_chrom s <> 0;
  inv_nonempty : s_chrBps s <> [] -> s_chrom s <> 0;
  inv_w : exists k, s_w s = Nat.iter k mwc w_init
}.

(** The boundary rule in the words of the specification: the current
    segment [cur] is closed before SNP [m] when it has reached 64 SNPs,
    or has at least 16 and the coordinate of [m] exceeds the coordinate
    of its first SNP plus [cMmax]. *)
Definition closes (cMs : list float) (cMmax : float) (cur : list nat)
    (m : nat) : bool :=
  (length cur =? 64)%nat
  || ((16 <=? length cur)%nat
      && PrimFloat.ltb
           (PrimFloat.add (cM_at cMs (nth 0 cur 0%nat)) cMmax) (cM_at cMs m)).

(** No SNP after the first of a segment was due a boundary. *)
Definition inside_ok (cMs : list float) (cMmax : float) (seg : list nat)
  : Prop :=
  forall p m, seg !! p = Some m -> (0 < p)%nat ->
    closes cMs cMmax (take p seg) m = false.

(** The first SNP of every segment but the first was due a boundary. *)
Definition bounds_ok (cMs : list float) (cMmax : float)
    (segs : list (list nat)) : Prop :=
  forall k prev seg m,
    segs !! k = Some prev -> segs !! S k = Some seg -> seg !! 0%nat = Some m ->
    closes cMs cMmax prev m = true.

(** The invariant of the segmentation loop after SNPs [0 .. m-1]. *)
Record seg_inv (cMs : list float) (cMmax : float) (m : nat) (s : seg_state)
  : Prop := SegInv {
  si_cover : concat (seg64snpInds s) ++ snpInds s = seq 0 m;
  si_cMvec : cMvec s = map (cM_at cMs) (snpInds s);
  si_cMvecs : seg64cMvecs s = map (map (cM_at cMs)) (seg64snpInds s);
  si_closed : Forall (fun seg => (1 <= length seg <= 64)%nat) (seg64snpInds s);
  si_cur : (length (snpInds s) <= 64)%nat;
  si_cur_pos : (0 < m)%nat -> (1 <= length (snpInds s))%nat;
  si_inside : Forall (inside_ok cMs cMmax) (seg64snpInds s ++ [snpInds s]);
  si_bounds : bounds_ok cMs cMmax (seg64snpInds s ++ [snpInds s])
}.

Inductive plane : Type := P0 | P2 | P9.

#[export] Instance plane_eq_dec : EqDecision plane.
Proof. solve_decision. Defined.

Definition plane_of (p : plane) (x : uint64_masks) : Z :=
  match p with
  | P0 => is0 x
  | P2 => is2 x
  | P9 => is9 x
  end.

(** Bit [k] of plane [p] of [genoBits[i]]. *)
Definition bit (genoBits : list uint64_masks) (p : plane) (i k : nat) : bool :=
  Z.testbit (plane_of p (genoBits !!! i)) (Z.of_nat k).

(** [genoBits[i].p |= v]. *)
Definition or_plane (p : plane) (i : nat) (v : Z)
    (genoBits : list uint64_masks) : list uint64_masks :=
  match p with
  | P0 => or_is0 i v genoBits
  | P2 => or_is2 i v genoBits
  | P9 => or_is9 i v genoBits
  end.

(** Later writes only add bits and keep the length. *)
Definition grows (gb gb' : list uint64_masks) : Prop :=
  length gb' = length gb
  /\ forall p i k, bit gb p i k = true -> bit gb' p i k = true.

Section SpecPack.
Variables (Nref_ Ntarget_ : nat) (hapsRef : list bool) (genosTarget : list Z).
Variable segs : list (list nat).

(** What the packing loop writes at the position of SNP [m] in plane
    [p] for individual [n]: the haplotype bits of a reference sample,
    the tests [geno == 0], [geno == 2], [geno == 9] of a target. *)
Definition call_bit (p : plane) (n m : nat) : bool :=
  if (n <? Nref_)%nat then
    match p with
    | P0 => nth (m * 2 * Nref_ + 2 * n)%nat hapsRef false
    | P2 => nth (m * 2 * Nref_ + 2 * n + 1)%nat hapsRef false
    | P9 => false
    end
  else
    let geno := nth (m * Ntarget_ + n - Nref_)%nat genosTarget 0 in
    match p with
    | P0 => geno =? 0
    | P2 => geno =? 2
    | P9 => geno =? 9
    end.

(** Where a set bit can come from: a call at a position inside the
    segment, or the padding of [is9] beyond it. *)
Definition origin (p : plane) (i k : nat) : Prop :=
  exists m64 n,
    i = (m64 * N_ Nref_ Ntarget_ + n)%nat
    /\ (n < N_ Nref_ Ntarget_)%nat /\ (m64 < length segs)%nat
    /\ (((k < length (nth m64 segs []))%nat
         /\ call_bit p n (nth k (nth m64 segs []) 0%nat) = true)
        \/ (p = P9 /\ (length (nth m64 segs []) <= k < 64)%nat)).

(** Every set bit of the planes has an origin. *)
Definition sound (gb : list uint64_masks) : Prop :=
  forall p i k, bit gb p i k = true -> origin p i k.

End SpecPack.

(** The comparison of mantissas of [SpecFloat], as [Pos.compare]. *)
Ltac fold_pos_compare :=
  repeat match goal with
  | |- context [PosDef.Pos.compare_cont Eq ?a ?b] =>
    change (PosDef.Pos.compare_cont Eq a b) with (Pos.compare a b)
  end.

Ltac unfold_built :=
  unfold buildGenoBits in *;
  cbn [genoBits p_seg64snpInds Mseg64 p_seg64cMvecs] in *.

(** ** Vocabulary of the further properties *)

Section SpecEntries.
Context {HTS : BcfGt}.

(** An entry of the target genotype array that [process_target_genotypes]
    reads without exit: not the vector-end sentinel, and missing or
    with allele index at most 1. *)
Definition tgt_entry_ok (v : Z) : Prop :=
  v <> bcf_int32_vector_end
  /\ (bcf_gt_is_missing v = true \/ bcf_gt_allele v <= 1).

(** The number of ALT alleles of a call with two alleles present. *)
Definition dosage (a b : Z) : Z :=
  Z.b2z (1 <=? bcf_gt_allele a) + Z.b2z (1 <=? bcf_gt_allele b).

End SpecEntries.

(** A line of the synced reader with a record on one side only. *)
Definition one_sided (ln : sr_line) : Prop := fst ln = None \/ snd ln = None.

(** The state after an iteration of the [while] loop. *)
Definition flow_state (f : flow) : sync :=
  match f with
  | Next s => s
  | Break s => s
  end.

(** The shape of the vectors of the [while] loop: [2*Nref] haplotype
    bits and [Ntarget] codes per accepted line, one key per line
    written, made of the chromosome of the state and the 1-based
    position of the line as an [int]; every line written has 2
    alleles. *)
Record sync_shape (nref ntarget : Z) (s : sync) : Prop := SyncShape {
  sh_hapsRef :
    length (s_hapsRef s) = (2 * Z.to_nat nref * length (s_chrBps s))%nat;
  sh_genosTarget :
    length (s_genosTarget s) = (Z.to_nat ntarget * length (s_chrBps s))%nat;
  sh_keys :
    s_chrBps s = map (fun t => (s_chrom s, int32 (pos t + 1))) (s_out s);
  sh_biallelic : Forall (fun t => n_allele t = 2) (s_out s)
}.

(** The lines written all lie on the chromosome the loop is locked to. *)
Definition one_rid (s : sync) : Prop :=
  s_out s <> [] ->
  0 <= s_prev_rid s /\ Forall (fun t => rid t = s_prev_rid s) (s_out s).

(** The chromosome number of the state for a run started with [chrom0]:
    the requested one, or one read in the range 1..22, or still 0. *)
Definition chrom_known (chrom0 : Z) (s : sync) : Prop :=
  (chrom0 <> 0 -> s_chrom s = chrom0)
  /\ (chrom0 = 0 -> s_chrom s = 0 \/ 1 <= s_chrom s <= 22).

(** The lines classified so far: the five rejection tallies and [M]. *)
Definition classified (s : sync) : Z :=
  MtargetOnly (s_cnt s) + MrefOnly (s_cnt s) + MmultiAllelic (s_cnt s)
  + Mmonomorphic (s_cnt s) + MrefAltError (s_cnt s) + s_M s.

(** No tally is about to wrap. *)
Definition tallies_small (s : sync) : Prop :=
  0 <= MtargetOnly (s_cnt s) < 2 ^ 32 - 1
  /\ 0 <= MrefOnly (s_cnt s) < 2 ^ 32 - 1
  /\ 0 <= MmultiAllelic (s_cnt s) < 2 ^ 32 - 1
  /\ 0 <= Mmonomorphic (s_cnt s) < 2 ^ 32 - 1
  /\ 0 <= MrefAltError (s_cnt s) < 2 ^ 32 - 1
  /\ 0 <= s_M s < 2 ^ 64 - 1.

(** ** Data of the examples *)

(** One reference and one target sample on contig "20"; the map puts
    positions 5 and 7 at 2^-7 and 2^-6 Morgans and any other at 2^-5. *)
Definition ex_hdr : bcf_hdr := BcfHdr 1 (fun _ => "20"%string).

Definition ex_sscanf (name : string) : option Z :=
  if bool_decide (name = "20"%string) then Some 20 else None.

Definition ex_interp (chr bp : Z) : float :=
  if bp =? 5 then 0.0078125%float
  else if bp =? 7 then 0.015625%float
  else 0.03125%float.

(** A joined line at 0-based position [p] with alleles A, C on both
    sides. *)
Definition ex_line (p : Z) (ref_gt tgt_gt : list Z) : sr_line :=
  (Some (Bcf1 0 p 2 ["A"; "C"]%string ref_gt 2),
   Some (Bcf1 0 p 2 ["A"; "C"]%string tgt_gt 2)).

(** Twenty coordinates half a centiMorgan apart. *)
Definition ex_cMs : list float :=
  [0; 0.5; 1; 1.5; 2; 2.5; 3; 3.5; 4; 4.5;
   5; 5.5; 6; 6.5; 7; 7.5; 8; 8.5; 9; 9.5]%float.

(** Three SNPs, one reference sample with haplotypes [0|1], [1|0],
    [0|0] and one target sample with codes 1, 9, 2. *)
Definition ex_hapsRef : list bool := [false; true; true; false; false; false].
Definition ex_genosTarget : list Z := [1; 9; 2].
Definition ex_cMs3 : list float := [0.5; 0.75; 1]%float.
Definition ex_built : packed :=
  buildGenoBits 3 1 1 ex_hapsRef ex_genosTarget ex_cMs3 1%float.

(** Four joined lines whose reference call, [1/0], is heterozygous and
    unphased. *)
Definition ex_lines_unphased : list sr_line :=
  map (fun p => ex_line p [bcf_gt_unphased 1; bcf_gt_unphased 0]
                          [bcf_gt_unphased 0; bcf_gt_unphased 1])
      [4; 6; 9; 11].

(** Two joined lines at positions where the map of the examples is
    flat: keys 10 and 12, both at 3.125 cM. *)
Definition ex_lines_flat : list sr_line :=
  [ex_line 9 [bcf_gt_phased 0; bcf_gt_phased 1]
             [bcf_gt_unphased 0; bcf_gt_unphased 1];
   ex_line 11 [bcf_gt_phased 1; bcf_gt_phased 0]
              [bcf_gt_unphased 1; bcf_gt_unphased 1]].

(** Two joined lines at the same position. *)
Definition ex_lines_same : list sr_line :=
  [ex_line 4 [bcf_gt_phased 0; bcf_gt_phased 1]
             [bcf_gt_unphased 0; bcf_gt_unphased 1];
   ex_line 4 [bcf_gt_phased 1; bcf_gt_phased 0]
             [bcf_gt_unphased 1; bcf_gt_unphased 1]].

(** A joined line at the last position an [int] holds. *)
Definition ex_lines_wrap : list sr_line :=
  [ex_line 2147483647 [bcf_gt_phased 0; bcf_gt_phased 1]
                      [bcf_gt_unphased 0; bcf_gt_unphased 1]].

(** A joined line whose contig name is not a number. *)
Definition ex_hdr_X : bcf_hdr := BcfHdr 1 (fun _ => "X"%string).

(** Three joined lines on contig "20": reference [0|1], [1/0], [0|0]
    and target [0/1], [./.], [1/1]. *)
Definition ex_lines : list sr_line :=
  [ex_line 4 [bcf_gt_unphased 0; bcf_gt_phased 1]
             [bcf_gt_unphased 0; bcf_gt_unphased 1];
   ex_line 6 [bcf_gt_unphased 1; bcf_gt_unphased 0]
             [bcf_gt_missing; bcf_gt_missing];
   ex_line 9 [bcf_gt_phased 0; bcf_gt_phased 0]
             [bcf_gt_unphased 1; bcf_gt_unphased 1]].

(** * Properties *)

(** ** Loops and fixed-width arithmetic *)

Lemma for_each_app {S X} (body : S -> X -> result S) (xs ys : list X) (s : S) :
  for_each body (xs ++ ys) s = (s' <~ for_each body xs s ;; for_each body ys s').
Proof.
  revert s. induction xs as [|x xs IH]; intros s; simpl; [reflexivity|].
  destruct (body s x); simpl; auto.
Qed.

Lemma seqZ_two : seqZ 0 2 = [0; 1].
Proof. reflexivity. Qed.


Lemma quot_two_times n : n <> 0 -> Z.quot (2 * n) n = 2.
Proof. intros H. apply Z.quot_mul. exact H. Qed.

(** ** Target genotype codes *)

Section TargetCodes.
Context {HTS : BcfGt}.








End TargetCodes.

(** With htslib's encoding every non-negative value other than the
    vector-end sentinel whose allele index is at most 1 is a well-formed
    call: the index of a call that is not missing is never negative. *)
Lemma htslib_call_ok (v : Z) :
  v <> -2147483647 -> 0 <= v ->
  bcf_gt_allele (BcfGt := htslib_vcf) v <= 1 ->
  call_ok (HTS := htslib_vcf) v.
Proof.
  intros Hv Hpos Hle. split; [exact Hv|]. simpl in *.
  rewrite Z.shiftr_div_pow2 in * by lia. change (2 ^ 1) with 2 in *.
  destruct (Z.eqb_spec (v / 2) 0) as [E|E]; [left; reflexivity|right].
  assert (0 <= v / 2) by (apply Z.div_pos; lia). lia.
Qed.


(** ** The multiply-with-carry generator *)

Lemma land_65535 w : Z.land w 65535 = w mod 65536.
Proof. change 65535 with (Z.ones 16). rewrite Z.land_ones by lia. reflexivity. Qed.

Lemma shiftr_16 w : Z.shiftr w 16 = w / 65536.
Proof. rewrite Z.shiftr_div_pow2 by lia. reflexivity. Qed.

(** The 32-bit product and sum of [mwc] never wrap. *)
Lemma mwc_exact w :
  0 <= w < 2 ^ 32 ->
  mwc w = 18000 * Z.land w 65535 + Z.shiftr w 16 /\ 0 <= mwc w < 2 ^ 32.
Proof.
  intros Hw. unfold mwc, uint32. rewrite land_65535, shiftr_16.
  assert (H1 : 0 <= w mod 65536 < 65536) by (apply Z.mod_pos_bound; lia).
  assert (H2 : 0 <= w / 65536 < 65536).
  { split; [apply Z.div_pos; lia|]. apply Z.div_lt_upper_bound; lia. }
  rewrite Z.mod_small by lia. lia.
Qed.

Lemma mwc_iter_range k w :
  0 <= w < 2 ^ 32 -> 0 <= Nat.iter k mwc w < 2 ^ 32.
Proof.
  intros Hw. induction k as [|k IH]; simpl; [exact Hw|].
  apply mwc_exact. exact IH.
Qed.

(** [x & 1] is nonzero exactly when [x] is odd. *)
Lemma land_1_odd x : negb (Z.land x 1 =? 0) = Z.odd x.
Proof.
  change 1 with (Z.ones 1) at 1. rewrite Z.land_ones by lia.
  change (2 ^ 1) with 2. rewrite <- Z.bit0_mod, Z.bit0_odd.
  destruct (Z.odd x); reflexivity.
Qed.

(** ** Reference haplotype bits *)

Section RefBits.
Context {HTS : BcfGt}.

Lemma ref_alleles_ok (ptr : Z -> Z) :
  ptr 0 <> bcf_int32_vector_end -> ptr 1 <> bcf_int32_vector_end ->
  for_each (ref_allele ptr) [0; 1] (RefLocals false false false false)
  = Ok (ref_locals_of (ptr 0) (ptr 1)).
Proof.
  intros H0 H1. simpl. unfold ref_allele, ref_locals_of.
  destruct (Z.eqb_spec (ptr 0) bcf_int32_vector_end); [contradiction|].
  destruct (Z.eqb_spec (ptr 1) bcf_int32_vector_end); [contradiction|].
  destruct (bcf_gt_is_missing (ptr 0)), (bcf_gt_is_missing (ptr 1)); simpl;
    try reflexivity;
    destruct (bcf_gt_is_phased (ptr 1)); reflexivity.
Qed.

Lemma ref_alleles_inv (ptr : Z -> Z) l :
  for_each (ref_allele ptr) [0; 1] (RefLocals false false false false) = Ok l ->
  ptr 0 <> bcf_int32_vector_end /\ ptr 1 <> bcf_int32_vector_end.
Proof.
  simpl. unfold ref_allele.
  destruct (Z.eqb_spec (ptr 0) bcf_int32_vector_end); [discriminate|].
  destruct (Z.eqb_spec (ptr 1) bcf_int32_vector_end); [|tauto].
  destruct (bcf_gt_is_missing (ptr 0)); simpl; discriminate.
Qed.

Lemma ref_sample_ok gt refAltSwap a i :
  rd gt (2 * i) <> bcf_int32_vector_end ->
  rd gt (2 * i + 1) <> bcf_int32_vector_end ->
  ref_sample 2 gt refAltSwap a i
  = Ok (ref_finish refAltSwap a
          (ref_locals_of (rd gt (2 * i)) (rd gt (2 * i + 1)))).
Proof.
  intros H0 H1. unfold ref_sample. rewrite seqZ_two.
  replace (2 * i) with (i * 2 + 0) in * by lia.
  replace (i * 2 + 0 + 1) with (i * 2 + 1) in * by lia.
  rewrite (ref_alleles_ok (fun j => rd gt (i * 2 + j))) by assumption.
  reflexivity.
Qed.

Lemma ref_sample_inv gt refAltSwap a i a' :
  ref_sample 2 gt refAltSwap a i = Ok a' ->
  rd gt (2 * i) <> bcf_int32_vector_end
  /\ rd gt (2 * i + 1) <> bcf_int32_vector_end.
Proof.
  unfold ref_sample. rewrite seqZ_two. intros H.
  destruct (for_each _ _ _) as [l|e] eqn:E; [|discriminate].
  apply ref_alleles_inv in E.
  replace (2 * i) with (i * 2 + 0) by lia.
  replace (i * 2 + 0 + 1) with (i * 2 + 1) by lia. exact E.
Qed.

(** The sample loop, when it exits nowhere, is a fold of [ref_finish]
    over the calls. *)
Lemma ref_loop_ok gt refAltSwap ix a :
  Forall (fun i => rd gt (2 * i) <> bcf_int32_vector_end
                   /\ rd gt (2 * i + 1) <> bcf_int32_vector_end) ix ->
  for_each (ref_sample 2 gt refAltSwap) ix a
  = Ok (fold_left (ref_finish refAltSwap) (ref_calls gt ix) a).
Proof.
  intros H. revert a. induction H as [|i ix [H0 H1] _ IH]; intros a.
  - reflexivity.
  - simpl. rewrite ref_sample_ok by assumption. simpl. apply IH.
Qed.

Lemma ref_loop_inv gt refAltSwap ix a r :
  for_each (ref_sample 2 gt refAltSwap) ix a = Ok r ->
  Forall (fun i => rd gt (2 * i) <> bcf_int32_vector_end
                   /\ rd gt (2 * i + 1) <> bcf_int32_vector_end) ix.
Proof.
  revert a. induction ix as [|i ix IH]; intros a H; [constructor|].
  simpl in H. destruct (ref_sample 2 gt refAltSwap a i) as [a'|e] eqn:E;
    [|discriminate].
  constructor; [eapply ref_sample_inv; exact E | eapply IH; exact H].
Qed.

(** [process_ref_genotypes] succeeds exactly as the fold does. *)
Lemma process_ref_inv nsmpl ngt gt refAltSwap hapsRef w r :
  process_ref_genotypes nsmpl ngt gt refAltSwap hapsRef w = Ok r ->
  ngt = 2 * nsmpl
  /\ r = fold_left (ref_finish refAltSwap) (ref_calls gt (seqZ 0 nsmpl))
           (RefAcc hapsRef 0 0 w).
Proof.
  unfold process_ref_genotypes.
  destruct (Z.eqb_spec ngt (2 * nsmpl)) as [->|]; [|discriminate].
  simpl negb. cbv iota. intros H. split; [reflexivity|].
  destruct (Z_lt_le_dec 0 nsmpl) as [Hn|Hn].
  - rewrite quot_two_times in H by lia.
    pose proof (ref_loop_inv _ _ _ _ _ H) as Hall.
    rewrite ref_loop_ok in H by assumption. congruence.
  - rewrite (seqZ_nil 0 nsmpl) in * by lia. simpl in *. congruence.
Qed.

Lemma process_ref_ok nsmpl gt refAltSwap hapsRef w :
  0 < nsmpl ->
  (forall k, 0 <= k < 2 * nsmpl -> rd gt k <> bcf_int32_vector_end) ->
  process_ref_genotypes nsmpl (2 * nsmpl) gt refAltSwap hapsRef w
  = Ok (fold_left (ref_finish refAltSwap) (ref_calls gt (seqZ 0 nsmpl))
          (RefAcc hapsRef 0 0 w)).
Proof.
  intros Hn Hok. unfold process_ref_genotypes.
  rewrite Z.eqb_refl. simpl negb. cbv iota.
  rewrite quot_two_times by lia. apply ref_loop_ok.
  apply Forall_forall. intros i Hi. apply elem_of_seqZ in Hi.
  split; apply Hok; lia.
Qed.

(** [ref_finish], field by field. *)
Lemma ref_finish_eq refAltSwap a l :
  ref_finish refAltSwap a l
  = RefAcc
      (ra_hapsRef a
         ++ (if refAltSwap
             then [negb (fst (ref_pair l (ra_w a)));
                   negb (snd (ref_pair l (ra_w a)))]
             else [fst (ref_pair l (ra_w a)); snd (ref_pair l (ra_w a))]))
      (ra_numMissing a + (if r_missing l then 1 else 0))
      (ra_numUnphased a
         + (if negb (r_missing l) && r_unphased l then 1 else 0))
      (if het_unphased l then mwc (ra_w a) else ra_w a).
Proof.
  destruct l as [h0 h1 ms up]. unfold ref_finish, ref_pair, het_unphased.
  simpl. rewrite land_1_odd.
  destruct ms, up, h0, h1, refAltSwap; simpl; rewrite ?Z.add_0_r;
    try reflexivity; destruct (Z.odd (mwc (ra_w a))); reflexivity.
Qed.

(** The generator state after a run of calls: one step per call to
    which the rule applies. *)
Lemma ref_fold_w refAltSwap ls a :
  ra_w (fold_left (ref_finish refAltSwap) ls a)
  = Nat.iter (length (List.filter het_unphased ls)) mwc (ra_w a).
Proof.
  revert a. induction ls as [|l ls IH]; intros a; [reflexivity|].
  simpl fold_left. rewrite IH, ref_finish_eq. simpl.
  destruct (het_unphased l); simpl; [|reflexivity].
  rewrite <- Nat.iter_succ_r. reflexivity.
Qed.

(** Inverted and plain encodings of the same calls from the same
    generator state. *)
Lemma ref_fold_complement ls : forall a0 a1 h bits,
  ra_hapsRef a0 = h ++ bits -> ra_hapsRef a1 = h ++ map negb bits ->
  ra_numMissing a1 = ra_numMissing a0 ->
  ra_numUnphased a1 = ra_numUnphased a0 ->
  ra_w a1 = ra_w a0 ->
  exists bits',
    ra_hapsRef (fold_left (ref_finish false) ls a0) = h ++ bits'
    /\ ra_hapsRef (fold_left (ref_finish true) ls a1) = h ++ map negb bits'
    /\ length bits' = (length bits + 2 * length ls)%nat
    /\ ra_numMissing (fold_left (ref_finish true) ls a1)
       = ra_numMissing (fold_left (ref_finish false) ls a0)
    /\ ra_numUnphased (fold_left (ref_finish true) ls a1)
       = ra_numUnphased (fold_left (ref_finish false) ls a0)
    /\ ra_w (fold_left (ref_finish true) ls a1)
       = ra_w (fold_left (ref_finish false) ls a0).
Proof.
  induction ls as [|l ls IH]; intros a0 a1 h bits H0 H1 Hm Hu Hw.
  - exists bits. simpl. rewrite Nat.add_0_r. repeat split; auto.
  - simpl fold_left.
    destruct (IH (ref_finish false a0 l) (ref_finish true a1 l) h
                (bits ++ [fst (ref_pair l (ra_w a0)); snd (ref_pair l (ra_w a0))]))
      as [bits' (E0 & E1 & El & Em & Eu & Ew)].
    + rewrite ref_finish_eq. simpl. rewrite H0, <- app_assoc. reflexivity.
    + rewrite ref_finish_eq. simpl.
      rewrite H1, Hw, map_app, <- app_assoc. reflexivity.
    + rewrite !ref_finish_eq. simpl. lia.
    + rewrite !ref_finish_eq. simpl. lia.
    + rewrite !ref_finish_eq. simpl. rewrite Hw. reflexivity.
    + exists bits'. repeat split; try assumption.
      rewrite El, length_app. simpl. lia.
Qed.

Lemma process_ref_any_swap nsmpl ngt gt swap1 swap2 hapsRef w r :
  process_ref_genotypes nsmpl ngt gt swap1 hapsRef w = Ok r ->
  process_ref_genotypes nsmpl ngt gt swap2 hapsRef w
  = Ok (fold_left (ref_finish swap2) (ref_calls gt (seqZ 0 nsmpl))
          (RefAcc hapsRef 0 0 w)).
Proof.
  unfold process_ref_genotypes.
  destruct (Z.eqb_spec ngt (2 * nsmpl)) as [->|]; [|discriminate].
  simpl negb. cbv iota. intros H.
  destruct (Z_lt_le_dec 0 nsmpl) as [Hn|Hn].
  - rewrite quot_two_times in * by lia.
    apply ref_loop_ok. eapply ref_loop_inv. exact H.
  - rewrite (seqZ_nil 0 nsmpl) in * by lia. reflexivity.
Qed.

(** C6, amended. For a reference sample whose call is not missing and
    whose second allele is not marked phased, the sample loop exits
    nowhere and increments the unphased counter by one whether or not
    the two alleles differ; the missing counter is unchanged; and the
    generator state advances exactly when the two haplotype bits
    differ. *)
Theorem C6_unphased_counter (gt : list Z) (refAltSwap : bool) (a : ref_acc)
    (i : Z) :
  rd gt (2 * i) <> bcf_int32_vector_end ->
  rd gt (2 * i + 1) <> bcf_int32_vector_end ->
  bcf_gt_is_missing (rd gt (2 * i)) = false ->
  bcf_gt_is_missing (rd gt (2 * i + 1)) = false ->
  bcf_gt_is_phased (rd gt (2 * i + 1)) = false ->
  exists a',
    ref_sample 2 gt refAltSwap a i = Ok a'
    /\ ra_numUnphased a' = ra_numUnphased a + 1
    /\ ra_numMissing a' = ra_numMissing a
    /\ ra_w a'
       = if eqb (1 <=? bcf_gt_allele (rd gt (2 * i)))
                (1 <=? bcf_gt_allele (rd gt (2 * i + 1)))
         then ra_w a else mwc (ra_w a).
Proof.
  intros H0 H1 M0 M1 Ph. eexists. split; [apply ref_sample_ok; assumption|].
  rewrite ref_finish_eq. unfold het_unphased, ref_locals_of.
  rewrite M0, M1, Ph. simpl.
  destruct (eqb _ _); simpl; repeat split; lia.
Qed.

(** C8. At a biallelic site whose target alleles are the reference
    alleles in reverse order, the reconciliation block sets
    [refAltSwap]; and whenever [process_ref_genotypes] returns with
    [refAltSwap] set, it also returns with it clear from the same
    generator state, the bits appended with the flag set are the
    complements, bit by bit, of the bits appended with it clear, two
    per sample, and both runs leave the same generator state and
    counters.  A call with a missing allele appends (true, true) with
    the flag set and (false, false) with it clear. *)
Theorem C8_swap_complement (ref tgt : bcf1) (c : counters) (nsmpl : Z)
    (hapsRef : list bool) (w : Z) (r1 : ref_acc) :
  n_allele ref = 2 -> n_allele tgt = 2 ->
  allele_at ref 0 <> allele_at ref 1 ->
  allele_at tgt 0 = allele_at ref 1 ->
  allele_at tgt 1 = allele_at ref 0 ->
  process_ref_genotypes nsmpl (gt_n ref) (gt_arr ref) true hapsRef w = Ok r1 ->
  fst (reconcile true ref tgt c) = Some true
  /\ (exists r0 bits,
        process_ref_genotypes nsmpl (gt_n ref) (gt_arr ref) false hapsRef w
        = Ok r0
        /\ ra_hapsRef r0 = hapsRef ++ bits
        /\ ra_hapsRef r1 = hapsRef ++ map negb bits
        /\ length bits = (2 * Z.to_nat nsmpl)%nat
        /\ ra_numMissing r1 = ra_numMissing r0
        /\ ra_numUnphased r1 = ra_numUnphased r0
        /\ ra_w r1 = ra_w r0)
  /\ (forall a l, r_missing l = true ->
        ra_hapsRef (ref_finish true a l) = ra_hapsRef a ++ [true; true]
        /\ ra_hapsRef (ref_finish false a l) = ra_hapsRef a ++ [false; false]).
Proof.
  intros Hr Ht Hne E0 E1 Hrun. split; [|split].
  - unfold reconcile, streq. rewrite Hr, Ht, E0, E1. simpl.
    rewrite (bool_decide_eq_false_2 (allele_at ref 1 = allele_at ref 0))
      by congruence.
    simpl. rewrite !bool_decide_eq_true_2 by reflexivity. reflexivity.
  - pose proof (process_ref_any_swap _ _ _ _ false _ _ _ Hrun) as H0.
    apply process_ref_inv in Hrun. destruct Hrun as [_ ->].
    destruct (ref_fold_complement (ref_calls (gt_arr ref) (seqZ 0 nsmpl))
                (RefAcc hapsRef 0 0 w) (RefAcc hapsRef 0 0 w) hapsRef [])
      as [bits (B0 & B1 & Bl & Bm & Bu & Bw)];
      try reflexivity; try (simpl; rewrite app_nil_r; reflexivity).
    eexists. exists bits. split; [exact H0|].
    repeat split; try assumption.
    rewrite Bl. unfold ref_calls. rewrite length_map, length_seqZ. simpl. lia.
  - intros a l Hm. rewrite !ref_finish_eq. unfold ref_pair. rewrite Hm.
    simpl. split; reflexivity.
Qed.

End RefBits.

(** One reference sample, [0/0] with the second allele unphased: the
    alleles are equal, the counter is incremented all the same, and the
    generator state is untouched. *)
Lemma C6_counterexample :
  let gt := [bcf_gt_unphased 0; bcf_gt_unphased 0] in
  ~ (forall r,
       process_ref_genotypes (HTS := htslib_vcf) 1 2 gt false [] w_init = Ok r ->
       (ra_numUnphased r = 1
        <-> bcf_gt_allele (BcfGt := htslib_vcf) (rd gt 0)
            <> bcf_gt_allele (BcfGt := htslib_vcf) (rd gt 1))).
Proof.
  intros gt H. specialize (H _ eq_refl). destruct H as [H _].
  apply H; reflexivity.
Qed.

Lemma C6_unphased_counter_witness :
  exists a',
    ref_sample (HTS := htslib_vcf) 2
      [bcf_gt_unphased 0; bcf_gt_unphased 0; bcf_gt_unphased 1; bcf_gt_unphased 0]
      false (RefAcc [] 0 0 w_init) 1 = Ok a'
    /\ ra_numUnphased a' = 0 + 1
    /\ ra_numMissing a' = 0
    /\ ra_w a' = mwc w_init.
Proof.
  apply (C6_unphased_counter (HTS := htslib_vcf)
    [bcf_gt_unphased 0; bcf_gt_unphased 0; bcf_gt_unphased 1; bcf_gt_unphased 0]
    false (RefAcc [] 0 0 w_init) 1); first [discriminate | reflexivity].
Defined.

Lemma C8_swap_complement_witness :
  let ref := Bcf1 0 99 2 ["A"; "G"]%string
               [bcf_gt_unphased 1; bcf_gt_unphased 0; bcf_gt_missing; bcf_gt_phased 1]
               4 in
  let tgt := Bcf1 0 99 2 ["G"; "A"]%string [bcf_gt_unphased 0; bcf_gt_unphased 1] 2 in
  fst (reconcile true ref tgt counters_init) = Some true
  /\ exists r0 bits,
       process_ref_genotypes (HTS := htslib_vcf) 2 (gt_n ref) (gt_arr ref)
         false [] w_init = Ok r0
       /\ ra_hapsRef r0 = [] ++ bits
       /\ [false; true; true; true] = [] ++ map negb bits.
Proof.
  intros ref tgt.
  destruct (C8_swap_complement (HTS := htslib_vcf) ref tgt counters_init 2 []
              w_init (RefAcc [false; true; true; true] 1 1 (mwc w_init)))
    as [Hrec [[r0 [bits (H0 & H1 & H2 & _)]] _]];
    try reflexivity; try discriminate.
  split; [exact Hrec|]. exists r0, bits. auto.
Defined.

(** ** The reconciliation block *)

(** C7. With allele-swap reconciliation enabled, the reconciliation
    block counts a reconciliation error and skips the line when either
    side does not have exactly 2 alleles; otherwise it lets the line
    proceed with [refAltSwap] clear when both allele strings match, lets
    it proceed with [refAltSwap] set and counts a swap when they match in
    reverse order, and counts a reconciliation error and skips the line
    in every other case.  Each count is one increment of its [uint]
    tally and touches no other tally.  In the loop body, for a joined
    line whose target has exactly 2 alleles, a skip leaves everything
    but the tallies as it was and goes to the next line, and a line that
    proceeds goes on to the chromosome check and the encoders with the
    [refAltSwap] the block chose. *)
Theorem C7_reconcile (ref tgt : bcf1) (c : counters) :
  (n_allele tgt <> 2 \/ n_allele ref <> 2 ->
   reconcile true ref tgt c = (None, inc_MrefAltError c))
  /\ (n_allele tgt = 2 -> n_allele ref = 2 ->
      allele_at tgt 0 = allele_at ref 0 -> allele_at tgt 1 = allele_at ref 1 ->
      reconcile true ref tgt c = (Some false, c))
  /\ (n_allele tgt = 2 -> n_allele ref = 2 ->
      ~ (allele_at tgt 0 = allele_at ref 0 /\ allele_at tgt 1 = allele_at ref 1) ->
      allele_at tgt 0 = allele_at ref 1 -> allele_at tgt 1 = allele_at ref 0 ->
      reconcile true ref tgt c = (Some true, inc_numRefAltSwaps c))
  /\ (n_allele tgt = 2 -> n_allele ref = 2 ->
      ~ (allele_at tgt 0 = allele_at ref 0 /\ allele_at tgt 1 = allele_at ref 1) ->
      ~ (allele_at tgt 0 = allele_at ref 1 /\ allele_at tgt 1 = allele_at ref 0) ->
      reconcile true ref tgt c = (None, inc_MrefAltError c))
  /\ (MrefAltError (inc_MrefAltError c) = uint32 (MrefAltError c + 1)
      /\ numRefAltSwaps (inc_MrefAltError c) = numRefAltSwaps c
      /\ numRefAltSwaps (inc_numRefAltSwaps c) = uint32 (numRefAltSwaps c + 1)
      /\ MrefAltError (inc_numRefAltSwaps c) = MrefAltError c)
  /\ (forall (HTS : BcfGt) sscanf_d ref_hdr tgt_hdr s,
        n_allele tgt = 2 ->
        sync_line sscanf_d ref_hdr tgt_hdr true s (Some ref, Some tgt)
        = match reconcile true ref tgt (s_cnt s) with
          | (None, c') => Ok (Next (with_cnt s c'))
          | (Some refAltSwap, c') =>
            s1 <~ learn_chrom sscanf_d tgt_hdr tgt (with_cnt s c') ;;
            if negb (s_prev_rid s1 =? rid tgt) then Ok (Break s1)
            else s2 <~ accept ref_hdr tgt_hdr refAltSwap ref tgt s1 ;;
                 Ok (Next s2)
          end).
Proof.
  unfold reconcile, streq. repeat split;
    try (intros HTS sscanf_d ref_hdr tgt_hdr s Ht; unfold sync_line; simpl;
         rewrite Ht; reflexivity).
  - intros [H|H].
    + destruct (Z.eqb_spec (n_allele tgt) 2); [contradiction|]. reflexivity.
    + destruct (Z.eqb_spec (n_allele ref) 2); [contradiction|].
      rewrite orb_true_r. reflexivity.
  - intros -> -> E0 E1. simpl.
    rewrite !bool_decide_eq_true_2 by assumption. reflexivity.
  - intros -> -> Hne E0 E1. simpl.
    destruct (bool_decide_reflect (allele_at tgt 0 = allele_at ref 0));
      destruct (bool_decide_reflect (allele_at tgt 1 = allele_at ref 1));
      simpl; try tauto;
      rewrite !bool_decide_eq_true_2 by assumption; reflexivity.
  - intros -> -> Hne Hnr. simpl.
    destruct (bool_decide_reflect (allele_at tgt 0 = allele_at ref 0));
      destruct (bool_decide_reflect (allele_at tgt 1 = allele_at ref 1));
      destruct (bool_decide_reflect (allele_at tgt 0 = allele_at ref 1));
      destruct (bool_decide_reflect (allele_at tgt 1 = allele_at ref 0));
      simpl; tauto.
  - destruct c; reflexivity.
  - destruct c; reflexivity.
  - destruct c; reflexivity.
  - destruct c; reflexivity.
Qed.

Lemma C7_reconcile_witness :
  let ref := Bcf1 0 99 2 ["A"; "G"]%string [] 0 in
  let swapped := Bcf1 0 99 2 ["G"; "A"]%string [] 0 in
  let other := Bcf1 0 99 2 ["A"; "T"]%string [] 0 in
  let three := Bcf1 0 99 3 ["A"; "G"; "T"]%string [] 0 in
  reconcile true three ref counters_init
  = (None, Counters 0 0 0 0 0 0 1 0 0 0 0)
  /\ reconcile true ref ref counters_init = (Some false, counters_init)
  /\ reconcile true ref swapped counters_init
     = (Some true, Counters 0 0 0 0 0 0 0 1 0 0 0)
  /\ reconcile true ref other counters_init
     = (None, Counters 0 0 0 0 0 0 1 0 0 0 0).
Proof.
  intros ref swapped other three.
  pose proof (C7_reconcile three ref counters_init) as (H1 & _).
  pose proof (C7_reconcile ref ref counters_init) as (_ & H2 & _).
  pose proof (C7_reconcile ref swapped counters_init) as (_ & _ & H3 & _).
  pose proof (C7_reconcile ref other counters_init) as (_ & _ & _ & H4 & _).
  split; [apply H1; right; discriminate|].
  split; [apply H2; reflexivity|].
  split; [apply H3; try reflexivity; intros [E _]; discriminate|].
  apply H4; try reflexivity; intros [_ E]; discriminate.
Defined.

(** ** Invariants of the joint iteration *)

Section SyncProps.
Context {HTS : BcfGt}.
Variable sscanf_d : string -> option Z.
Variables ref_hdr tgt_hdr : bcf_hdr.

Lemma sync_inv_init chrom : sync_inv (sync_init chrom).
Proof.
  constructor; simpl; try reflexivity; try constructor; try lia;
    try congruence.
  exists 0%nat. reflexivity.
Qed.

Lemma sync_inv_with_cnt s c : sync_inv s -> sync_inv (with_cnt s c).
Proof. intros [H1 H2 H3 H4 H5]. constructor; simpl; assumption. Qed.

Lemma learn_chrom_inv tgt s s1 :
  sync_inv s -> learn_chrom sscanf_d tgt_hdr tgt s = Ok s1 ->
  sync_inv s1 /\ s_chrom s1 <> 0.
Proof.
  intros [H1 H2 H3 H4 H5]. unfold learn_chrom.
  destruct (Z.ltb_spec (s_prev_rid s) 0) as [Hneg|Hpos].
  - destruct (Z.eqb_spec (s_chrom s) 0) as [Hz|Hnz].
    + set (chrom := match sscanf_d _ with Some c => c | None => s_chrom s end).
      destruct (Z.leb_spec 1 chrom); simpl; [|discriminate].
      destruct (Z.leb_spec chrom 22); simpl; [|discriminate].
      intros E. injection E as <-.
      assert (Hnil : s_chrBps s = []).
      { destruct (s_chrBps s) eqn:El; [reflexivity|].
        exfalso. apply H4; [discriminate|assumption]. }
      split; [|simpl; lia].
      constructor; simpl; try assumption; try lia.
      rewrite Hnil. constructor.
    + intros E. injection E as <-. split; [|assumption].
      constructor; simpl; auto.
  - intros E. injection E as <-. split; [|apply H3; lia].
    constructor; assumption.
Qed.

Lemma accept_inv refAltSwap ref tgt s s2 :
  sync_inv s -> s_chrom s <> 0 ->
  accept ref_hdr tgt_hdr refAltSwap ref tgt s = Ok s2 ->
  sync_inv s2.
Proof.
  intros [H1 H2 H3 H4 [k H5]] Hc. unfold accept.
  destruct (process_ref_genotypes _ _ _ _ _ _) as [r|] eqn:Er; [|discriminate].
  destruct (process_target_genotypes _ _ _ _) as [t|] eqn:Et; [|discriminate].
  simpl. intros E. injection E as <-.
  constructor; simpl; try assumption; try (intros; assumption).
  - rewrite H1, length_app. simpl. unfold uint64.
    rewrite Zplus_mod_idemp_l. f_equal. lia.
  - apply Forall_app. split; [assumption|]. constructor; [reflexivity|constructor].
  - apply process_ref_inv in Er. destruct Er as [_ ->].
    rewrite ref_fold_w. simpl. rewrite H5.
    eexists. rewrite <- Nat.iter_add. reflexivity.
Qed.

Lemma sync_line_inv allowRefAltSwap s ln f :
  sync_inv s ->
  sync_line sscanf_d ref_hdr tgt_hdr allowRefAltSwap s ln = Ok f ->
  sync_inv (match f with Next s' => s' | Break s' => s' end).
Proof.
  intros Hs. unfold sync_line.
  destruct (fst ln) as [ref|];
    [|intros E; injection E as <-; apply sync_inv_with_cnt; assumption].
  destruct (snd ln) as [tgt|];
    [|intros E; injection E as <-; apply sync_inv_with_cnt; assumption].
  destruct (2 <? n_allele tgt);
    [intros E; injection E as <-; apply sync_inv_with_cnt; assumption|].
  destruct (n_allele tgt <? 2);
    [intros E; injection E as <-; apply sync_inv_with_cnt; assumption|].
  destruct (reconcile allowRefAltSwap ref tgt (s_cnt s)) as [[swap|] c];
    [|intros E; injection E as <-; apply sync_inv_with_cnt; assumption].
  destruct (learn_chrom sscanf_d tgt_hdr tgt (with_cnt s c)) as [s1|] eqn:El;
    [|discriminate].
  apply learn_chrom_inv in El; [|apply sync_inv_with_cnt; assumption].
  destruct El as [Hs1 Hc1]. simpl.
  destruct (negb (s_prev_rid s1 =? rid tgt));
    [intros E; injection E as <-; assumption|].
  destruct (accept ref_hdr tgt_hdr swap ref tgt s1) as [s2|] eqn:Ea;
    [|discriminate].
  simpl. intros E. injection E as <-.
  eapply accept_inv; eassumption.
Qed.

Lemma sync_loop_inv allowRefAltSwap lines : forall s s',
  sync_inv s ->
  sync_loop sscanf_d ref_hdr tgt_hdr allowRefAltSwap lines s = Ok s' ->
  sync_inv s'.
Proof.
  induction lines as [|ln rest IH]; intros s s' Hs; simpl.
  - intros E. injection E as <-. assumption.
  - destruct (sync_line _ _ _ _ s ln) as [f|] eqn:El; [|discriminate].
    apply sync_line_inv in El; [|assumption].
    destruct f as [s1|s1]; simpl.
    + apply IH. assumption.
    + intros E. injection E as <-. assumption.
Qed.

End SyncProps.

(** ** Phase randomization *)

(** The flag of the reconciliation block does not depend on the
    tallies. *)
Lemma reconcile_flag allowRefAltSwap ref tgt c c' :
  fst (reconcile allowRefAltSwap ref tgt c)
  = fst (reconcile allowRefAltSwap ref tgt c').
Proof.
  unfold reconcile. destruct allowRefAltSwap; [|reflexivity].
  destruct (negb (n_allele tgt =? 2) || negb (n_allele ref =? 2));
    [reflexivity|].
  destruct (streq _ _ && streq _ _); [reflexivity|].
  destruct (streq _ _ && streq _ _); reflexivity.
Qed.

Lemma randomize_app xs ys w :
  randomize (xs ++ ys) w
  = (fst (randomize xs w) ++ fst (randomize ys (snd (randomize xs w))),
     snd (randomize ys (snd (randomize xs w)))).
Proof.
  revert w. induction xs as [|[swap l] xs IH]; intros w.
  - simpl. destruct (randomize ys w); reflexivity.
  - simpl. rewrite IH. reflexivity.
Qed.

(** The state left by the rule: one step per call to which it
    applies. *)
Lemma randomize_w calls w :
  snd (randomize calls w) = Nat.iter (het_count calls) mwc w.
Proof.
  revert w. induction calls as [|[swap l] calls IH]; intros w; [reflexivity|].
  simpl. rewrite IH. unfold het_count. simpl.
  destruct (het_unphased l); simpl; [|reflexivity].
  rewrite <- Nat.iter_succ_r. reflexivity.
Qed.

(** The sample loop of [process_ref_genotypes] follows the rule from
    the state it is given. *)
Lemma ref_fold_randomize swap ls : forall a,
  ra_hapsRef (fold_left (ref_finish swap) ls a)
  = ra_hapsRef a ++ fst (randomize (map (pair swap) ls) (ra_w a))
  /\ ra_w (fold_left (ref_finish swap) ls a)
     = snd (randomize (map (pair swap) ls) (ra_w a)).
Proof.
  induction ls as [|l ls IH]; intros a.
  - simpl. rewrite app_nil_r. auto.
  - simpl fold_left. destruct (IH (ref_finish swap a l)) as [Hh Hw].
    rewrite Hh, Hw, ref_finish_eq. simpl.
    split; [|reflexivity].
    rewrite <- app_assoc. destruct swap; reflexivity.
Qed.

Section PhaseRun.
Context {HTS : BcfGt}.
Variable sscanf_d : string -> option Z.
Variables ref_hdr tgt_hdr : bcf_hdr.

(** [learn_chrom] leaves the vectors, the generator state and the lines
    written alone. *)
Lemma learn_chrom_keeps tgt s s1 :
  learn_chrom sscanf_d tgt_hdr tgt s = Ok s1 ->
  s_hapsRef s1 = s_hapsRef s /\ s_w s1 = s_w s /\ s_out s1 = s_out s
  /\ s_chrBps s1 = s_chrBps s.
Proof.
  unfold learn_chrom. destruct (s_prev_rid s <? 0).
  - destruct (s_chrom s =? 0).
    + destruct (negb _); [discriminate|].
      intros E. injection E as <-. auto.
    + intros E. injection E as <-. auto.
  - intros E. injection E as <-. auto.
Qed.

(** An accepted line pushes the bits the rule gives for its calls,
    from the state the previous lines left, and leaves the state the
    rule leaves. *)
Lemma accept_randomize refAltSwap ref tgt s s2 :
  accept ref_hdr tgt_hdr refAltSwap ref tgt s = Ok s2 ->
  s_hapsRef s2
  = s_hapsRef s
    ++ fst (randomize (record_calls ref_hdr (refAltSwap, ref, tgt)) (s_w s))
  /\ s_w s2 = snd (randomize (record_calls ref_hdr (refAltSwap, ref, tgt)) (s_w s))
  /\ s_out s2 = s_out s ++ [tgt].
Proof.
  unfold accept.
  destruct (process_ref_genotypes _ _ _ _ _ _) as [r|] eqn:Er; [|discriminate].
  destruct (process_target_genotypes _ _ _ _) as [t|]; [|discriminate].
  simpl. intros E. injection E as <-. simpl.
  apply process_ref_inv in Er. destruct Er as [_ ->].
  destruct (ref_fold_randomize refAltSwap
              (ref_calls (gt_arr ref) (seqZ 0 (Nref ref_hdr)))
              (RefAcc (s_hapsRef s) 0 0 (s_w s))) as [Hh Hw].
  unfold record_calls. simpl in *. auto.
Qed.

(** One iteration: a line that is gated and not the cause of a break is
    accepted, and no other line touches the vector or the state. *)
Lemma sync_line_randomize allowRefAltSwap s ln f :
  sync_line sscanf_d ref_hdr tgt_hdr allowRefAltSwap s ln = Ok f ->
  match f with
  | Next s' =>
    let x := gated allowRefAltSwap ln in
    let calls := match x with Some x => record_calls ref_hdr x | None => [] end in
    s_hapsRef s' = s_hapsRef s ++ fst (randomize calls (s_w s))
    /\ s_w s' = snd (randomize calls (s_w s))
    /\ s_out s' = s_out s ++ match x with Some x => [snd x] | None => [] end
  | Break s' =>
    s_hapsRef s' = s_hapsRef s /\ s_w s' = s_w s /\ s_out s' = s_out s
  end.
Proof.
  unfold sync_line, gated. destruct ln as [[ref|] [tgt|]]; simpl;
    try (intros E; injection E as <-; simpl; rewrite !app_nil_r; auto).
  destruct (2 <? n_allele tgt);
    [intros E; injection E as <-; simpl; rewrite !app_nil_r; auto|].
  destruct (n_allele tgt <? 2);
    [intros E; injection E as <-; simpl; rewrite !app_nil_r; auto|].
  simpl. rewrite (reconcile_flag _ _ _ counters_init (s_cnt s)).
  destruct (reconcile allowRefAltSwap ref tgt (s_cnt s)) as [[swap|] c];
    [|intros E; injection E as <-; simpl; rewrite !app_nil_r; auto].
  destruct (learn_chrom sscanf_d tgt_hdr tgt (with_cnt s c)) as [s1|] eqn:El;
    [|discriminate].
  apply learn_chrom_keeps in El. simpl in El.
  destruct El as (Eh & Ew & Eo & _).
  simpl. destruct (negb (s_prev_rid s1 =? rid tgt));
    [intros E; injection E as <-; auto|].
  destruct (accept ref_hdr tgt_hdr swap ref tgt s1) as [s2|] eqn:Ea;
    [|discriminate].
  simpl. intros E. injection E as <-.
  apply accept_randomize in Ea. rewrite Eh, Ew, Eo in Ea. exact Ea.
Qed.

(** The whole loop: the vector grows by the bits the rule gives for
    the calls of the accepted lines taken as one sequence, and the
    lines written are the accepted lines. *)
Lemma sync_loop_randomize allowRefAltSwap lines : forall s s',
  sync_loop sscanf_d ref_hdr tgt_hdr allowRefAltSwap lines s = Ok s' ->
  let acc := accepted sscanf_d ref_hdr tgt_hdr allowRefAltSwap lines s in
  let calls := flat_map (record_calls ref_hdr) acc in
  s_hapsRef s' = s_hapsRef s ++ fst (randomize calls (s_w s))
  /\ s_w s' = snd (randomize calls (s_w s))
  /\ s_out s' = s_out s ++ map snd acc.
Proof.
  induction lines as [|ln rest IH]; intros s s'; simpl.
  - intros E. injection E as <-. rewrite !app_nil_r. auto.
  - destruct (sync_line _ _ _ _ s ln) as [[s1|s1]|] eqn:El; [| |discriminate].
    + apply sync_line_randomize in El. cbv zeta in El.
      destruct El as (Eh & Ew & Eo). intros Hrest.
      apply IH in Hrest. cbv zeta in Hrest. destruct Hrest as (Rh & Rw & Ro).
      destruct (gated allowRefAltSwap ln) as [x|].
      * simpl. rewrite randomize_app. simpl.
        rewrite Rh, Rw, Ro, Eh, Ew, Eo, <- !app_assoc. auto.
      * simpl in Eh, Ew, Eo. rewrite !app_nil_r in *.
        rewrite Rh, Rw, Ro, Eh, Ew, Eo. auto.
    + apply sync_line_randomize in El. destruct El as (Eh & Ew & Eo).
      intros E. injection E as <-. simpl. rewrite !app_nil_r. auto.
Qed.

End PhaseRun.

(** C4. The generator state of [processVcfs] starts at 521288629.  For
    a call to which the rule applies (not missing, second allele not
    phased, haplotype bits different) the state becomes
    [18000 * (w & 0xFFFF) + (w >> 16)], which never leaves 32 bits, and
    the two haplotype bits are pushed in swapped order exactly when the
    new state is odd; for any other call the state is unchanged and the
    bits are pushed in order.  The state after a record is the iterate
    of the step by the number of such calls in it.  Over a run, the
    lines written are the accepted lines, and the haplotype vector and
    the final state are what the rule gives when one state, starting at
    the seed, is threaded through the calls of all accepted lines taken
    as one sequence: the state a record leaves is the state the next
    record starts from, and the final state is the seed stepped once
    per such call of the run.  Two runs with the same call sequence
    hence fill the same vector and leave the same state. *)
Theorem C4_phase_randomization {HTS : BcfGt} :
  (forall chrom, s_w (sync_init chrom) = 521288629)
  /\ (forall refAltSwap a l,
        0 <= ra_w a < 2 ^ 32 ->
        let a' := ref_finish refAltSwap a l in
        let flip := fun b : bool => if refAltSwap then negb b else b in
        if het_unphased l
        then ra_w a' = 18000 * Z.land (ra_w a) 65535 + Z.shiftr (ra_w a) 16
             /\ 0 <= ra_w a' < 2 ^ 32
             /\ ra_hapsRef a'
                = ra_hapsRef a
                  ++ (if Z.odd (ra_w a')
                      then [flip (haps1 l); flip (haps0 l)]
                      else [flip (haps0 l); flip (haps1 l)])
        else ra_w a' = ra_w a
             /\ ra_hapsRef a'
                = ra_hapsRef a
                  ++ (if r_missing l then [flip false; flip false]
                      else [flip (haps0 l); flip (haps1 l)]))
  /\ (forall nsmpl ngt gt refAltSwap hapsRef w r,
        process_ref_genotypes nsmpl ngt gt refAltSwap hapsRef w = Ok r ->
        ra_w r
        = Nat.iter
            (length (List.filter het_unphased (ref_calls gt (seqZ 0 nsmpl))))
            mwc w)
  /\ (forall sscanf_d ref_hdr tgt_hdr allowRefAltSwap lines chrom s,
        sync_loop sscanf_d ref_hdr tgt_hdr allowRefAltSwap lines
          (sync_init chrom) = Ok s ->
        let calls :=
          run_calls sscanf_d ref_hdr tgt_hdr allowRefAltSwap lines chrom in
        s_out s
        = map snd (accepted sscanf_d ref_hdr tgt_hdr allowRefAltSwap lines
                     (sync_init chrom))
        /\ s_hapsRef s = fst (randomize calls 521288629)
        /\ s_w s = snd (randomize calls 521288629)
        /\ s_w s = Nat.iter (het_count calls) mwc 521288629
        /\ 0 <= s_w s < 2 ^ 32)
  /\ (forall sscanf_d ref_hdr tgt_hdr allowRefAltSwap lines chrom s
             sscanf_d' ref_hdr' tgt_hdr' allowRefAltSwap' lines' chrom' s',
        sync_loop sscanf_d ref_hdr tgt_hdr allowRefAltSwap lines
          (sync_init chrom) = Ok s ->
        sync_loop sscanf_d' ref_hdr' tgt_hdr' allowRefAltSwap' lines'
          (sync_init chrom') = Ok s' ->
        run_calls sscanf_d ref_hdr tgt_hdr allowRefAltSwap lines chrom
        = run_calls sscanf_d' ref_hdr' tgt_hdr' allowRefAltSwap' lines' chrom' ->
        s_hapsRef s = s_hapsRef s' /\ s_w s = s_w s').
Proof.
  assert (Hrun : forall sscanf_d ref_hdr tgt_hdr allowRefAltSwap lines chrom s,
    sync_loop sscanf_d ref_hdr tgt_hdr allowRefAltSwap lines
      (sync_init chrom) = Ok s ->
    s_out s
    = map snd (accepted sscanf_d ref_hdr tgt_hdr allowRefAltSwap lines
                 (sync_init chrom))
    /\ s_hapsRef s
       = fst (randomize
                (run_calls sscanf_d ref_hdr tgt_hdr allowRefAltSwap lines chrom)
                w_init)
    /\ s_w s
       = snd (randomize
                (run_calls sscanf_d ref_hdr tgt_hdr allowRefAltSwap lines chrom)
                w_init)).
  { intros sscanf_d ref_hdr tgt_hdr allowRefAltSwap lines chrom s Hloop.
    apply sync_loop_randomize in Hloop. cbv zeta in Hloop.
    destruct Hloop as (Hh & Hw & Ho). auto. }
  split; [reflexivity|]. split; [|split; [|split]].
  - intros refAltSwap a l Hw a' flip. subst a'.
    rewrite ref_finish_eq. unfold ref_pair.
    destruct (mwc_exact _ Hw) as [Hm Hr]. rewrite <- Hm.
    destruct l as [h0 h1 ms up]. unfold het_unphased. simpl.
    destruct ms, up; simpl;
      try (split; [reflexivity|]; destruct refAltSwap; reflexivity).
    destruct (eqb h0 h1); simpl.
    + split; [reflexivity|]; destruct refAltSwap; reflexivity.
    + split; [reflexivity|]. split; [exact Hr|].
      destruct (Z.odd (mwc (ra_w a))), refAltSwap; reflexivity.
  - intros nsmpl ngt gt refAltSwap hapsRef w r Hr.
    apply process_ref_inv in Hr. destruct Hr as [_ ->].
    rewrite ref_fold_w. reflexivity.
  - intros sscanf_d ref_hdr tgt_hdr allowRefAltSwap lines chrom s Hloop calls.
    destruct (Hrun _ _ _ _ _ _ _ Hloop) as (Ho & Hh & Hw).
    fold calls in Hh, Hw. change 521288629 with w_init.
    split; [exact Ho|]. split; [exact Hh|]. split; [exact Hw|].
    rewrite Hw, randomize_w. split; [reflexivity|].
    apply mwc_iter_range. unfold w_init. lia.
  - intros sscanf_d ref_hdr tgt_hdr allowRefAltSwap lines chrom s
           sscanf_d' ref_hdr' tgt_hdr' allowRefAltSwap' lines' chrom' s'
           Hloop Hloop' Hcalls.
    destruct (Hrun _ _ _ _ _ _ _ Hloop) as (_ & Hh & Hw).
    destruct (Hrun _ _ _ _ _ _ _ Hloop') as (_ & Hh' & Hw').
    rewrite Hh, Hw, Hh', Hw', Hcalls. auto.
Qed.

(** The first call to which the rule applies in a run, [1/0]: the
    state after it is 275137954, which is even, so the bits are pushed
    in order.  In the run over four records with one such call each,
    every record starts from the state the one before left: the states
    are 275137954, 320872198, 142960896 and 483842181, the first odd
    one, so the call of the fourth record, and only that one, is pushed
    swapped. *)
Lemma C4_phase_randomization_witness :
  0 <= w_init < 2 ^ 32
  /\ ra_w (ref_finish false (RefAcc [] 0 0 w_init) (RefLocals true false false true))
     = 275137954
  /\ ra_hapsRef (ref_finish false (RefAcc [] 0 0 w_init)
                   (RefLocals true false false true))
     = [true; false]
  /\ exists s,
       sync_loop (HTS := htslib_vcf) ex_sscanf ex_hdr ex_hdr false
         ex_lines_unphased (sync_init 0) = Ok s
       /\ s_w s = 483842181
       /\ s_hapsRef s
          = [true; false; true; false; true; false; false; true].
Proof.
  assert (Hw : 0 <= w_init < 2 ^ 32) by (unfold w_init; lia).
  split; [exact Hw|].
  pose proof (C4_phase_randomization (HTS := htslib_vcf)) as (_ & H & _ & Hrun & _).
  specialize (H false (RefAcc [] 0 0 w_init) (RefLocals true false false true) Hw).
  cbv zeta in H.
  change (het_unphased (RefLocals true false false true)) with true in H.
  cbv iota in H. destruct H as (H1 & _ & H3).
  split; [rewrite H1; reflexivity|].
  split; [rewrite H3, H1; reflexivity|].
  destruct (sync_loop (HTS := htslib_vcf) ex_sscanf ex_hdr ex_hdr false
              ex_lines_unphased (sync_init 0)) as [s|e] eqn:E;
    [|vm_compute in E; discriminate].
  exists s. split; [reflexivity|].
  destruct (Hrun ex_sscanf ex_hdr ex_hdr false ex_lines_unphased 0 s E)
    as (_ & Hh & _ & Hk & _).
  split; [rewrite Hk; reflexivity | rewrite Hh; reflexivity].
Defined.

(** ** Binary64 comparisons and exact zeros *)

Lemma finite_proper (c : float) :
  PrimFloat.is_finite c = true -> proper (FloatOps.Prim2SF c).
Proof.
  unfold PrimFloat.is_finite, PrimFloat.is_nan, PrimFloat.is_infinity.
  rewrite !FloatAxioms.eqb_spec, FloatAxioms.abs_spec.
  destruct (FloatOps.Prim2SF c) as [s|s| |s m e]; simpl; try exact (fun _ => I).
  - destruct s; intros H; discriminate H.
  - intros H; discriminate H.
Qed.

Lemma SFleb_trans x y z :
  SpecFloat.SFleb x y = true -> SpecFloat.SFleb y z = true ->
  SpecFloat.SFleb x z = true.
Proof.
  unfold SpecFloat.SFleb.
  destruct x as [sx|sx| |sx mx ex], y as [sy|sy| |sy my ey],
           z as [sz|sz| |sz mz ez];
    simpl; try discriminate; try reflexivity;
    repeat match goal with b : bool |- _ => destruct b end;
    simpl; try discriminate; try reflexivity.
  all: fold_pos_compare.
  all: destruct (Z.compare_spec ex ey), (Z.compare_spec ey ez),
         (Z.compare_spec ex ez);
    try lia; try discriminate; try reflexivity.
  all: destruct (Pos.compare_spec mx my), (Pos.compare_spec my mz),
         (Pos.compare_spec mx mz);
    simpl; try lia; try discriminate; try reflexivity.
Qed.

Lemma SFleb_antisym x y :
  SpecFloat.SFleb x y = true -> SpecFloat.SFleb y x = true ->
  SpecFloat.SFeqb x y = true.
Proof.
  unfold SpecFloat.SFleb, SpecFloat.SFeqb.
  destruct x as [sx|sx| |sx mx ex], y as [sy|sy| |sy my ey];
    simpl; try discriminate; try reflexivity;
    repeat match goal with b : bool |- _ => destruct b end;
    simpl; try discriminate; try reflexivity.
  all: fold_pos_compare.
  all: destruct (Z.compare_spec ex ey), (Z.compare_spec ey ex);
    try lia; try discriminate; try reflexivity.
  all: destruct (Pos.compare_spec mx my), (Pos.compare_spec my mx);
    simpl; try lia; try discriminate; try reflexivity.
Qed.

Lemma SFeqb_leb x y :
  SpecFloat.SFeqb x y = true -> SpecFloat.SFleb x y = true.
Proof.
  unfold SpecFloat.SFleb, SpecFloat.SFeqb.
  destruct (SpecFloat.SFcompare x y) as [[| |]|]; try discriminate; reflexivity.
Qed.

Lemma SFleb_refl x : proper x -> SpecFloat.SFleb x x = true.
Proof.
  unfold SpecFloat.SFleb.
  destruct x as [s|s| |s m e]; simpl; try contradiction; try reflexivity.
  intros _. fold_pos_compare. rewrite Z.compare_refl, Pos.compare_refl.
  destruct s; reflexivity.
Qed.

(** The difference of two equal finite values is a zero. *)
Lemma SFsub_equal x y :
  proper x -> SpecFloat.SFeqb y x = true ->
  is_zero_sf (FloatAxioms.SF64sub y x).
Proof.
  unfold SpecFloat.SFeqb, FloatAxioms.SF64sub.
  destruct x as [sx|sx| |sx mx ex], y as [sy|sy| |sy my ey];
    simpl; try contradiction; intros _; try discriminate;
    try (destruct sy; discriminate); try (destruct sx; discriminate).
  - intros _. destruct sy, sx; exact I.
  - fold_pos_compare.
    destruct sy, sx; try discriminate;
      destruct (Z.compare_spec ey ex); try discriminate; subst;
      destruct (Pos.compare_spec my mx); try discriminate; subst; intros _;
      rewrite Z.min_id, Z.sub_diag; exact I.
Qed.

(** The sum of two zeros is a zero. *)
Lemma SFadd_zero x y :
  is_zero_sf x -> is_zero_sf y -> is_zero_sf (FloatAxioms.SF64add x y).
Proof.
  destruct x as [sx|sx| |sx mx ex], y as [sy|sy| |sy my ey];
    simpl; try contradiction.
  intros _ _. destruct sx, sy; exact I.
Qed.

Lemma zero_eqb (c : float) :
  is_zero_sf (FloatOps.Prim2SF c) -> PrimFloat.eqb c 0 = true.
Proof.
  rewrite FloatAxioms.eqb_spec.
  destruct (FloatOps.Prim2SF c); simpl; try contradiction. reflexivity.
Qed.

(** [b - a] is a zero when [a] is finite and [b == a]. *)
Lemma sub_equal (a b : float) :
  PrimFloat.is_finite a = true -> PrimFloat.eqb b a = true ->
  is_zero_sf (FloatOps.Prim2SF (PrimFloat.sub b a)).
Proof.
  intros Ha Hb. rewrite FloatAxioms.sub_spec. apply SFsub_equal.
  - apply finite_proper. exact Ha.
  - rewrite <- FloatAxioms.eqb_spec. exact Hb.
Qed.

Lemma leb_trans (a b c : float) :
  PrimFloat.leb a b = true -> PrimFloat.leb b c = true ->
  PrimFloat.leb a c = true.
Proof. rewrite !FloatAxioms.leb_spec. apply SFleb_trans. Qed.

Lemma leb_antisym (a b : float) :
  PrimFloat.leb a b = true -> PrimFloat.leb b a = true ->
  PrimFloat.eqb a b = true.
Proof.
  rewrite !FloatAxioms.leb_spec, FloatAxioms.eqb_spec. apply SFleb_antisym.
Qed.

Lemma eqb_leb (a b : float) :
  PrimFloat.eqb a b = true -> PrimFloat.leb a b = true.
Proof. rewrite FloatAxioms.leb_spec, FloatAxioms.eqb_spec. apply SFeqb_leb. Qed.

Lemma leb_refl (a : float) :
  PrimFloat.is_finite a = true -> PrimFloat.leb a a = true.
Proof.
  intros H. rewrite FloatAxioms.leb_spec. apply SFleb_refl, finite_proper, H.
Qed.

(** ** Coordinates that do not decrease *)

Lemma nondecreasing_step cs m :
  nondecreasing cs = true -> (S m < length cs)%nat ->
  PrimFloat.leb (cM_at cs m) (cM_at cs (S m)) = true.
Proof.
  unfold cM_at. revert m. induction cs as [|a cs IH]; intros m H Hm;
    [simpl in Hm; lia|].
  destruct cs as [|b cs]; [simpl in Hm; lia|].
  simpl in H. apply andb_true_iff in H. destruct H as [Hab Hrest].
  destruct m as [|m]; [exact Hab|].
  apply (IH m Hrest). simpl in *. lia.
Qed.

Lemma nondecreasing_le cs i j :
  nondecreasing cs = true -> Forall (fun c => PrimFloat.is_finite c = true) cs ->
  (i <= j < length cs)%nat ->
  PrimFloat.leb (cM_at cs i) (cM_at cs j) = true.
Proof.
  intros Hm Hf. induction j as [|j IH]; intros Hij.
  - replace i with 0%nat by lia. apply leb_refl.
    apply (proj1 (Forall_nth _ 0%float cs) Hf). lia.
  - destruct (Nat.eq_dec i (S j)) as [->|Hne].
    + apply leb_refl. apply (proj1 (Forall_nth _ 0%float cs) Hf). lia.
    + apply (leb_trans _ (cM_at cs j)); [apply IH; lia|].
      apply nondecreasing_step; [exact Hm|lia].
Qed.

(** With the last coordinate equal to the first, every step is flat. *)
Lemma flat_steps cs m :
  nondecreasing cs = true -> Forall (fun c => PrimFloat.is_finite c = true) cs ->
  PrimFloat.eqb (cM_at cs (length cs - 1)) (cM_at cs 0) = true ->
  (S m < length cs)%nat ->
  is_zero_sf (FloatOps.Prim2SF (PrimFloat.sub (cM_at cs (S m)) (cM_at cs m))).
Proof.
  intros Hm Hf Hspan Hlt. apply sub_equal.
  - apply (proj1 (Forall_nth _ 0%float cs) Hf). lia.
  - apply leb_antisym; [|apply nondecreasing_step; assumption].
    apply (leb_trans _ (cM_at cs (length cs - 1)));
      [apply nondecreasing_le; [assumption|assumption|lia]|].
    apply (leb_trans _ (cM_at cs 0)); [apply eqb_leb; exact Hspan|].
    apply nondecreasing_le; [assumption|assumption|lia].
Qed.

(** ** The checks after the joint iteration *)

Lemma int32_small z : - 2 ^ 31 <= z < 2 ^ 31 -> int32 z = z.
Proof. intros H. unfold int32. rewrite Z.mod_small; lia. Qed.

(** Over one chromosome, and with coordinates that fit an [int], the
    physical range telescopes: after [k] steps it is the coordinate of
    SNP [k] minus the coordinate of SNP 0, as a [uint64]. *)
Lemma ranges_phys (chrBps : list (Z * Z)) (cMs : list float) (c : Z) (k : nat) :
  Forall (fun e => fst e = c) chrBps ->
  Forall (fun e => 1 <= snd e < 2 ^ 31) chrBps ->
  (k < length chrBps)%nat ->
  fst (fold_left (range_step chrBps cMs) (seq 0 k) (0, 0%float))
  = uint64 (snd (nth k chrBps (0, 0)) - snd (nth 0 chrBps (0, 0))).
Proof.
  intros Hc Hr. induction k as [|k IH]; intros Hk.
  - simpl. rewrite Z.sub_diag. reflexivity.
  - rewrite seq_S, fold_left_app. simpl fold_left.
    specialize (IH ltac:(lia)).
    destruct (fold_left _ _ _) as [p g]. simpl in IH. subst p.
    unfold range_step. simpl fst. simpl snd.
    replace (k + 1)%nat with (S k) by lia.
    pose proof (proj1 (Forall_nth _ (0, 0) _) Hc k ltac:(lia)) as Ek.
    pose proof (proj1 (Forall_nth _ (0, 0) _) Hc (S k) ltac:(lia)) as ESk.
    pose proof (proj1 (Forall_nth _ (0, 0) _) Hr k ltac:(lia)) as Rk.
    pose proof (proj1 (Forall_nth _ (0, 0) _) Hr (S k) ltac:(lia)) as RSk.
    simpl in Ek, ESk, Rk, RSk. rewrite Ek, ESk, Z.eqb_refl. simpl fst.
    rewrite int32_small by lia.
    unfold uint64. rewrite Zplus_mod_idemp_l. f_equal. lia.
Qed.

(** While every step of the coordinates is a zero, so is the genetic
    range accumulated. *)
Lemma ranges_cM_zero (chrBps : list (Z * Z)) (cMs : list float) (k : nat) :
  (forall m, (m < k)%nat ->
     is_zero_sf (FloatOps.Prim2SF
                   (PrimFloat.sub (cM_at cMs (S m)) (cM_at cMs m)))) ->
  is_zero_sf (FloatOps.Prim2SF
                (snd (fold_left (range_step chrBps cMs) (seq 0 k)
                        (0, 0%float)))).
Proof.
  induction k as [|k IH]; intros Hz.
  - vm_compute. exact I.
  - rewrite seq_S, fold_left_app. simpl fold_left.
    specialize (IH ltac:(intros m Hm; apply Hz; lia)).
    destruct (fold_left _ _ _) as [p g]. simpl in IH.
    unfold range_step. replace (k + 1)%nat with (S k) by lia.
    destruct (_ =? _); simpl; [|exact IH].
    rewrite FloatAxioms.add_spec. apply SFadd_zero; [exact IH|].
    apply Hz. lia.
Qed.

Section KeysFit.
Context {HTS : BcfGt}.
Variable sscanf_d : string -> option Z.
Variables ref_hdr tgt_hdr : bcf_hdr.

(** When the positions of the target records fit an [int] with room
    for the [+1], so do the coordinates pushed. *)
Lemma sync_line_keys allowRefAltSwap s ln f :
  (forall t, snd ln = Some t -> 0 <= pos t < 2 ^ 31 - 1) ->
  Forall (fun e => 1 <= snd e < 2 ^ 31) (s_chrBps s) ->
  sync_line sscanf_d ref_hdr tgt_hdr allowRefAltSwap s ln = Ok f ->
  Forall (fun e => 1 <= snd e < 2 ^ 31)
    (s_chrBps (match f with Next s' => s' | Break s' => s' end)).
Proof.
  intros Hpos Hs. unfold sync_line.
  destruct ln as [[ref|] [tgt|]]; simpl;
    try (intros E; injection E as <-; exact Hs).
  destruct (2 <? n_allele tgt); [intros E; injection E as <-; exact Hs|].
  destruct (n_allele tgt <? 2); [intros E; injection E as <-; exact Hs|].
  destruct (reconcile allowRefAltSwap ref tgt (s_cnt s)) as [[swap|] c];
    [|intros E; injection E as <-; exact Hs].
  destruct (learn_chrom sscanf_d tgt_hdr tgt (with_cnt s c)) as [s1|] eqn:El;
    [|discriminate].
  apply learn_chrom_keeps in El. simpl in El. destruct El as (_ & _ & _ & Ek).
  simpl. destruct (negb (s_prev_rid s1 =? rid tgt));
    [intros E; injection E as <-; rewrite Ek; exact Hs|].
  unfold accept.
  destruct (process_ref_genotypes _ _ _ _ _ _) as [r|]; [|discriminate].
  destruct (process_target_genotypes _ _ _ _) as [t|]; [|discriminate].
  simpl. intros E. injection E as <-. simpl. rewrite Ek.
  apply Forall_app. split; [exact Hs|].
  constructor; [|constructor]. simpl.
  specialize (Hpos tgt eq_refl). rewrite int32_small; lia.
Qed.

Lemma sync_loop_keys allowRefAltSwap lines : forall s s',
  Forall (fun ln : sr_line =>
            forall t, snd ln = Some t -> 0 <= pos t < 2 ^ 31 - 1) lines ->
  Forall (fun e => 1 <= snd e < 2 ^ 31) (s_chrBps s) ->
  sync_loop sscanf_d ref_hdr tgt_hdr allowRefAltSwap lines s = Ok s' ->
  Forall (fun e => 1 <= snd e < 2 ^ 31) (s_chrBps s').
Proof.
  induction lines as [|ln rest IH]; intros s s' Hall Hs; simpl.
  - intros E. injection E as <-. assumption.
  - apply Forall_cons in Hall. destruct Hall as [Hln Hrest].
    destruct (sync_line _ _ _ _ s ln) as [f|] eqn:El; [|discriminate].
    apply sync_line_keys in El; [|assumption|assumption].
    destruct f as [s1|s1]; simpl.
    + apply IH; assumption.
    + intros E. injection E as <-. assumption.
Qed.

End KeysFit.

Section CtorProps.
Context {HTS : BcfGt}.
Variable sscanf_d : string -> option Z.
Variables ref_hdr tgt_hdr : bcf_hdr.
Variable interp : Z -> Z -> float.

(** C9. Let the joint iteration end, without exit, in state [s]; [M] is
    then the number of accepted lines (as a [uint64]).  The constructor
    exits, leaving no packed output,
    - when fewer than 2 lines were accepted;
    - when the physical span is zero: with positions of the target
      records that fit an [int], the physical range the code computes
      is the coordinate of the last accepted line minus that of the
      first, and it is 0 exactly when the two are equal;
    - when the genetic span is zero: with finite coordinates that do
      not decrease along the accepted lines, a last coordinate equal to
      the first makes every step, and so the accumulated genetic range,
      an exact zero;
    - and in general whenever the physical range is 0 or the genetic
      range compares equal to 0.
    With [M] at least 2 and both ranges nonzero it returns what
    [buildGenoBits] packs. *)
Theorem C9_fatal_checks (lines : list sr_line) (allowRefAltSwap : bool)
    (chrom : Z) (cMmax : float) (s : sync) :
  sync_loop sscanf_d ref_hdr tgt_hdr allowRefAltSwap lines (sync_init chrom)
  = Ok s ->
  let chrBps := s_chrBps s in
  let cMs := processMap interp chrBps in
  let physRange := fst (ranges chrBps cMs) in
  let cMrange := snd (ranges chrBps cMs) in
  let last := (length chrBps - 1)%nat in
  let bp := fun m : nat => snd (nth m chrBps (0, 0)) in
  let run :=
    SyncedVcfData sscanf_d ref_hdr tgt_hdr interp lines allowRefAltSwap chrom
      cMmax in
  let exits := run = Exit (if s_M s <=? 1 then TooFewSnps else ZeroRange) in
  s_M s = uint64 (Z.of_nat (length chrBps))
  /\ ((length chrBps < 2)%nat -> run = Exit TooFewSnps)
  /\ (Forall (fun ln : sr_line =>
                forall t, snd ln = Some t -> 0 <= pos t < 2 ^ 31 - 1) lines ->
      physRange = uint64 (bp last - bp 0%nat)
      /\ (physRange = 0 <-> bp last = bp 0%nat)
      /\ (bp last = bp 0%nat -> exits))
  /\ (nondecreasing cMs = true ->
      Forall (fun c => PrimFloat.is_finite c = true) cMs ->
      PrimFloat.eqb (cM_at cMs last) (cM_at cMs 0) = true ->
      PrimFloat.eqb cMrange 0 = true /\ exits)
  /\ (physRange = 0 \/ PrimFloat.eqb cMrange 0 = true -> exits)
  /\ (2 <= s_M s -> physRange <> 0 -> PrimFloat.eqb cMrange 0 = false ->
      run = Ok (buildGenoBits (Z.to_nat (s_M s))
                  (Z.to_nat (Nref ref_hdr)) (Z.to_nat (Ntarget tgt_hdr))
                  (s_hapsRef s) (s_genosTarget s) cMs cMmax)).
Proof.
  intros Hloop chrBps cMs physRange cMrange last bp run exits.
  pose proof (sync_loop_inv _ _ _ _ _ _ _ (sync_inv_init chrom) Hloop)
    as [HM Hchr _ _ _].
  assert (Hrun : run
    = if s_M s <=? 1 then Exit TooFewSnps
      else if (physRange =? 0) || PrimFloat.eqb cMrange 0 then Exit ZeroRange
      else Ok (buildGenoBits (Z.to_nat (s_M s))
                 (Z.to_nat (Nref ref_hdr)) (Z.to_nat (Ntarget tgt_hdr))
                 (s_hapsRef s) (s_genosTarget s) cMs cMmax)).
  { subst run. unfold SyncedVcfData, processVcfs. rewrite Hloop. simpl.
    destruct (s_M s <=? 1); [reflexivity|]. simpl.
    subst physRange cMrange cMs chrBps.
    destruct (ranges _ _) as [p g]. reflexivity. }
  assert (Hexit : physRange = 0 \/ PrimFloat.eqb cMrange 0 = true -> exits).
  { intros Hz. subst exits. rewrite Hrun. destruct (s_M s <=? 1); [reflexivity|].
    assert (Hb : ((physRange =? 0) || PrimFloat.eqb cMrange 0) = true).
    { destruct Hz as [-> | ->]; [reflexivity|apply orb_true_r]. }
    rewrite Hb. reflexivity. }
  split; [exact HM|]. split; [|split; [|split; [|split]]].
  - intros Hlt. rewrite Hrun, HM. fold chrBps.
    assert (Hs : (uint64 (Z.of_nat (length chrBps)) <=? 1) = true).
    { apply Z.leb_le. unfold uint64. rewrite Z.mod_small; lia. }
    rewrite Hs. reflexivity.
  - intros Hpos.
    assert (Hkeys : Forall (fun e => 1 <= snd e < 2 ^ 31) chrBps).
    { refine (sync_loop_keys _ _ _ _ _ _ _ Hpos _ Hloop). constructor. }
    assert (Hphys : physRange = uint64 (bp last - bp 0%nat)).
    { subst physRange bp last. unfold ranges. fold chrBps.
      destruct (Nat.eq_dec (length chrBps) 0%nat) as [E|E].
      - rewrite E. simpl. rewrite Z.sub_diag. reflexivity.
      - apply (ranges_phys chrBps cMs (s_chrom s)); [exact Hchr|exact Hkeys|lia]. }
    assert (Hbp : forall m, -1 < bp m < 2 ^ 31).
    { intros m. subst bp. simpl.
      destruct (Nat.lt_ge_cases m (length chrBps)) as [Hm|Hm].
      - pose proof (proj1 (Forall_nth _ (0, 0) _) Hkeys m Hm). simpl in *. lia.
      - rewrite nth_overflow by lia. simpl. lia. }
    assert (Hiff : physRange = 0 <-> bp last = bp 0%nat).
    { rewrite Hphys. pose proof (Hbp last). pose proof (Hbp 0%nat).
      unfold uint64. split.
      - intros Hz. apply Z.mod_divide in Hz; [|lia].
        destruct Hz as [q Hq]. nia.
      - intros ->. rewrite Z.sub_diag. reflexivity. }
    split; [exact Hphys|]. split; [exact Hiff|].
    intros Heq. apply Hexit. left. apply Hiff. exact Heq.
  - intros Hmono Hfin Hspan.
    assert (Hlen : length cMs = length chrBps).
    { subst cMs. unfold processMap. apply length_map. }
    assert (Hz : PrimFloat.eqb cMrange 0 = true).
    { apply zero_eqb. subst cMrange. unfold ranges.
      apply ranges_cM_zero. intros m Hm.
      apply flat_steps; [exact Hmono|exact Hfin| |lia].
      rewrite Hlen. exact Hspan. }
    split; [exact Hz|]. apply Hexit. right. exact Hz.
  - exact Hexit.
  - intros HM2 Hp Hg. rewrite Hrun.
    destruct (Z.leb_spec (s_M s) 1); [lia|].
    destruct (Z.eqb_spec physRange 0); [contradiction|].
    rewrite Hg. reflexivity.
Qed.

End CtorProps.

(** A single accepted line: the constructor exits before it packs.
    Two accepted lines 2 base pairs apart where the genetic map is
    flat: the genetic span is zero and the constructor exits for it.
    Two accepted lines at the same position: the physical span is zero
    and the constructor exits for it. *)
Lemma C9_fatal_checks_witness :
  SyncedVcfData (HTS := htslib_vcf) ex_sscanf ex_hdr ex_hdr ex_interp
    [ex_line 4 [bcf_gt_unphased 0; bcf_gt_phased 1]
               [bcf_gt_unphased 0; bcf_gt_unphased 1]]
    false 0 1%float
  = Exit TooFewSnps
  /\ SyncedVcfData (HTS := htslib_vcf) ex_sscanf ex_hdr ex_hdr ex_interp
       ex_lines_flat false 0 1%float
     = Exit ZeroRange
  /\ SyncedVcfData (HTS := htslib_vcf) ex_sscanf ex_hdr ex_hdr ex_interp
       ex_lines_same false 0 1%float
     = Exit ZeroRange.
Proof.
  split; [|split].
  - refine (proj1 (proj2
      (C9_fatal_checks (HTS := htslib_vcf) ex_sscanf ex_hdr ex_hdr ex_interp
         [ex_line 4 [bcf_gt_unphased 0; bcf_gt_phased 1]
                    [bcf_gt_unphased 0; bcf_gt_unphased 1]]
         false 0 1%float _ eq_refl)) _).
    vm_compute. lia.
  - destruct (sync_loop (HTS := htslib_vcf) ex_sscanf ex_hdr ex_hdr false
                ex_lines_flat (sync_init 0)) as [s|e] eqn:E;
      [|vm_compute in E; discriminate].
    pose proof (C9_fatal_checks (HTS := htslib_vcf) ex_sscanf ex_hdr ex_hdr
                  ex_interp ex_lines_flat false 0 1%float s E) as H.
    cbv zeta in H. destruct H as (_ & _ & _ & Hgen & _).
    vm_compute in E. injection E as <-.
    refine (proj2 (Hgen _ _ _)).
    + vm_compute. reflexivity.
    + repeat constructor.
    + vm_compute. reflexivity.
  - destruct (sync_loop (HTS := htslib_vcf) ex_sscanf ex_hdr ex_hdr false
                ex_lines_same (sync_init 0)) as [s|e] eqn:E;
      [|vm_compute in E; discriminate].
    pose proof (C9_fatal_checks (HTS := htslib_vcf) ex_sscanf ex_hdr ex_hdr
                  ex_interp ex_lines_same false 0 1%float s E) as H.
    cbv zeta in H. destruct H as (_ & _ & Hphys & _).
    vm_compute in E. injection E as <-.
    refine (proj2 (proj2 (Hphys _)) eq_refl).
    apply Forall_cons. split; [intros t Ht; injection Ht as <-; simpl; lia|].
    apply Forall_cons. split; [intros t Ht; injection Ht as <-; simpl; lia|].
    apply Forall_nil. exact I.
Defined.

(** ** Segmentation *)

Lemma seg_full_closes cMs cMmax (cur : list nat) m :
  seg_full cMs cMmax (map (cM_at cMs) cur) m = closes cMs cMmax cur m.
Proof.
  unfold seg_full, closes, segMin. rewrite length_map.
  destruct cur as [|x cur]; reflexivity.
Qed.

Lemma inside_ok_single cMs cMmax m : inside_ok cMs cMmax [m].
Proof. intros [|p] x H Hp; [lia|]. discriminate. Qed.

Lemma inside_ok_nil cMs cMmax : inside_ok cMs cMmax [].
Proof. intros p x H. discriminate. Qed.

Lemma inside_ok_snoc cMs cMmax cur m :
  inside_ok cMs cMmax cur -> closes cMs cMmax cur m = false ->
  inside_ok cMs cMmax (cur ++ [m]).
Proof.
  intros Hin Hc p x Hx Hp.
  destruct (Nat.lt_ge_cases p (length cur)) as [Hlt|Hge].
  - rewrite lookup_app_l in Hx by assumption.
    rewrite take_app_le by lia. apply Hin; assumption.
  - rewrite lookup_app_r in Hx by assumption.
    destruct (p - length cur)%nat as [|q] eqn:E; [|discriminate].
    injection Hx as <-. assert (p = length cur) as -> by lia.
    rewrite take_app_length. exact Hc.
Qed.

Lemma bounds_ok_close cMs cMmax closed cur m :
  bounds_ok cMs cMmax (closed ++ [cur]) -> closes cMs cMmax cur m = true ->
  bounds_ok cMs cMmax ((closed ++ [cur]) ++ [[m]]).
Proof.
  intros Hb Hc k prev seg x Hprev Hseg Hx.
  assert (Hlen : length (closed ++ [cur]) = S (length closed))
    by (rewrite length_app; simpl; lia).
  destruct (Nat.lt_ge_cases (S k) (length (closed ++ [cur]))) as [Hlt|Hge].
  - rewrite lookup_app_l in Hprev by lia.
    rewrite lookup_app_l in Hseg by lia.
    eapply Hb; eassumption.
  - pose proof (lookup_lt_Some _ _ _ Hseg) as Hk.
    rewrite length_app in Hk. simpl in Hk.
    assert (k = length closed) as -> by lia.
    rewrite lookup_app_r in Hseg by lia.
    rewrite Hlen, Nat.sub_diag in Hseg. injection Hseg as <-.
    injection Hx as <-.
    rewrite lookup_app_l in Hprev by lia.
    rewrite lookup_app_r, Nat.sub_diag in Hprev by lia.
    injection Hprev as <-. exact Hc.
Qed.

Lemma bounds_ok_extend cMs cMmax closed cur m :
  bounds_ok cMs cMmax (closed ++ [cur]) -> (cur = [] -> closed = []) ->
  bounds_ok cMs cMmax (closed ++ [cur ++ [m]]).
Proof.
  intros Hb Hnil k prev seg x Hprev Hseg Hx.
  pose proof (lookup_lt_Some _ _ _ Hseg) as Hk.
  rewrite length_app in Hk. simpl in Hk.
  destruct (Nat.lt_ge_cases (S k) (length closed)) as [Hlt|Hge].
  - rewrite lookup_app_l in Hprev by lia.
    rewrite lookup_app_l in Hseg by lia.
    apply (Hb k prev seg x); [rewrite lookup_app_l by lia; assumption
                             |rewrite lookup_app_l by lia; assumption
                             |assumption].
  - assert (S k = length closed) as Ek by lia.
    rewrite lookup_app_l in Hprev by lia.
    rewrite lookup_app_r, <- Ek, Nat.sub_diag in Hseg by lia.
    injection Hseg as <-.
    destruct cur as [|c cur].
    + rewrite (Hnil eq_refl) in Ek. discriminate.
    + simpl in Hx. injection Hx as <-.
      apply (Hb k prev (c :: cur) c);
        [rewrite lookup_app_l by lia; assumption
        |rewrite lookup_app_r, <- Ek, Nat.sub_diag by lia; reflexivity
        |reflexivity].
Qed.

Lemma seg_inv_init cMs cMmax : seg_inv cMs cMmax 0 (SegState [] [] [] []).
Proof.
  constructor; simpl; try reflexivity; try constructor; try lia.
  - apply inside_ok_nil.
  - constructor.
  - intros k prev seg x Hprev Hseg. destruct k; discriminate.
Qed.

Lemma seg_inv_step cMs cMmax m s :
  seg_inv cMs cMmax m s -> seg_inv cMs cMmax (S m) (seg_step cMs cMmax s m).
Proof.
  intros [Hcov HcM HcMs Hcl Hcur Hpos Hin Hb].
  unfold seg_step. rewrite HcM, seg_full_closes.
  apply Forall_app in Hin. destruct Hin as [Hin1 Hin2].
  apply Forall_inv in Hin2.
  destruct (closes cMs cMmax (snpInds s) m) eqn:Hc.
  - assert (Hlen : (1 <= length (snpInds s))%nat).
    { unfold closes in Hc. apply orb_true_iff in Hc. destruct Hc as [Hc|Hc].
      - apply Nat.eqb_eq in Hc. lia.
      - apply andb_true_iff in Hc. destruct Hc as [Hc _].
        apply Nat.leb_le in Hc. lia. }
    constructor; cbn [snpInds cMvec seg64snpInds seg64cMvecs].
    + rewrite concat_app. cbn [concat]. rewrite app_nil_r, Hcov, seq_S. reflexivity.
    + reflexivity.
    + rewrite map_app, HcMs. reflexivity.
    + apply Forall_app. split; [assumption|].
      apply Forall_singleton. lia.
    + simpl. lia.
    + simpl. lia.
    + apply Forall_app. split.
      * apply Forall_app. split; [assumption|].
        apply Forall_singleton. assumption.
      * apply Forall_singleton. apply inside_ok_single.
    + apply bounds_ok_close; assumption.
  - assert (Hlen : (length (snpInds s) < 64)%nat).
    { unfold closes in Hc. apply orb_false_iff in Hc. destruct Hc as [Hc _].
      apply Nat.eqb_neq in Hc. lia. }
    constructor; cbn [snpInds cMvec seg64snpInds seg64cMvecs].
    + rewrite app_assoc, Hcov, seq_S. reflexivity.
    + rewrite map_app, HcM. reflexivity.
    + assumption.
    + assumption.
    + rewrite length_app. simpl. lia.
    + rewrite length_app. simpl. lia.
    + apply Forall_app. split; [assumption|].
      apply Forall_singleton. apply inside_ok_snoc; assumption.
    + apply bounds_ok_extend; [assumption|].
      intros Hnil. rewrite Hnil, app_nil_r in Hcov.
      destruct (seg64snpInds s) as [|seg0 rest]; [reflexivity|].
      exfalso. apply Forall_cons in Hcl. destruct Hcl as [Hl0 _].
      destruct seg0 as [|x seg0]; [simpl in Hl0; lia|].
      destruct m as [|m].
      * simpl in Hcov. discriminate.
      * specialize (Hpos ltac:(lia)). rewrite Hnil in Hpos. simpl in Hpos. lia.
Qed.

Lemma seg_inv_loop cMs cMmax M :
  seg_inv cMs cMmax M
    (fold_left (seg_step cMs cMmax) (seq 0 M) (SegState [] [] [] [])).
Proof.
  induction M as [|M IH].
  - apply seg_inv_init.
  - rewrite seq_S, fold_left_app. simpl. apply seg_inv_step. exact IH.
Qed.

(** C1. For M >= 2 accepted SNPs with their coordinates, the segments
    [buildGenoBits] forms are, concatenated in order, the SNP indices
    0 .. M-1; each has between 1 and 64 SNPs and their lengths sum to M;
    a SNP that is not the first of its segment was not due a boundary
    after the SNPs of its segment before it, and the first SNP of every
    segment but the first was due one after the whole previous segment,
    where a boundary is due when the segment has 64 SNPs, or has at least
    16 and the coordinate of the SNP exceeds that of the segment's first
    SNP plus [cMmax].  The coordinate vectors stored beside the segments
    are the coordinates of their SNPs, and [Mseg64] is the number of
    segments. *)
Theorem C1_segments (M Nref_ Ntarget_ : nat) (hapsRef : list bool)
    (genosTarget : list Z) (cMs : list float) (cMmax : float) :
  (2 <= M)%nat -> length cMs = M ->
  let built := buildGenoBits M Nref_ Ntarget_ hapsRef genosTarget cMs cMmax in
  let segs := p_seg64snpInds built in
  concat segs = seq 0 M
  /\ Forall (fun seg => (1 <= length seg <= 64)%nat) segs
  /\ list_sum (map length segs) = M
  /\ (forall k seg p m,
        segs !! k = Some seg -> seg !! p = Some m -> (0 < p)%nat ->
        closes cMs cMmax (take p seg) m = false)
  /\ (forall k prev seg m,
        segs !! k = Some prev -> segs !! S k = Some seg ->
        seg !! 0%nat = Some m ->
        closes cMs cMmax prev m = true)
  /\ p_seg64cMvecs built = map (map (cM_at cMs)) segs
  /\ Mseg64 built = length segs.
Proof.
  intros HM _ built segs. subst built segs. unfold buildGenoBits. simpl.
  unfold segment. simpl.
  destruct (seg_inv_loop cMs cMmax M) as [Hcov HcM HcMs Hcl Hcur Hpos Hin Hb].
  set (s := fold_left (seg_step cMs cMmax) (seq 0 M) (SegState [] [] [] [])) in *.
  assert (Hcat : concat (seg64snpInds s ++ [snpInds s]) = seq 0 M).
  { rewrite concat_app. simpl. rewrite app_nil_r. exact Hcov. }
  split; [exact Hcat|]. split; [|split; [|split; [|split; [|split]]]].
  - apply Forall_app. split; [assumption|].
    apply Forall_singleton. split; [apply Hpos; lia|assumption].
  - rewrite <- length_concat, Hcat, length_seq. reflexivity.
  - intros k seg p m Hk Hp Hpos'.
    apply (proj1 (Forall_lookup _ _) Hin k seg Hk p m Hp Hpos').
  - exact Hb.
  - rewrite map_app, HcMs, HcM. reflexivity.
  - reflexivity.
Qed.

(** Twenty SNPs half a centiMorgan apart with [cMmax = 3]: the first
    segment closes once it has 16 SNPs, the second holds the other
    four. *)
Lemma C1_segments_witness :
  p_seg64snpInds (buildGenoBits 20 0 0 [] [] ex_cMs 3%float)
  = [seq 0 16; seq 16 4]
  /\ concat (p_seg64snpInds (buildGenoBits 20 0 0 [] [] ex_cMs 3%float))
     = seq 0 20
  /\ list_sum (map length
       (p_seg64snpInds (buildGenoBits 20 0 0 [] [] ex_cMs 3%float)))
     = 20%nat.
Proof.
  pose proof (C1_segments 20 0 0 [] [] ex_cMs 3%float ltac:(lia) eq_refl) as H.
  cbv zeta in H. destruct H as (H1 & _ & H3 & _).
  split; [reflexivity|]. split; [exact H1|exact H3].
Defined.

(** ** Bit planes *)

Lemma bit_or_plane q i v gb p i0 k :
  bit (or_plane q i v gb) p i0 k
  = bit gb p i0 k
    || (bool_decide (p = q /\ i = i0 /\ (i < length gb)%nat)
        && Z.testbit v (Z.of_nat k)).
Proof.
  unfold bit, or_plane, or_is0, or_is2, or_is9.
  destruct q, p; rewrite list_lookup_total_alter;
    destruct (decide (i = i0 /\ (i < length gb)%nat)) as [[-> Hlt]|Hn];
    case_bool_decide as Hd; simpl; rewrite ?Z.lor_spec;
    rewrite ?orb_false_r; try reflexivity;
    try (destruct Hd as [Hd _]; discriminate);
    exfalso; tauto.
Qed.

Lemma length_or_plane q i v gb : length (or_plane q i v gb) = length gb.
Proof. destruct q; apply length_alter. Qed.

Lemma testbit_one k : Z.testbit 1 k = (k =? 0).
Proof.
  destruct (Z.eqb_spec k 0) as [->|Hk]; [reflexivity|].
  destruct (Z.lt_ge_cases k 0); [apply Z.testbit_neg_r; assumption|].
  apply Z.bits_above_log2; simpl; lia.
Qed.

(** The bits of [(uint64) b << j]. *)
Lemma shl64_bit (b : bool) (j k : nat) :
  Z.testbit (shl64 (Z.b2z b) j) (Z.of_nat k)
  = b && (k =? j)%nat && (k <? 64)%nat.
Proof.
  unfold shl64, uint64. rewrite Z.testbit_mod_pow2 by lia.
  rewrite Z.shiftl_spec by lia.
  destruct b; simpl Z.b2z.
  - rewrite testbit_one.
    destruct (Nat.eqb_spec k j) as [->|Hne].
    + rewrite Z.sub_diag. simpl.
      destruct (Nat.ltb_spec j 64); destruct (Z.ltb_spec (Z.of_nat j) 64);
        try reflexivity; lia.
    + destruct (Z.eqb_spec (Z.of_nat k - Z.of_nat j) 0); [lia|].
      rewrite andb_false_r. reflexivity.
  - rewrite Z.bits_0, andb_false_r. reflexivity.
Qed.

Lemma grows_refl gb : grows gb gb.
Proof. split; auto. Qed.

Lemma grows_trans gb1 gb2 gb3 : grows gb1 gb2 -> grows gb2 gb3 -> grows gb1 gb3.
Proof. intros [L1 H1] [L2 H2]. split; [congruence|auto]. Qed.

Lemma grows_or_plane q i v gb : grows gb (or_plane q i v gb).
Proof.
  split; [apply length_or_plane|].
  intros p i0 k H. rewrite bit_or_plane, H. reflexivity.
Qed.

Lemma grows_fold {X} (f : list uint64_masks -> X -> list uint64_masks)
    (xs : list X) :
  (forall g x, grows g (f g x)) -> forall g, grows g (fold_left f xs g).
Proof.
  intros Hf. induction xs as [|x xs IH]; intros g; simpl.
  - apply grows_refl.
  - eapply grows_trans; [apply Hf|apply IH].
Qed.

(** A property of the state kept by every step of a loop. *)
Lemma fold_left_keeps {S X} (P : S -> Prop) (f : S -> X -> S) (xs : list X) :
  (forall s x, In x xs -> P s -> P (f s x)) ->
  forall s, P s -> P (fold_left f xs s).
Proof.
  induction xs as [|x xs IH]; intros Hf s Hs; simpl; [assumption|].
  apply IH; [intros; apply Hf; [right|]; assumption|].
  apply Hf; [left; reflexivity|assumption].
Qed.

(** A bit that the step for [x] sets is set after the loop. *)
Lemma fold_left_sets {X} (f : list uint64_masks -> X -> list uint64_masks)
    (xs : list X) (x : X) (p : plane) (i k : nat) :
  (forall g y, grows g (f g y)) -> In x xs ->
  forall g0,
    (forall g, length g = length g0 -> bit (f g x) p i k = true) ->
    bit (fold_left f xs g0) p i k = true.
Proof.
  intros Hf Hin g0 Hx. apply in_split in Hin. destruct Hin as [l1 [l2 ->]].
  rewrite fold_left_app. simpl.
  apply (grows_fold f l2 Hf). apply Hx. apply (grows_fold f l1 Hf).
Qed.

Lemma index_inj (N m64 n m64' n' : nat) :
  (n < N)%nat -> (n' < N)%nat -> (m64 * N + n = m64' * N + n')%nat ->
  m64 = m64' /\ n = n'.
Proof.
  intros Hn Hn' E.
  assert (m64 = m64') as ->.
  { destruct (Nat.lt_trichotomy m64 m64') as [H|[H|H]]; [|assumption|]; nia. }
  split; [reflexivity|lia].
Qed.

Section PackProps.
Variables (Nref_ Ntarget_ : nat) (hapsRef : list bool) (genosTarget : list Z).
Variable segs : list (list nat).

#[local] Abbreviation call_bit := (call_bit Nref_ Ntarget_ hapsRef genosTarget).
#[local] Abbreviation origin := (origin Nref_ Ntarget_ hapsRef genosTarget segs).
#[local] Abbreviation sound := (sound Nref_ Ntarget_ hapsRef genosTarget segs).

Lemma sound_or q i v gb :
  sound gb ->
  (forall k, Z.testbit v (Z.of_nat k) = true -> origin q i k) ->
  sound (or_plane q i v gb).
Proof.
  intros Hs Hv p i0 k. rewrite bit_or_plane. intros H.
  apply orb_true_iff in H. destruct H as [H|H]; [apply Hs; assumption|].
  apply andb_true_iff in H. destruct H as [Hd Hb].
  apply bool_decide_eq_true in Hd. destruct Hd as (-> & -> & _).
  apply Hv. assumption.
Qed.

Lemma shl64_origin (b : bool) q m64 n j :
  (n < N_ Nref_ Ntarget_)%nat -> (m64 < length segs)%nat ->
  (j < length (nth m64 segs []))%nat ->
  b = call_bit q n (nth j (nth m64 segs []) 0%nat) ->
  forall k, Z.testbit (shl64 (Z.b2z b) j) (Z.of_nat k) = true ->
    origin q (m64 * N_ Nref_ Ntarget_ + n) k.
Proof.
  intros Hn Hm Hj Hb k Hk. rewrite shl64_bit in Hk.
  apply andb_true_iff in Hk. destruct Hk as [Hk _].
  apply andb_true_iff in Hk. destruct Hk as [Hbt Hkj].
  apply Nat.eqb_eq in Hkj. subst k. exists m64, n.
  repeat split; try assumption. left. split; [assumption|congruence].
Qed.

Lemma sound_pack_ref m64 j gb n :
  (m64 < length segs)%nat -> (j < length (nth m64 segs []))%nat ->
  (n < Nref_)%nat -> sound gb ->
  sound (pack_ref Nref_ Ntarget_ hapsRef m64 j (nth j (nth m64 segs []) 0%nat)
           gb n).
Proof.
  intros Hm Hj Hn Hs. unfold pack_ref.
  change or_is2 with (or_plane P2). change or_is0 with (or_plane P0).
  assert (HnN : (n < N_ Nref_ Ntarget_)%nat) by (unfold N_; lia).
  assert (Hlt : (n <? Nref_)%nat = true) by (apply Nat.ltb_lt; assumption).
  apply sound_or; [apply sound_or; [assumption|]|];
    apply shl64_origin; try assumption; unfold call_bit; rewrite Hlt;
    reflexivity.
Qed.

Lemma sound_pack_target m64 j gb n :
  (m64 < length segs)%nat -> (j < length (nth m64 segs []))%nat ->
  (Nref_ <= n < N_ Nref_ Ntarget_)%nat -> sound gb ->
  sound (pack_target Nref_ Ntarget_ genosTarget m64 j
           (nth j (nth m64 segs []) 0%nat) gb n).
Proof.
  intros Hm Hj [Hn HnN] Hs. unfold pack_target.
  change or_is9 with (or_plane P9).
  change or_is2 with (or_plane P2). change or_is0 with (or_plane P0).
  assert (Hlt : (n <? Nref_)%nat = false) by (apply Nat.ltb_ge; assumption).
  apply sound_or; [apply sound_or; [apply sound_or; [assumption|]|]|];
    apply shl64_origin; try assumption; unfold call_bit; rewrite Hlt;
    reflexivity.
Qed.

Lemma sound_pack_snp m64 gb j :
  (m64 < length segs)%nat -> (j < length (nth m64 segs []))%nat ->
  sound gb ->
  sound (pack_snp Nref_ Ntarget_ hapsRef genosTarget m64 (nth m64 segs [])
           gb j).
Proof.
  intros Hm Hj Hs. unfold pack_snp.
  apply fold_left_keeps.
  - intros g n Hn Hg. apply in_seq in Hn.
    apply sound_pack_target; try assumption; unfold N_ in *; lia.
  - apply fold_left_keeps; [|assumption].
    intros g n Hn Hg. apply in_seq in Hn.
    apply sound_pack_ref; try assumption; lia.
Qed.

Lemma sound_pad_indiv m64 gb n :
  (m64 < length segs)%nat -> (n < N_ Nref_ Ntarget_)%nat -> sound gb ->
  sound (pad_indiv Nref_ Ntarget_ m64 (nth m64 segs []) gb n).
Proof.
  intros Hm Hn Hs. unfold pad_indiv.
  apply fold_left_keeps; [|assumption].
  intros g j Hj Hg. apply in_seq in Hj.
  change or_is9 with (or_plane P9). apply sound_or; [assumption|].
  intros k Hk. change 1 with (Z.b2z true) in Hk. rewrite shl64_bit in Hk.
  apply andb_true_iff in Hk. destruct Hk as [Hk _].
  apply Nat.eqb_eq in Hk. subst k. exists m64, n.
  repeat split; try assumption. right. split; [reflexivity|lia].
Qed.

Lemma sound_pack_seg gb m64 :
  (m64 < length segs)%nat -> sound gb ->
  sound (pack_seg Nref_ Ntarget_ hapsRef genosTarget segs gb m64).
Proof.
  intros Hm Hs. unfold pack_seg.
  apply fold_left_keeps.
  - intros g n Hn Hg. apply in_seq in Hn.
    apply sound_pad_indiv; try assumption; unfold N_ in *; lia.
  - apply fold_left_keeps; [|assumption].
    intros g j Hj Hg. apply in_seq in Hj.
    apply sound_pack_snp; try assumption; lia.
Qed.

Lemma zero_masks_lookup n i :
  replicate n (Masks 0 0 0) !!! i = Masks 0 0 0.
Proof.
  destruct (Nat.lt_ge_cases i n) as [H|H].
  - apply lookup_total_replicate_2. assumption.
  - rewrite list_lookup_total_alt.
    rewrite (proj1 (lookup_replicate_None n (Masks 0 0 0) i) H). reflexivity.
Qed.

(** Every bit set in the packed planes has an origin. *)
Lemma sound_pack : sound (pack Nref_ Ntarget_ hapsRef genosTarget segs).
Proof.
  unfold pack. apply fold_left_keeps.
  - intros g m64 Hm Hg. apply in_seq in Hm. apply sound_pack_seg; [lia|assumption].
  - intros p i k H. unfold bit in H. rewrite zero_masks_lookup in H.
    destruct p; simpl in H; rewrite Z.bits_0 in H; discriminate.
Qed.

End PackProps.

Section PackGrows.
Variables (Nref_ Ntarget_ : nat) (hapsRef : list bool) (genosTarget : list Z).

Lemma grows_pack_ref m64 j m gb n :
  grows gb (pack_ref Nref_ Ntarget_ hapsRef m64 j m gb n).
Proof.
  unfold pack_ref.
  change or_is2 with (or_plane P2). change or_is0 with (or_plane P0).
  eapply grows_trans; apply grows_or_plane.
Qed.

Lemma grows_pack_target m64 j m gb n :
  grows gb (pack_target Nref_ Ntarget_ genosTarget m64 j m gb n).
Proof.
  unfold pack_target. change or_is9 with (or_plane P9).
  change or_is2 with (or_plane P2). change or_is0 with (or_plane P0).
  eapply grows_trans; [|apply grows_or_plane].
  eapply grows_trans; apply grows_or_plane.
Qed.

Lemma grows_pack_snp m64 seg gb j :
  grows gb (pack_snp Nref_ Ntarget_ hapsRef genosTarget m64 seg gb j).
Proof.
  unfold pack_snp.
  eapply grows_trans; [|apply grows_fold; intros; apply grows_pack_target].
  apply grows_fold; intros; apply grows_pack_ref.
Qed.

Lemma grows_pad_indiv m64 seg gb n :
  grows gb (pad_indiv Nref_ Ntarget_ m64 seg gb n).
Proof.
  unfold pad_indiv. apply grows_fold. intros.
  change or_is9 with (or_plane P9). apply grows_or_plane.
Qed.

Lemma grows_pack_seg segs gb m64 :
  grows gb (pack_seg Nref_ Ntarget_ hapsRef genosTarget segs gb m64).
Proof.
  unfold pack_seg.
  eapply grows_trans; [|apply grows_fold; intros; apply grows_pad_indiv].
  apply grows_fold; intros; apply grows_pack_snp.
Qed.

(** The padding loop sets [is9] at every position from the length of
    the segment up to 63, for every individual. *)
Lemma pack_sets_padding segs m64 n j :
  (m64 < length segs)%nat -> (n < N_ Nref_ Ntarget_)%nat ->
  (length (nth m64 segs []) <= j < 64)%nat ->
  bit (pack Nref_ Ntarget_ hapsRef genosTarget segs) P9
      (m64 * N_ Nref_ Ntarget_ + n) j = true.
Proof.
  intros Hm Hn Hj. unfold pack.
  apply (fold_left_sets _ _ m64); [apply grows_pack_seg|apply in_seq; lia|].
  intros g Hg. rewrite length_replicate in Hg. unfold pack_seg.
  apply (fold_left_sets _ _ n); [apply grows_pad_indiv|apply in_seq; lia|].
  intros g1 Hg1. unfold pad_indiv.
  apply (fold_left_sets _ _ j);
    [intros; change or_is9 with (or_plane P9); apply grows_or_plane
    |apply in_seq; lia|].
  intros g2 Hg2. change or_is9 with (or_plane P9).
  rewrite bit_or_plane. change 1 with (Z.b2z true). rewrite shl64_bit.
  assert (Hlen : length g2 = (length segs * N_ Nref_ Ntarget_)%nat).
  { rewrite Hg2, Hg1.
    destruct (grows_fold
      (pack_snp Nref_ Ntarget_ hapsRef genosTarget m64 (nth m64 segs []))
      (seq 0 (length (nth m64 segs [])))
      (fun g0 x => grows_pack_snp m64 (nth m64 segs []) g0 x) g) as [Hl _].
    rewrite Hl. exact Hg. }
  rewrite bool_decide_eq_true_2 by (repeat split; rewrite ?Hlen; nia).
  rewrite Nat.eqb_refl. simpl.
  destruct (Nat.ltb_spec j 64); [apply orb_true_r|lia].
Qed.

End PackGrows.

(** ** The packed planes of [buildGenoBits] *)

(** C2. In the planes [buildGenoBits] leaves, for every segment, every
    individual (reference or target) and every bit position from the
    length of the segment up to 63, the [is9] bit is set and the [is0]
    and [is2] bits are clear. *)
Theorem C2_padding (M Nref_ Ntarget_ : nat) (hapsRef : list bool)
    (genosTarget : list Z) (cMs : list float) (cMmax : float)
    (m64 n j : nat) :
  let built := buildGenoBits M Nref_ Ntarget_ hapsRef genosTarget cMs cMmax in
  let seg := nth m64 (p_seg64snpInds built) [] in
  let x := genoBits built !!! (m64 * (Nref_ + Ntarget_) + n)%nat in
  (m64 < Mseg64 built)%nat -> (n < Nref_ + Ntarget_)%nat ->
  (length seg <= j < 64)%nat ->
  Z.testbit (is9 x) (Z.of_nat j) = true
  /\ Z.testbit (is0 x) (Z.of_nat j) = false
  /\ Z.testbit (is2 x) (Z.of_nat j) = false.
Proof.
  intros built seg x Hm Hn Hj. subst built seg x. unfold_built.
  set (segs := seg64snpInds (segment M cMs cMmax)) in *.
  split; [|split].
  - apply (pack_sets_padding Nref_ Ntarget_ hapsRef genosTarget segs m64 n j);
      assumption.
  - destruct (Z.testbit _ _) eqn:E; [|reflexivity]. exfalso.
    apply (sound_pack Nref_ Ntarget_ hapsRef genosTarget segs P0) in E.
    destruct E as (m64' & n' & Hi & Hn' & Hm' & [[Hk _]|[Hp _]]);
      [|discriminate].
    apply index_inj in Hi; [|unfold N_ in *; lia..]. destruct Hi as [<- <-]. lia.
  - destruct (Z.testbit _ _) eqn:E; [|reflexivity]. exfalso.
    apply (sound_pack Nref_ Ntarget_ hapsRef genosTarget segs P2) in E.
    destruct E as (m64' & n' & Hi & Hn' & Hm' & [[Hk _]|[Hp _]]);
      [|discriminate].
    apply index_inj in Hi; [|unfold N_ in *; lia..]. destruct Hi as [<- <-]. lia.
Qed.

(** C5. For a target individual and a position inside a segment whose
    SNP has genotype code 1 for that individual, the [is0], [is2] and
    [is9] bits at that position are all clear. *)
Theorem C5_heterozygous_clear (M Nref_ Ntarget_ : nat) (hapsRef : list bool)
    (genosTarget : list Z) (cMs : list float) (cMmax : float)
    (m64 n j : nat) :
  let built := buildGenoBits M Nref_ Ntarget_ hapsRef genosTarget cMs cMmax in
  let seg := nth m64 (p_seg64snpInds built) [] in
  let m := nth j seg 0%nat in
  let x := genoBits built !!! (m64 * (Nref_ + Ntarget_) + n)%nat in
  (m64 < Mseg64 built)%nat -> (Nref_ <= n < Nref_ + Ntarget_)%nat ->
  (j < length seg)%nat ->
  nth (m * Ntarget_ + n - Nref_)%nat genosTarget 0 = 1 ->
  Z.testbit (is0 x) (Z.of_nat j) = false
  /\ Z.testbit (is2 x) (Z.of_nat j) = false
  /\ Z.testbit (is9 x) (Z.of_nat j) = false.
Proof.
  intros built seg m x Hm Hn Hj Hg. subst built seg m x. unfold_built.
  set (segs := seg64snpInds (segment M cMs cMmax)) in *.
  assert (Hlt : (n <? Nref_)%nat = false) by (apply Nat.ltb_ge; lia).
  assert (H : forall p,
    bit (pack Nref_ Ntarget_ hapsRef genosTarget segs) p
        (m64 * (Nref_ + Ntarget_) + n) j = false).
  { intros p. destruct (bit _ _ _ _) eqn:E; [|reflexivity]. exfalso.
    apply sound_pack in E.
    destruct E as (m64' & n' & Hi & Hn' & Hm' & [[Hk Hc]|[_ Hk]]).
    - apply index_inj in Hi; [|unfold N_ in *; lia..].
      destruct Hi as [<- <-]. unfold call_bit in Hc.
      rewrite Hlt, Hg in Hc. destruct p; discriminate.
    - apply index_inj in Hi; [|unfold N_ in *; lia..].
      destruct Hi as [<- <-]. lia. }
  split; [exact (H P0)|]. split; [exact (H P2)|exact (H P9)].
Qed.

(** C10. For a reference individual and a position inside a segment,
    the [is9] bit is clear: on the reference side [is9] marks padding
    only.  A reference call with a missing allele is encoded as the
    pair (false, false), inverted to (true, true) under [refAltSwap],
    like any other call. *)
Theorem C10_reference_is9_clear (M Nref_ Ntarget_ : nat) (hapsRef : list bool)
    (genosTarget : list Z) (cMs : list float) (cMmax : float)
    (m64 n j : nat) :
  let built := buildGenoBits M Nref_ Ntarget_ hapsRef genosTarget cMs cMmax in
  let seg := nth m64 (p_seg64snpInds built) [] in
  let x := genoBits built !!! (m64 * (Nref_ + Ntarget_) + n)%nat in
  (m64 < Mseg64 built)%nat -> (n < Nref_)%nat -> (j < length seg)%nat ->
  Z.testbit (is9 x) (Z.of_nat j) = false
  /\ (forall refAltSwap a l, r_missing l = true ->
        ra_hapsRef (ref_finish refAltSwap a l)
        = ra_hapsRef a ++ [refAltSwap; refAltSwap]).
Proof.
  intros built seg x Hm Hn Hj. subst built seg x. unfold_built.
  split;
    [|intros refAltSwap a l Hl; rewrite ref_finish_eq; unfold ref_pair;
      rewrite Hl; destruct refAltSwap; reflexivity].
  set (segs := seg64snpInds (segment M cMs cMmax)) in *.
  assert (Hlt : (n <? Nref_)%nat = true) by (apply Nat.ltb_lt; lia).
  destruct (Z.testbit _ _) eqn:E; [|reflexivity]. exfalso.
  apply (sound_pack Nref_ Ntarget_ hapsRef genosTarget segs P9) in E.
  destruct E as (m64' & n' & Hi & Hn' & Hm' & [[Hk Hc]|[_ Hk]]).
  - apply index_inj in Hi; [|unfold N_ in *; lia..].
    destruct Hi as [<- <-]. unfold call_bit in Hc.
    rewrite Hlt in Hc. discriminate.
  - apply index_inj in Hi; [|unfold N_ in *; lia..].
    destruct Hi as [<- <-]. lia.
Qed.

(** *** A packed example: one segment of length 3 *)

Example ex_built_value :
  ex_built
  = Packed 1 [[0; 1; 2]%nat] [[0.5; 0.75; 1]%float]
      [Masks 2 1 (2 ^ 64 - 8); Masks 0 4 (2 ^ 64 - 8 + 2)].
Proof. reflexivity. Qed.

Lemma C2_padding_witness :
  let x := genoBits ex_built !!! 1%nat in
  Z.testbit (is9 x) 40 = true
  /\ Z.testbit (is0 x) 40 = false
  /\ Z.testbit (is2 x) 40 = false.
Proof.
  apply (C2_padding 3 1 1 ex_hapsRef ex_genosTarget ex_cMs3 1%float 0 1 40);
    vm_compute; lia.
Defined.

Lemma C5_heterozygous_clear_witness :
  let x := genoBits ex_built !!! 1%nat in
  Z.testbit (is0 x) 0 = false
  /\ Z.testbit (is2 x) 0 = false
  /\ Z.testbit (is9 x) 0 = false.
Proof.
  apply (C5_heterozygous_clear 3 1 1 ex_hapsRef ex_genosTarget ex_cMs3 1%float
           0 1 0); vm_compute; first [reflexivity | lia].
Defined.

Lemma C10_reference_is9_clear_witness :
  Z.testbit (is9 (genoBits ex_built !!! 0%nat)) 1 = false.
Proof.
  apply (C10_reference_is9_clear 3 1 1 ex_hapsRef ex_genosTarget ex_cMs3
           1%float 0 0 1); vm_compute; lia.
Defined.

(** *** End-to-end scenarios of the specification *)

(** Scenario A: reference [0|1], target [0/1]. *)
Example scenario_A :
  process_ref_genotypes (HTS := htslib_vcf) 1 2
    [bcf_gt_unphased 0; bcf_gt_phased 1] false [] w_init
  = Ok (RefAcc [false; true] 0 0 w_init)
  /\ process_target_genotypes (HTS := htslib_vcf) 1 2
       [bcf_gt_unphased 0; bcf_gt_unphased 1] []
     = Ok (TgtAcc [1] 0).
Proof. split; reflexivity. Qed.

(** Scenario C: a target line with 3 alleles is counted as
    multi-allelic and appends nothing. *)
Example scenario_C :
  sync_line (HTS := htslib_vcf) ex_sscanf ex_hdr ex_hdr false (sync_init 0)
    (Some (Bcf1 0 4 3 ["A"; "C"; "G"]%string [2; 3] 2),
     Some (Bcf1 0 4 3 ["A"; "C"; "G"]%string [2; 6] 2))
  = Ok (Next (with_cnt (sync_init 0) (Counters 0 0 1 0 0 0 0 0 0 0 0))).
Proof. reflexivity. Qed.

(** A run of three lines through the constructor. *)
Example ex_run :
  SyncedVcfData (HTS := htslib_vcf) ex_sscanf ex_hdr ex_hdr ex_interp
    [ex_line 4 [bcf_gt_unphased 0; bcf_gt_phased 1]
               [bcf_gt_unphased 0; bcf_gt_unphased 1];
     ex_line 6 [bcf_gt_unphased 1; bcf_gt_unphased 0]
               [bcf_gt_missing; bcf_gt_missing];
     ex_line 9 [bcf_gt_phased 0; bcf_gt_phased 0]
               [bcf_gt_unphased 1; bcf_gt_unphased 1]]
    false 0 1%float
  = Ok (Packed 1 [[0; 1; 2]%nat] [[0.78125; 1.5625; 3.125]%float]
          [Masks 2 1 (2 ^ 64 - 8); Masks 0 4 (2 ^ 64 - 8 + 2)]).
Proof. reflexivity. Qed.

(** * Further properties *)

(** ** When the encoders exit *)

Section EncoderExits.
Context {HTS : BcfGt}.

Lemma tgt_alleles_iff (ptr : Z -> Z) :
  (exists l, for_each (tgt_allele ptr) [0; 1] (TgtLocals false 0) = Ok l)
  <-> tgt_entry_ok (ptr 0) /\ tgt_entry_ok (ptr 1).
Proof.
  unfold tgt_entry_ok. simpl. unfold tgt_allele.
  destruct (Z.eqb_spec (ptr 0) bcf_int32_vector_end) as [E0|E0];
    [split; [intros [l ?]; discriminate|tauto]|].
  destruct (bcf_gt_is_missing (ptr 0)) eqn:M0; simpl.
  - destruct (Z.eqb_spec (ptr 1) bcf_int32_vector_end) as [E1|E1];
      [split; [intros [l ?]; discriminate|tauto]|].
    destruct (bcf_gt_is_missing (ptr 1)) eqn:M1; simpl; [split; [intros _; repeat split; auto|intros _; eexists; reflexivity]|].
    destruct (Z.ltb_spec 1 (bcf_gt_allele (ptr 1))) as [Hlt1|Hle1]; simpl.
    + split; [intros [l ?]; discriminate|].
      intros [_ [_ [H1|H1]]]; [discriminate|lia].
    + split; [intros _; repeat split; auto|intros _; eexists; reflexivity].
  - destruct (Z.ltb_spec 1 (bcf_gt_allele (ptr 0))) as [Hlt0|Hle0]; simpl.
    + split; [intros [l ?]; discriminate|].
      intros [[_ [H0|H0]] _]; [discriminate|lia].
    + destruct (Z.eqb_spec (ptr 1) bcf_int32_vector_end) as [E1|E1];
        [split; [intros [l ?]; discriminate|tauto]|].
      destruct (bcf_gt_is_missing (ptr 1)) eqn:M1; simpl; [split; [intros _; repeat split; auto|intros _; eexists; reflexivity]|].
      destruct (Z.ltb_spec 1 (bcf_gt_allele (ptr 1))) as [Hlt1|Hle1]; simpl.
      * split; [intros [l ?]; discriminate|].
        intros [_ [_ [H1|H1]]]; [discriminate|lia].
      * split; [intros _; repeat split; auto|intros _; eexists; reflexivity].
Qed.

Lemma tgt_alleles_exit (ptr : Z -> Z) (js : list Z) : forall l e,
  for_each (tgt_allele ptr) js l = Exit e ->
  e = TargetHaploid \/ e = TargetMultiAllelic.
Proof.
  induction js as [|j js IH]; intros l e; simpl; [discriminate|].
  destruct (tgt_allele ptr l j) as [l'|e'] eqn:E; simpl.
  - apply IH.
  - intros H. injection H as <-. unfold tgt_allele in E.
    destruct (ptr j =? bcf_int32_vector_end); [injection E as <-; auto|].
    destruct (bcf_gt_is_missing (ptr j)); [discriminate|].
    destruct (1 <? bcf_gt_allele (ptr j)); [injection E as <-; auto|discriminate].
Qed.

Lemma tgt_sample_iff gt a i :
  (exists a', tgt_sample 2 gt a i = Ok a')
  <-> tgt_entry_ok (rd gt (2 * i)) /\ tgt_entry_ok (rd gt (2 * i + 1)).
Proof.
  unfold tgt_sample. rewrite seqZ_two.
  replace (2 * i) with (i * 2 + 0) by lia.
  replace (i * 2 + 0 + 1) with (i * 2 + 1) by lia.
  rewrite <- (tgt_alleles_iff (fun j => rd gt (i * 2 + j))).
  destruct (for_each _ _ _) as [l|e]; simpl.
  - split; eauto.
  - split; intros [x H]; discriminate.
Qed.

Lemma tgt_loop_iff gt ix : forall a,
  (exists a', for_each (tgt_sample 2 gt) ix a = Ok a')
  <-> Forall (fun i => tgt_entry_ok (rd gt (2 * i))
                       /\ tgt_entry_ok (rd gt (2 * i + 1))) ix.
Proof.
  induction ix as [|i ix IH]; intros a; simpl.
  - split; [constructor|eauto].
  - rewrite Forall_cons, <- (tgt_sample_iff gt a i).
    destruct (tgt_sample 2 gt a i) as [a1|e]; simpl.
    + rewrite (IH a1). split; [intros H; split; [eauto|exact H]|tauto].
    + split; [intros [x H]; discriminate|intros [[x H] _]; discriminate].
Qed.

Lemma tgt_loop_length p gt ix : forall a a',
  for_each (tgt_sample p gt) ix a = Ok a' ->
  length (ta_genosTarget a') = (length (ta_genosTarget a) + length ix)%nat.
Proof.
  induction ix as [|i ix IH]; intros a a'; simpl.
  - intros H. injection H as <-. lia.
  - unfold tgt_sample at 1.
    destruct (for_each (tgt_allele _) _ _) as [l|e]; simpl; [|discriminate].
    intros H. apply IH in H. rewrite H. unfold tgt_finish.
    destruct (t_missing l); simpl; rewrite length_app; simpl; lia.
Qed.

Lemma tgt_loop_exit p gt ix : forall a e,
  for_each (tgt_sample p gt) ix a = Exit e ->
  e = TargetHaploid \/ e = TargetMultiAllelic.
Proof.
  induction ix as [|i ix IH]; intros a e; simpl; [discriminate|].
  unfold tgt_sample at 1.
  destruct (for_each (tgt_allele _) _ _) as [l|e'] eqn:E; simpl.
  - apply IH.
  - intros H. injection H as <-. eapply tgt_alleles_exit. exact E.
Qed.

Lemma process_target_length nsmpl ngt gt genosTarget acc :
  process_target_genotypes nsmpl ngt gt genosTarget = Ok acc ->
  length (ta_genosTarget acc) = (length genosTarget + Z.to_nat nsmpl)%nat.
Proof.
  unfold process_target_genotypes.
  destruct (negb (ngt =? 2 * nsmpl)); [discriminate|].
  intros H. apply tgt_loop_length in H. rewrite length_seqZ in H. exact H.
Qed.

(** [process_target_genotypes] exits for a ploidy other than 2 before
    it reads the array; with ploidy 2 it returns exactly when no entry
    is the vector-end sentinel and every entry that is not missing has
    allele index at most 1; it exits for no reason but ploidy, a
    haploid sample or a multi-allelic call; and when it returns it has
    appended exactly one code per sample. *)
Theorem target_encoder_exits (nsmpl ngt : Z) (gt genosTarget : list Z) :
  0 < nsmpl ->
  (ngt <> 2 * nsmpl ->
   process_target_genotypes nsmpl ngt gt genosTarget = Exit TargetPloidy)
  /\ (ngt = 2 * nsmpl ->
      ((exists acc, process_target_genotypes nsmpl ngt gt genosTarget = Ok acc)
       <-> forall k, 0 <= k < ngt -> tgt_entry_ok (rd gt k)))
  /\ (forall e, process_target_genotypes nsmpl ngt gt genosTarget = Exit e ->
        e = TargetPloidy \/ e = TargetHaploid \/ e = TargetMultiAllelic)
  /\ (forall acc, process_target_genotypes nsmpl ngt gt genosTarget = Ok acc ->
        length (ta_genosTarget acc)
        = (length genosTarget + Z.to_nat nsmpl)%nat).
Proof.
  intros Hn. split; [|split; [|split]].
  - intros Hne. unfold process_target_genotypes.
    destruct (Z.eqb_spec ngt (2 * nsmpl)); [contradiction|reflexivity].
  - intros ->. unfold process_target_genotypes.
    rewrite Z.eqb_refl. simpl negb. cbv iota.
    rewrite quot_two_times by lia. rewrite tgt_loop_iff, Forall_forall.
    split.
    + intros H k Hk.
      assert (Hi : k / 2 ∈ seqZ 0 nsmpl).
      { apply elem_of_seqZ. split; [apply Z.div_pos; lia|].
        apply Z.div_lt_upper_bound; lia. }
      destruct (H _ Hi) as [H0 H1].
      assert (Hk2 : k = 2 * (k / 2) \/ k = 2 * (k / 2) + 1).
      { pose proof (Z.div_mod k 2 ltac:(lia)).
        pose proof (Z.mod_pos_bound k 2 ltac:(lia)). lia. }
      destruct Hk2 as [E|E]; rewrite E; assumption.
    + intros H i Hi. apply elem_of_seqZ in Hi. split; apply H; lia.
  - intros e. unfold process_target_genotypes.
    destruct (negb (ngt =? 2 * nsmpl)).
    + intros H. injection H as <-. auto.
    + intros H. apply tgt_loop_exit in H. tauto.
  - intros acc. apply process_target_length.
Qed.

Lemma ref_alleles_exit (ptr : Z -> Z) (js : list Z) : forall l e,
  for_each (ref_allele ptr) js l = Exit e -> e = RefHaploid.
Proof.
  induction js as [|j js IH]; intros l e; simpl; [discriminate|].
  destruct (ref_allele ptr l j) as [l'|e'] eqn:E; simpl.
  - apply IH.
  - intros H. injection H as <-. unfold ref_allele in E.
    destruct (ptr j =? bcf_int32_vector_end); [injection E as <-; auto|].
    destruct (bcf_gt_is_missing (ptr j)); [discriminate|].
    destruct ((j =? 1) && negb (bcf_gt_is_phased (ptr j))); discriminate.
Qed.

Lemma ref_loop_exit p gt refAltSwap ix : forall a e,
  for_each (ref_sample p gt refAltSwap) ix a = Exit e -> e = RefHaploid.
Proof.
  induction ix as [|i ix IH]; intros a e; simpl; [discriminate|].
  unfold ref_sample at 1.
  destruct (for_each (ref_allele _) _ _) as [l|e'] eqn:E; simpl.
  - apply IH.
  - intros H. injection H as <-. eapply ref_alleles_exit. exact E.
Qed.

Lemma ref_fold_length refAltSwap ls : forall a,
  length (ra_hapsRef (fold_left (ref_finish refAltSwap) ls a))
  = (length (ra_hapsRef a) + 2 * length ls)%nat.
Proof.
  induction ls as [|l ls IH]; intros a; simpl fold_left; [simpl; lia|].
  rewrite IH, ref_finish_eq. simpl.
  destruct refAltSwap; rewrite length_app; simpl; lia.
Qed.

Lemma process_ref_length nsmpl ngt gt refAltSwap hapsRef w r :
  process_ref_genotypes nsmpl ngt gt refAltSwap hapsRef w = Ok r ->
  length (ra_hapsRef r) = (length hapsRef + 2 * Z.to_nat nsmpl)%nat.
Proof.
  intros H. apply process_ref_inv in H. destruct H as [_ ->].
  rewrite ref_fold_length. unfold ref_calls.
  rewrite length_map, length_seqZ. reflexivity.
Qed.

(** [process_ref_genotypes] exits for a ploidy other than 2 before it
    reads the array; with ploidy 2 it returns exactly when no entry is
    the vector-end sentinel, whatever the alleles, missing or not; it
    exits for no reason but ploidy or a haploid sample; and when it
    returns it has appended exactly two bits per sample. *)
Theorem ref_encoder_exits (nsmpl ngt : Z) (gt : list Z) (refAltSwap : bool)
    (hapsRef : list bool) (w : Z) :
  0 < nsmpl ->
  (ngt <> 2 * nsmpl ->
   process_ref_genotypes nsmpl ngt gt refAltSwap hapsRef w = Exit RefPloidy)
  /\ (ngt = 2 * nsmpl ->
      ((exists r,
          process_ref_genotypes nsmpl ngt gt refAltSwap hapsRef w = Ok r)
       <-> forall k, 0 <= k < ngt -> rd gt k <> bcf_int32_vector_end))
  /\ (forall e,
        process_ref_genotypes nsmpl ngt gt refAltSwap hapsRef w = Exit e ->
        e = RefPloidy \/ e = RefHaploid)
  /\ (forall r,
        process_ref_genotypes nsmpl ngt gt refAltSwap hapsRef w = Ok r ->
        length (ra_hapsRef r) = (length hapsRef + 2 * Z.to_nat nsmpl)%nat).
Proof.
  intros Hn. split; [|split; [|split]].
  - intros Hne. unfold process_ref_genotypes.
    destruct (Z.eqb_spec ngt (2 * nsmpl)); [contradiction|reflexivity].
  - intros ->. split.
    + intros [r H] k Hk. unfold process_ref_genotypes in H.
      rewrite Z.eqb_refl in H. simpl negb in H. cbv iota in H.
      rewrite quot_two_times in H by lia.
      apply ref_loop_inv in H. rewrite Forall_forall in H.
      assert (Hi : k / 2 ∈ seqZ 0 nsmpl).
      { apply elem_of_seqZ. split; [apply Z.div_pos; lia|].
        apply Z.div_lt_upper_bound; lia. }
      destruct (H _ Hi) as [H0 H1].
      assert (Hk2 : k = 2 * (k / 2) \/ k = 2 * (k / 2) + 1).
      { pose proof (Z.div_mod k 2 ltac:(lia)).
        pose proof (Z.mod_pos_bound k 2 ltac:(lia)). lia. }
      destruct Hk2 as [E|E]; rewrite E; assumption.
    + intros H. eexists. apply process_ref_ok; assumption.
  - intros e. unfold process_ref_genotypes.
    destruct (negb (ngt =? 2 * nsmpl)).
    + intros H. injection H as <-. auto.
    + intros H. apply ref_loop_exit in H. auto.
  - intros r. apply process_ref_length.
Qed.

End EncoderExits.

(** ** What phase randomization leaves alone *)

Section PhaseKeeps.
Context {HTS : BcfGt}.

(** A reference call with both alleles present and the second marked
    phased is pushed in its order (inverted under [refAltSwap]), and
    neither the counters nor the generator state change. *)
Theorem ref_phased_verbatim (gt : list Z) (refAltSwap : bool) (a : ref_acc)
    (i : Z) :
  rd gt (2 * i) <> bcf_int32_vector_end ->
  rd gt (2 * i + 1) <> bcf_int32_vector_end ->
  bcf_gt_is_missing (rd gt (2 * i)) = false ->
  bcf_gt_is_missing (rd gt (2 * i + 1)) = false ->
  bcf_gt_is_phased (rd gt (2 * i + 1)) = true ->
  ref_sample 2 gt refAltSwap a i
  = Ok (RefAcc
          (ra_hapsRef a
             ++ [xorb refAltSwap (1 <=? bcf_gt_allele (rd gt (2 * i)));
                 xorb refAltSwap (1 <=? bcf_gt_allele (rd gt (2 * i + 1)))])
          (ra_numMissing a) (ra_numUnphased a) (ra_w a)).
Proof.
  intros H0 H1 M0 M1 Ph. rewrite ref_sample_ok by assumption.
  rewrite ref_finish_eq. unfold ref_pair, het_unphased, ref_locals_of.
  rewrite M0, M1, Ph. simpl. rewrite !Z.add_0_r.
  destruct refAltSwap; reflexivity.
Qed.

(** Phase randomization never changes a genotype: for a reference call
    with both alleles present, phased or not, the two bits pushed carry
    as many ALT alleles as the call, or 2 minus that many under
    [refAltSwap]. *)
Theorem ref_dosage_kept (gt : list Z) (refAltSwap : bool) (a : ref_acc)
    (i : Z) :
  rd gt (2 * i) <> bcf_int32_vector_end ->
  rd gt (2 * i + 1) <> bcf_int32_vector_end ->
  bcf_gt_is_missing (rd gt (2 * i)) = false ->
  bcf_gt_is_missing (rd gt (2 * i + 1)) = false ->
  exists x y a',
    ref_sample 2 gt refAltSwap a i = Ok a'
    /\ ra_hapsRef a' = ra_hapsRef a ++ [x; y]
    /\ Z.b2z x + Z.b2z y
       = if refAltSwap
         then 2 - dosage (rd gt (2 * i)) (rd gt (2 * i + 1))
         else dosage (rd gt (2 * i)) (rd gt (2 * i + 1)).
Proof.
  intros H0 H1 M0 M1. rewrite ref_sample_ok by assumption.
  rewrite ref_finish_eq. unfold ref_pair, het_unphased, ref_locals_of, dosage.
  rewrite M0, M1. simpl.
  destruct (1 <=? bcf_gt_allele (rd gt (2 * i))),
           (1 <=? bcf_gt_allele (rd gt (2 * i + 1))),
           (bcf_gt_is_phased (rd gt (2 * i + 1))),
           (Z.odd (mwc (ra_w a))), refAltSwap; simpl;
    (eexists; eexists; eexists; split; [reflexivity|];
     split; reflexivity).
Qed.

End PhaseKeeps.

(** ** One iteration of the joint loop, case by case *)

Section LineCases.
Context {HTS : BcfGt}.
Variable sscanf_d : string -> option Z.
Variables ref_hdr tgt_hdr : bcf_hdr.

Lemma process_target_exit_kinds nsmpl ngt gt genosTarget e :
  process_target_genotypes nsmpl ngt gt genosTarget = Exit e ->
  e = TargetPloidy \/ e = TargetHaploid \/ e = TargetMultiAllelic.
Proof.
  unfold process_target_genotypes. destruct (negb (ngt =? 2 * nsmpl)).
  - intros H. injection H as <-. auto.
  - intros H. apply tgt_loop_exit in H. tauto.
Qed.

Lemma process_ref_exit_kinds nsmpl ngt gt refAltSwap hapsRef w e :
  process_ref_genotypes nsmpl ngt gt refAltSwap hapsRef w = Exit e ->
  e = RefPloidy \/ e = RefHaploid.
Proof.
  unfold process_ref_genotypes. destruct (negb (ngt =? 2 * nsmpl)).
  - intros H. injection H as <-. auto.
  - intros H. apply ref_loop_exit in H. auto.
Qed.

(** [learn_chrom] touches [prev_rid] and [chrom] only, and only while
    [prev_rid] is negative. *)
Lemma learn_chrom_fields tgt s s1 :
  learn_chrom sscanf_d tgt_hdr tgt s = Ok s1 ->
  s1 = Sync (s_M s) (s_cnt s) (s_w s) (s_prev_rid s1) (s_chrom s1)
            (s_chrBps s) (s_hapsRef s) (s_genosTarget s) (s_out s)
  /\ (0 <= s_prev_rid s -> s_prev_rid s1 = s_prev_rid s
                           /\ s_chrom s1 = s_chrom s)
  /\ (s_prev_rid s < 0 -> s_prev_rid s1 = rid tgt)
  /\ (s_chrom s <> 0 -> s_chrom s1 = s_chrom s)
  /\ (s_chrom s = 0 -> s_chrom s1 = 0 \/ 1 <= s_chrom s1 <= 22).
Proof.
  unfold learn_chrom.
  destruct (Z.ltb_spec (s_prev_rid s) 0) as [Hneg|Hpos].
  - destruct (Z.eqb_spec (s_chrom s) 0) as [Hz|Hnz].
    + set (chrom := match sscanf_d _ with Some c => c | None => s_chrom s end).
      destruct (Z.leb_spec 1 chrom); simpl; [|discriminate].
      destruct (Z.leb_spec chrom 22); simpl; [|discriminate].
      intros E. injection E as <-. simpl.
      repeat split; try reflexivity; try lia.
    + intros E. injection E as <-. simpl.
      repeat split; try reflexivity; try lia.
  - intros E. injection E as <-. destruct s. simpl in *.
    repeat split; try reflexivity; try lia.
Qed.

Lemma accept_fields refAltSwap ref tgt s s2 :
  accept ref_hdr tgt_hdr refAltSwap ref tgt s = Ok s2 ->
  exists r t,
    process_ref_genotypes (Nref ref_hdr) (gt_n ref) (gt_arr ref) refAltSwap
      (s_hapsRef s) (s_w s) = Ok r
    /\ process_target_genotypes (Ntarget tgt_hdr) (gt_n tgt) (gt_arr tgt)
         (s_genosTarget s) = Ok t
    /\ s2 = Sync (uint64 (s_M s + 1))
              (tally_target (ta_numMissing t)
                 (tally_ref (ra_numMissing r) (ra_numUnphased r) (s_cnt s)))
              (ra_w r) (s_prev_rid s) (s_chrom s)
              (s_chrBps s ++ [(s_chrom s, int32 (pos tgt + 1))])
              (ra_hapsRef r) (ta_genosTarget t) (s_out s ++ [tgt]).
Proof.
  unfold accept.
  destruct (process_ref_genotypes _ _ _ _ _ _) as [r|]; [|discriminate].
  destruct (process_target_genotypes _ _ _ _) as [t|]; [|discriminate].
  simpl. intros E. injection E as <-. exists r, t. auto.
Qed.

(** The ways an iteration can end without exit: one of the five
    rejections, a break at a chromosome boundary, or an acceptance. *)
Lemma sync_line_cases allowRefAltSwap s ln f :
  sync_line sscanf_d ref_hdr tgt_hdr allowRefAltSwap s ln = Ok f ->
  (exists c,
     f = Next (with_cnt s c)
     /\ (c = inc_MtargetOnly (s_cnt s)
         \/ c = inc_MrefOnly (s_cnt s)
         \/ c = inc_MmultiAllelic (s_cnt s)
         \/ c = inc_Mmonomorphic (s_cnt s)
         \/ exists ref tgt,
              ln = (Some ref, Some tgt)
              /\ reconcile allowRefAltSwap ref tgt (s_cnt s) = (None, c)))
  \/ (exists ref tgt refAltSwap c s1,
        ln = (Some ref, Some tgt) /\ n_allele tgt = 2
        /\ reconcile allowRefAltSwap ref tgt (s_cnt s) = (Some refAltSwap, c)
        /\ learn_chrom sscanf_d tgt_hdr tgt (with_cnt s c) = Ok s1
        /\ ((s_prev_rid s1 <> rid tgt /\ f = Break s1)
            \/ (s_prev_rid s1 = rid tgt
                /\ exists s2,
                     accept ref_hdr tgt_hdr refAltSwap ref tgt s1 = Ok s2
                     /\ f = Next s2))).
Proof.
  unfold sync_line. destruct ln as [[ref|] [tgt|]]; simpl;
    try (intros E; injection E as <-; left; eexists; split;
         [reflexivity|tauto]).
  destruct (Z.ltb_spec 2 (n_allele tgt));
    [intros E; injection E as <-; left; eexists; split; [reflexivity|tauto]|].
  destruct (Z.ltb_spec (n_allele tgt) 2);
    [intros E; injection E as <-; left; eexists; split; [reflexivity|tauto]|].
  destruct (reconcile allowRefAltSwap ref tgt (s_cnt s)) as [[swap|] c] eqn:Er.
  - destruct (learn_chrom sscanf_d tgt_hdr tgt (with_cnt s c)) as [s1|] eqn:El;
      [|discriminate].
    simpl. intros E. right. exists ref, tgt, swap, c, s1.
    repeat split; try assumption; try lia.
    destruct (Z.eqb_spec (s_prev_rid s1) (rid tgt)) as [Eq|Ne]; simpl in E.
    + right. split; [assumption|].
      destruct (accept ref_hdr tgt_hdr swap ref tgt s1) as [s2|]; [|discriminate].
      simpl in E. injection E as <-. eauto.
    + left. injection E as <-. auto.
  - intros E. injection E as <-. left. eexists. split; [reflexivity|].
    do 4 right. eauto.
Qed.

End LineCases.

(** ** What the joint loop keeps *)

Section LoopKeeps.
Context {HTS : BcfGt}.
Variable sscanf_d : string -> option Z.
Variables ref_hdr tgt_hdr : bcf_hdr.

Lemma sync_shape_init chrom :
  sync_shape (Nref ref_hdr) (Ntarget tgt_hdr) (sync_init chrom).
Proof. constructor; simpl; try reflexivity; try lia. constructor. Qed.

Lemma sync_shape_learn tgt s c s1 :
  sync_inv s -> sync_shape (Nref ref_hdr) (Ntarget tgt_hdr) s ->
  learn_chrom sscanf_d tgt_hdr tgt (with_cnt s c) = Ok s1 ->
  sync_shape (Nref ref_hdr) (Ntarget tgt_hdr) s1.
Proof.
  intros Hinv [Hh Hg Hk Hb] Hl.
  apply learn_chrom_fields in Hl. simpl in Hl.
  destruct Hl as (E & _ & _ & Hnz & _). rewrite E.
  constructor; simpl; try assumption.
  destruct (Z.eq_dec (s_chrom s) 0) as [Hz|Hz].
  - assert (Hnil : s_chrBps s = []).
    { destruct (s_chrBps s) eqn:El; [reflexivity|].
      exfalso. apply (inv_nonempty s Hinv); [rewrite El; discriminate|assumption]. }
    rewrite Hnil in Hk. symmetry in Hk. apply map_eq_nil in Hk.
    rewrite Hnil, Hk. reflexivity.
  - rewrite (Hnz Hz). exact Hk.
Qed.

Lemma sync_shape_accept refAltSwap ref tgt s1 s2 :
  n_allele tgt = 2 ->
  sync_shape (Nref ref_hdr) (Ntarget tgt_hdr) s1 ->
  accept ref_hdr tgt_hdr refAltSwap ref tgt s1 = Ok s2 ->
  sync_shape (Nref ref_hdr) (Ntarget tgt_hdr) s2.
Proof.
  intros Ht [Hh Hg Hk Hb] Ha.
  apply accept_fields in Ha. destruct Ha as (r & t & Hr & Htg & ->).
  apply process_ref_length in Hr. apply process_target_length in Htg.
  constructor; simpl.
  - rewrite Hr, Hh, length_app. cbn [length].
    generalize (Z.to_nat (Nref ref_hdr)) (length (s_chrBps s1)). intros; nia.
  - rewrite Htg, Hg, length_app. cbn [length].
    generalize (Z.to_nat (Ntarget tgt_hdr)) (length (s_chrBps s1)). intros; nia.
  - rewrite map_app, <- Hk. reflexivity.
  - apply Forall_app. split; [assumption|]. constructor; [assumption|constructor].
Qed.

Lemma sync_line_shape allowRefAltSwap s ln f :
  sync_inv s -> sync_shape (Nref ref_hdr) (Ntarget tgt_hdr) s ->
  sync_line sscanf_d ref_hdr tgt_hdr allowRefAltSwap s ln = Ok f ->
  sync_shape (Nref ref_hdr) (Ntarget tgt_hdr) (flow_state f).
Proof.
  intros Hinv Hs Hl. apply sync_line_cases in Hl.
  destruct Hl as [(c & -> & _)|(ref & tgt & swap & c & s1 & _ & Ht & _ & Hlearn & Hf)].
  - destruct Hs. constructor; simpl; assumption.
  - pose proof (sync_shape_learn _ _ _ _ Hinv Hs Hlearn) as Hs1.
    destruct Hf as [[_ ->]|[_ (s2 & Ha & ->)]]; simpl; [assumption|].
    eapply sync_shape_accept; eassumption.
Qed.

Lemma sync_loop_shape allowRefAltSwap lines : forall s s',
  sync_inv s -> sync_shape (Nref ref_hdr) (Ntarget tgt_hdr) s ->
  sync_loop sscanf_d ref_hdr tgt_hdr allowRefAltSwap lines s = Ok s' ->
  sync_shape (Nref ref_hdr) (Ntarget tgt_hdr) s'.
Proof.
  induction lines as [|ln rest IH]; intros s s' Hinv Hs; simpl.
  - intros E. injection E as <-. assumption.
  - destruct (sync_line _ _ _ _ s ln) as [f|] eqn:El; [|discriminate].
    pose proof (sync_line_inv _ _ _ _ _ _ _ Hinv El) as Hinv'.
    pose proof (sync_line_shape _ _ _ _ Hinv Hs El) as Hs'.
    destruct f as [s1|s1]; simpl in *.
    + apply IH; assumption.
    + intros E. injection E as <-. assumption.
Qed.

(** The lines written are lines of the target, in the order read. *)
Lemma sync_loop_written allowRefAltSwap lines : forall s s',
  sync_loop sscanf_d ref_hdr tgt_hdr allowRefAltSwap lines s = Ok s' ->
  exists added,
    s_out s' = s_out s ++ added
    /\ map Some added `sublist_of` map snd lines.
Proof.
  induction lines as [|ln rest IH]; intros s s'; simpl.
  - intros E. injection E as <-. exists []. rewrite app_nil_r.
    split; [reflexivity|constructor].
  - destruct (sync_line _ _ _ _ s ln) as [f|] eqn:El; [|discriminate].
    apply sync_line_cases in El.
    destruct El as [(c & -> & _)
                   |(ref & tgt & swap & c & s1 & -> & _ & _ & Hlearn & Hf)];
      simpl.
    + intros H. apply IH in H. destruct H as (added & E & Hsub).
      exists added. split; [exact E|]. apply sublist_cons. exact Hsub.
    + apply learn_chrom_fields in Hlearn. destruct Hlearn as (E1 & _).
      destruct Hf as [[_ ->]|[_ (s2 & Ha & ->)]]; simpl.
      * intros E. injection E as <-. exists []. rewrite app_nil_r.
        split; [rewrite E1; reflexivity|apply sublist_nil_l].
      * intros H. apply IH in H. destruct H as (added & E & Hsub).
        apply accept_fields in Ha. destruct Ha as (r & t & _ & _ & ->).
        simpl in E. rewrite E1 in E. simpl in E.
        exists (tgt :: added). split; [rewrite E, <- app_assoc; reflexivity|].
        simpl. apply sublist_skip. exact Hsub.
Qed.

(** After the joint iteration the vectors have the lengths the
    packing loop indexes them by: [2*Nref] haplotype bits and [Ntarget]
    codes for each accepted line, one line written for each, and [M]
    counts them. *)
Theorem loop_vectors_shape (lines : list sr_line) (allowRefAltSwap : bool)
    (chrom : Z) (s : sync) :
  sync_loop sscanf_d ref_hdr tgt_hdr allowRefAltSwap lines (sync_init chrom)
  = Ok s ->
  length (s_hapsRef s)
  = (2 * Z.to_nat (Nref ref_hdr) * length (s_chrBps s))%nat
  /\ length (s_genosTarget s)
     = (Z.to_nat (Ntarget tgt_hdr) * length (s_chrBps s))%nat
  /\ length (s_out s) = length (s_chrBps s)
  /\ (length (s_chrBps s) <= length lines)%nat
  /\ s_M s = uint64 (Z.of_nat (length (s_chrBps s))).
Proof.
  intros Hrun.
  pose proof (sync_loop_inv _ _ _ _ _ _ _ (sync_inv_init chrom) Hrun) as Hinv.
  pose proof (sync_loop_shape _ _ _ _ (sync_inv_init chrom)
                (sync_shape_init chrom) Hrun) as [Hh Hg Hk Hb].
  assert (Hlen : length (s_out s) = length (s_chrBps s)).
  { rewrite Hk, length_map. reflexivity. }
  repeat split; try assumption.
  - apply sync_loop_written in Hrun. destruct Hrun as (added & E & Hsub).
    simpl in E. subst added. apply sublist_length in Hsub.
    rewrite !length_map in Hsub. rewrite <- Hlen. exact Hsub.
  - apply (inv_M s Hinv).
Qed.

(** Every line written is a line of the target read by the loop, the
    lines are written in the order read, each has exactly 2 alleles, and
    the key list pairs the chromosome number with the 1-based position
    of each line written, in the same order.  The position is stored as
    an [int]: it is [pos + 1] for a position up to [2^31 - 2], and wraps
    beyond. *)
Theorem written_lines (lines : list sr_line) (allowRefAltSwap : bool)
    (chrom : Z) (s : sync) :
  sync_loop sscanf_d ref_hdr tgt_hdr allowRefAltSwap lines (sync_init chrom)
  = Ok s ->
  map Some (s_out s) `sublist_of` map snd lines
  /\ Forall (fun t => n_allele t = 2) (s_out s)
  /\ s_chrBps s = map (fun t => (s_chrom s, int32 (pos t + 1))) (s_out s)
  /\ (Forall (fun t => 0 <= pos t < 2 ^ 31 - 1) (s_out s) ->
      s_chrBps s = map (fun t => (s_chrom s, pos t + 1)) (s_out s))
  /\ Forall (fun e => - 2 ^ 31 <= snd e < 2 ^ 31) (s_chrBps s).
Proof.
  intros Hrun.
  pose proof (sync_loop_shape _ _ _ _ (sync_inv_init chrom)
                (sync_shape_init chrom) Hrun) as [Hh Hg Hk Hb].
  apply sync_loop_written in Hrun. destruct Hrun as (added & E & Hsub).
  simpl in E. subst added.
  split; [exact Hsub|]. split; [exact Hb|]. split; [exact Hk|]. split.
  - intros Hpos. rewrite Hk. apply map_ext_in. intros t Ht.
    rewrite Forall_forall in Hpos. apply list_elem_of_In in Ht.
    specialize (Hpos t Ht). simpl in Hpos.
    rewrite int32_small by lia. reflexivity.
  - rewrite Hk. apply Forall_map. apply Forall_forall. intros t _. simpl.
    unfold int32.
    pose proof (Z.mod_pos_bound (pos t + 1 + 2 ^ 31) (2 ^ 32) ltac:(lia)). lia.
Qed.

End LoopKeeps.

Lemma reconcile_None allowRefAltSwap ref tgt c0 c :
  reconcile allowRefAltSwap ref tgt c0 = (None, c) -> c = inc_MrefAltError c0.
Proof.
  unfold reconcile. destruct allowRefAltSwap; [|discriminate].
  destruct (negb (n_allele tgt =? 2) || negb (n_allele ref =? 2));
    [intros E; injection E as <-; reflexivity|].
  destruct (streq _ _ && streq _ _); [discriminate|].
  destruct (streq _ _ && streq _ _); [discriminate|].
  intros E. injection E as <-. reflexivity.
Qed.

Lemma reconcile_Some allowRefAltSwap ref tgt c0 refAltSwap c :
  reconcile allowRefAltSwap ref tgt c0 = (Some refAltSwap, c) ->
  (refAltSwap = false /\ c = c0)
  \/ (allowRefAltSwap = true /\ refAltSwap = true /\ c = inc_numRefAltSwaps c0).
Proof.
  unfold reconcile. destruct allowRefAltSwap;
    [|intros E; injection E as <- <-; auto].
  destruct (negb (n_allele tgt =? 2) || negb (n_allele ref =? 2));
    [discriminate|].
  destruct (streq _ _ && streq _ _); [intros E; injection E as <- <-; auto|].
  destruct (streq _ _ && streq _ _); [|discriminate].
  intros E. injection E as <- <-. auto.
Qed.

Section LoopPolicies.
Context {HTS : BcfGt}.
Variable sscanf_d : string -> option Z.
Variables ref_hdr tgt_hdr : bcf_hdr.

Lemma sync_line_one_rid allowRefAltSwap s ln f :
  one_rid s -> (forall t, snd ln = Some t -> 0 <= rid t) ->
  sync_line sscanf_d ref_hdr tgt_hdr allowRefAltSwap s ln = Ok f ->
  one_rid (flow_state f).
Proof.
  intros Hs Hrid Hl. apply sync_line_cases in Hl.
  destruct Hl as [(c & -> & _)
                 |(ref & tgt & swap & c & s1 & -> & _ & _ & Hlearn & Hf)].
  - exact Hs.
  - apply learn_chrom_fields in Hlearn. simpl in Hlearn.
    destruct Hlearn as (E1 & Hpos & _).
    assert (Hs1 : one_rid s1).
    { unfold one_rid. rewrite E1. simpl. intros Hne.
      destruct (Hs Hne) as [Hp Hall]. destruct (Hpos Hp) as [-> _]. auto. }
    destruct Hf as [[_ ->]|[Heq (s2 & Ha & ->)]]; simpl; [exact Hs1|].
    apply accept_fields in Ha. destruct Ha as (r & t & _ & _ & ->).
    unfold one_rid. simpl. intros _.
    specialize (Hrid tgt eq_refl). split; [lia|].
    apply Forall_app. split; [|constructor; [auto|constructor]].
    destruct (s_out s1) eqn:Eo; [constructor|].
    rewrite <- Eo. apply Hs1. rewrite Eo. discriminate.
Qed.

Lemma sync_loop_one_rid allowRefAltSwap lines : forall s s',
  one_rid s ->
  Forall (fun ln : sr_line => forall t, snd ln = Some t -> 0 <= rid t) lines ->
  sync_loop sscanf_d ref_hdr tgt_hdr allowRefAltSwap lines s = Ok s' ->
  one_rid s'.
Proof.
  induction lines as [|ln rest IH]; intros s s' Hs Hall; simpl.
  - intros E. injection E as <-. assumption.
  - apply Forall_cons in Hall. destruct Hall as [Hln Hrest].
    destruct (sync_line _ _ _ _ s ln) as [f|] eqn:El; [|discriminate].
    pose proof (sync_line_one_rid _ _ _ _ Hs Hln El) as Hs'.
    destruct f as [s1|s1]; simpl in *.
    + apply IH; assumption.
    + intros E. injection E as <-. assumption.
Qed.

(** Single chromosome per run: when the contig ids of the target lines
    are non-negative, every line written carries the contig id the loop
    locked to at its first gated line. *)
Theorem single_chromosome (lines : list sr_line) (allowRefAltSwap : bool)
    (chrom : Z) (s : sync) :
  Forall (fun ln : sr_line => forall t, snd ln = Some t -> 0 <= rid t) lines ->
  sync_loop sscanf_d ref_hdr tgt_hdr allowRefAltSwap lines (sync_init chrom)
  = Ok s ->
  Forall (fun t => rid t = s_prev_rid s) (s_out s).
Proof.
  intros Hall Hrun.
  assert (H0 : one_rid (sync_init chrom)) by (intros H; contradiction).
  pose proof (sync_loop_one_rid _ _ _ _ H0 Hall Hrun) as Hs.
  destruct (s_out s) eqn:Eo; [constructor|].
  rewrite <- Eo. apply Hs. rewrite Eo. discriminate.
Qed.

Lemma sync_line_chrom_known chrom0 allowRefAltSwap s ln f :
  chrom_known chrom0 s ->
  sync_line sscanf_d ref_hdr tgt_hdr allowRefAltSwap s ln = Ok f ->
  chrom_known chrom0 (flow_state f).
Proof.
  intros Hs Hl. apply sync_line_cases in Hl.
  destruct Hl as [(c & -> & _)
                 |(ref & tgt & swap & c & s1 & -> & _ & _ & Hlearn & Hf)].
  - exact Hs.
  - apply learn_chrom_fields in Hlearn. simpl in Hlearn.
    destruct Hlearn as (_ & _ & _ & Hnz & Hz).
    assert (Hs1 : chrom_known chrom0 s1).
    { destruct Hs as [Ha Hb]. split.
      - intros Hc. rewrite Hnz; [auto|]. rewrite (Ha Hc). exact Hc.
      - intros Hc. destruct (Z.eq_dec (s_chrom s) 0) as [E|E]; [auto|].
        rewrite (Hnz E). auto. }
    destruct Hf as [[_ ->]|[_ (s2 & Ha & ->)]]; simpl; [exact Hs1|].
    apply accept_fields in Ha. destruct Ha as (r & t & _ & _ & ->).
    exact Hs1.
Qed.

Lemma sync_loop_chrom_known chrom0 allowRefAltSwap lines : forall s s',
  chrom_known chrom0 s ->
  sync_loop sscanf_d ref_hdr tgt_hdr allowRefAltSwap lines s = Ok s' ->
  chrom_known chrom0 s'.
Proof.
  induction lines as [|ln rest IH]; intros s s' Hs; simpl.
  - intros E. injection E as <-. assumption.
  - destruct (sync_line _ _ _ _ s ln) as [f|] eqn:El; [|discriminate].
    pose proof (sync_line_chrom_known _ _ _ _ _ Hs El) as Hs'.
    destruct f as [s1|s1]; simpl in *.
    + apply IH; assumption.
    + intros E. injection E as <-. assumption.
Qed.

Lemma sync_line_invalid allowRefAltSwap s ln :
  sync_line sscanf_d ref_hdr tgt_hdr allowRefAltSwap s ln
  = Exit InvalidChromosome ->
  s_chrom s = 0.
Proof.
  unfold sync_line. destruct ln as [[ref|] [tgt|]]; simpl; try discriminate.
  destruct (2 <? n_allele tgt); [discriminate|].
  destruct (n_allele tgt <? 2); [discriminate|].
  destruct (reconcile allowRefAltSwap ref tgt (s_cnt s)) as [[swap|] c];
    [|discriminate].
  destruct (learn_chrom sscanf_d tgt_hdr tgt (with_cnt s c)) as [s1|e] eqn:El.
  - simpl. destruct (negb (s_prev_rid s1 =? rid tgt)); [discriminate|].
    unfold accept.
    destruct (process_ref_genotypes _ _ _ _ _ _) as [r|e] eqn:Er; simpl.
    + destruct (process_target_genotypes _ _ _ _) as [t|e] eqn:Et; simpl;
        [discriminate|].
      intros E. injection E as ->.
      apply process_target_exit_kinds in Et.
      destruct Et as [?|[?|?]]; discriminate.
    + intros E. injection E as ->.
      apply process_ref_exit_kinds in Er. destruct Er; discriminate.
  - simpl. intros _. unfold learn_chrom in El. simpl in El.
    destruct (s_prev_rid s <? 0); [|discriminate].
    destruct (Z.eqb_spec (s_chrom s) 0); [assumption|discriminate].
Qed.

Lemma sync_loop_invalid chrom0 allowRefAltSwap lines : forall s,
  chrom_known chrom0 s ->
  sync_loop sscanf_d ref_hdr tgt_hdr allowRefAltSwap lines s
  = Exit InvalidChromosome ->
  chrom0 = 0.
Proof.
  induction lines as [|ln rest IH]; intros s Hs; simpl; [discriminate|].
  destruct (sync_line _ _ _ _ s ln) as [f|e] eqn:El; simpl.
  - pose proof (sync_line_chrom_known _ _ _ _ _ Hs El) as Hs'.
    destruct f as [s1|s1]; simpl in *; [apply IH; assumption|discriminate].
  - intros E. injection E as ->. apply sync_line_invalid in El.
    destruct Hs as [Ha _]. destruct (Z.eq_dec chrom0 0) as [|Hc]; [assumption|].
    rewrite (Ha Hc) in El. contradiction.
Qed.

(** Without a requested chromosome, the first chromosome check reads
    the number in the contig name of its line, and lets through only a
    number in 1..22. *)
Lemma learn_chrom_reads tgt s s1 :
  s_prev_rid s < 0 -> s_chrom s = 0 ->
  learn_chrom sscanf_d tgt_hdr tgt s = Ok s1 ->
  sscanf_d (bcf_hdr_id2name tgt_hdr (rid tgt)) = Some (s_chrom s1)
  /\ 1 <= s_chrom s1 <= 22 /\ s_prev_rid s1 = rid tgt.
Proof.
  intros Hneg Hz. unfold learn_chrom.
  destruct (Z.ltb_spec (s_prev_rid s) 0); [|lia].
  rewrite Hz. simpl.
  destruct (sscanf_d (bcf_hdr_id2name tgt_hdr (rid tgt))) as [c|];
    [|discriminate].
  destruct (Z.leb_spec 1 c); simpl; [|discriminate].
  destruct (Z.leb_spec c 22); simpl; [|discriminate].
  intros E. injection E as <-. simpl. repeat split; lia.
Qed.

Lemma learn_chrom_rejects tgt s :
  s_prev_rid s < 0 -> s_chrom s = 0 ->
  (forall c, sscanf_d (bcf_hdr_id2name tgt_hdr (rid tgt)) = Some c ->
             ~ 1 <= c <= 22) ->
  learn_chrom sscanf_d tgt_hdr tgt s = Exit InvalidChromosome.
Proof.
  intros Hneg Hz Hbad. unfold learn_chrom.
  destruct (Z.ltb_spec (s_prev_rid s) 0); [|lia].
  rewrite Hz. simpl.
  destruct (sscanf_d (bcf_hdr_id2name tgt_hdr (rid tgt))) as [c|];
    [|reflexivity].
  specialize (Hbad c eq_refl).
  destruct (Z.leb_spec 1 c); simpl; [|reflexivity].
  destruct (Z.leb_spec c 22); simpl; [lia|reflexivity].
Qed.

(** A gated line goes to the chromosome check with the flag of the
    reconciliation block. *)
Lemma sync_line_gated allowRefAltSwap s ref tgt refAltSwap :
  gated allowRefAltSwap (Some ref, Some tgt) = Some (refAltSwap, ref, tgt) ->
  sync_line sscanf_d ref_hdr tgt_hdr allowRefAltSwap s (Some ref, Some tgt)
  = (s1 <~ learn_chrom sscanf_d tgt_hdr tgt
             (with_cnt s (snd (reconcile allowRefAltSwap ref tgt (s_cnt s)))) ;;
     if negb (s_prev_rid s1 =? rid tgt) then Ok (Break s1)
     else s2 <~ accept ref_hdr tgt_hdr refAltSwap ref tgt s1 ;; Ok (Next s2)).
Proof.
  unfold gated, sync_line. simpl.
  destruct (2 <? n_allele tgt); [discriminate|].
  destruct (n_allele tgt <? 2); [discriminate|]. simpl.
  rewrite (reconcile_flag _ _ _ counters_init (s_cnt s)).
  destruct (reconcile allowRefAltSwap ref tgt (s_cnt s)) as [[swap|] c];
    [|discriminate].
  simpl. intros E. injection E as <-. reflexivity.
Qed.

(** A line that is not gated changes the tallies only. *)
Lemma sync_line_skipped allowRefAltSwap s ln :
  gated allowRefAltSwap ln = None ->
  exists c,
    sync_line sscanf_d ref_hdr tgt_hdr allowRefAltSwap s ln
    = Ok (Next (with_cnt s c)).
Proof.
  unfold gated, sync_line. destruct ln as [[ref|] [tgt|]]; simpl; eauto.
  destruct (2 <? n_allele tgt); [eauto|].
  destruct (n_allele tgt <? 2); [eauto|]. simpl.
  rewrite (reconcile_flag _ _ _ counters_init (s_cnt s)).
  destruct (reconcile allowRefAltSwap ref tgt (s_cnt s)) as [[swap|] c];
    [discriminate|eauto].
Qed.

Lemma sync_loop_skipped allowRefAltSwap skipped rest : forall s,
  Forall (fun ln => gated allowRefAltSwap ln = None) skipped ->
  exists c,
    sync_loop sscanf_d ref_hdr tgt_hdr allowRefAltSwap (skipped ++ rest) s
    = sync_loop sscanf_d ref_hdr tgt_hdr allowRefAltSwap rest (with_cnt s c).
Proof.
  induction skipped as [|ln skipped IH]; intros s Hall.
  - exists (s_cnt s). destruct s. reflexivity.
  - apply Forall_cons in Hall. destruct Hall as [Hln Hrest].
    destruct (sync_line_skipped allowRefAltSwap s ln Hln) as [c Hc].
    destruct (IH (with_cnt s c) Hrest) as [c' Hc'].
    exists c'. simpl. rewrite Hc. simpl. exact Hc'.
Qed.

Lemma sync_line_chrom_read allowRefAltSwap s ln f :
  chrom_read sscanf_d tgt_hdr s ->
  sync_line sscanf_d ref_hdr tgt_hdr allowRefAltSwap s ln = Ok f ->
  chrom_read sscanf_d tgt_hdr (flow_state f).
Proof.
  intros Hs Hl. apply sync_line_cases in Hl.
  destruct Hl as [(c & -> & _)
                 |(ref & tgt & swap & c & s1 & -> & _ & _ & Hlearn & Hf)].
  - exact Hs.
  - destruct Hs as [Hnil Hcons].
    pose proof (learn_chrom_keeps _ _ _ _ _ Hlearn) as (_ & _ & Eo & _).
    simpl in Eo.
    destruct (s_out s) as [|t0 out] eqn:Hout.
    + destruct (Hnil eq_refl) as [Hz Hneg].
      apply learn_chrom_reads in Hlearn; [|exact Hneg|exact Hz].
      destruct Hlearn as (Hread & Hrange & Hrid).
      destruct Hf as [[Hne _]|[_ (s2 & Ha & ->)]]; [contradiction|].
      apply accept_fields in Ha. destruct Ha as (r & t & _ & _ & ->).
      simpl. unfold chrom_read. simpl. rewrite Eo. simpl. split.
      * discriminate.
      * intros t1 rest E. injection E as <- _. auto.
    + destruct (Hcons t0 out eq_refl) as [Hread Hrange].
      apply learn_chrom_fields in Hlearn. simpl in Hlearn.
      destruct Hlearn as (_ & _ & _ & Hnz & _).
      specialize (Hnz ltac:(lia)).
      destruct Hf as [[_ ->]|[_ (s2 & Ha & ->)]]; simpl.
      * unfold chrom_read. rewrite Eo, Hnz. split; [discriminate|].
        intros t1 rest E. injection E as <- _. auto.
      * apply accept_fields in Ha. destruct Ha as (r & t & _ & _ & ->).
        unfold chrom_read. simpl. rewrite Eo, Hnz. simpl.
        split; [discriminate|].
        intros t1 rest E. injection E as <- _. auto.
Qed.

Lemma sync_loop_chrom_read allowRefAltSwap lines : forall s s',
  chrom_read sscanf_d tgt_hdr s ->
  sync_loop sscanf_d ref_hdr tgt_hdr allowRefAltSwap lines s = Ok s' ->
  chrom_read sscanf_d tgt_hdr s'.
Proof.
  induction lines as [|ln rest IH]; intros s s' Hs; simpl.
  - intros E. injection E as <-. assumption.
  - destruct (sync_line _ _ _ _ s ln) as [f|] eqn:El; [|discriminate].
    pose proof (sync_line_chrom_read _ _ _ _ Hs El) as Hs'.
    destruct f as [s1|s1]; simpl in *.
    + apply IH; assumption.
    + intros E. injection E as <-. assumption.
Qed.

(** The chromosome number.  Every key carries the chromosome number of
    the final state.  A requested chromosome is kept and its contig
    name is never checked, so the run cannot exit for an invalid
    chromosome.  Without a request the number is the one [sscanf] reads
    in the contig name of the first gated line, which is the first line
    written, and it lies in 1..22; when that name does not read as a
    number in 1..22 the run exits for an invalid chromosome. *)
Theorem chromosome_number (lines : list sr_line) (allowRefAltSwap : bool)
    (chrom : Z) :
  (forall s,
     sync_loop sscanf_d ref_hdr tgt_hdr allowRefAltSwap lines
       (sync_init chrom) = Ok s ->
     Forall (fun e => fst e = s_chrom s) (s_chrBps s)
     /\ (chrom <> 0 -> s_chrom s = chrom)
     /\ (chrom = 0 -> s_chrBps s <> [] -> 1 <= s_chrom s <= 22)
     /\ (chrom = 0 -> forall t rest, s_out s = t :: rest ->
           sscanf_d (bcf_hdr_id2name tgt_hdr (rid t)) = Some (s_chrom s))
     /\ (chrom = 0 -> forall skipped ref tgt refAltSwap rest,
           lines = skipped ++ (Some ref, Some tgt) :: rest ->
           Forall (fun ln => gated allowRefAltSwap ln = None) skipped ->
           gated allowRefAltSwap (Some ref, Some tgt)
           = Some (refAltSwap, ref, tgt) ->
           sscanf_d (bcf_hdr_id2name tgt_hdr (rid tgt)) = Some (s_chrom s)
           /\ exists rest', s_out s = tgt :: rest'))
  /\ (chrom <> 0 ->
      sync_loop sscanf_d ref_hdr tgt_hdr allowRefAltSwap lines
        (sync_init chrom) <> Exit InvalidChromosome)
  /\ (chrom = 0 -> forall skipped ref tgt refAltSwap rest,
        lines = skipped ++ (Some ref, Some tgt) :: rest ->
        Forall (fun ln => gated allowRefAltSwap ln = None) skipped ->
        gated allowRefAltSwap (Some ref, Some tgt)
        = Some (refAltSwap, ref, tgt) ->
        (forall c, sscanf_d (bcf_hdr_id2name tgt_hdr (rid tgt)) = Some c ->
                   ~ 1 <= c <= 22) ->
        sync_loop sscanf_d ref_hdr tgt_hdr allowRefAltSwap lines
          (sync_init chrom) = Exit InvalidChromosome).
Proof.
  assert (H0 : chrom_known chrom (sync_init chrom)).
  { split; simpl; auto. }
  split; [|split].
  - intros s Hrun.
    pose proof (sync_loop_inv _ _ _ _ _ _ _ (sync_inv_init chrom) Hrun) as Hinv.
    pose proof (sync_loop_chrom_known _ _ _ _ _ H0 Hrun) as [Ha Hb].
    split; [apply (inv_chr s Hinv)|]. split; [exact Ha|].
    split; [|split].
    + intros Hc Hne. pose proof (inv_nonempty s Hinv Hne).
      destruct (Hb Hc); [contradiction|assumption].
    + intros -> t rest Hout.
      assert (Hinit : chrom_read sscanf_d tgt_hdr (sync_init 0)).
      { split; simpl; [intros _; lia|discriminate]. }
      pose proof (sync_loop_chrom_read _ _ _ _ Hinit Hrun) as [_ Hcons].
      apply (Hcons t rest Hout).
    + intros -> skipped ref tgt swap rest -> Hskip Hgate.
      destruct (sync_loop_skipped allowRefAltSwap skipped
                  ((Some ref, Some tgt) :: rest) (sync_init 0) Hskip)
        as [c Hc].
      pose proof (eq_trans (eq_sym Hc) Hrun) as Hrun'. clear Hrun Hc.
      rename Hrun' into Hrun. simpl sync_loop in Hrun.
      rewrite (sync_line_gated _ _ _ _ _ Hgate) in Hrun.
      destruct (learn_chrom _ _ _ _) as [s1|] eqn:Hlearn; [|discriminate].
      pose proof (learn_chrom_keeps _ _ _ _ _ Hlearn) as (_ & _ & Eo & _).
      apply learn_chrom_reads in Hlearn; [|simpl; lia|reflexivity].
      destruct Hlearn as (Hread & Hrange & Hrid).
      simpl in Hrun. rewrite Hrid, Z.eqb_refl in Hrun. simpl in Hrun.
      destruct (accept _ _ _ _ _ _) as [s2|] eqn:Hacc; [|discriminate].
      simpl in Hrun.
      apply accept_fields in Hacc. destruct Hacc as (r & t & _ & _ & E2).
      assert (Hs2 : chrom_read sscanf_d tgt_hdr s2).
      { rewrite E2. unfold chrom_read. simpl. rewrite Eo. simpl.
        split; [discriminate|].
        intros t1 rest1 E. injection E as <- _. auto. }
      pose proof (sync_loop_chrom_read _ _ _ _ Hs2 Hrun) as [_ Hcons].
      apply sync_loop_written in Hrun. destruct Hrun as (added & Eout & _).
      rewrite E2 in Eout. simpl in Eout. rewrite Eo in Eout. simpl in Eout.
      split; [|eauto].
      apply (Hcons tgt added Eout).
  - intros Hc Hexit. apply (sync_loop_invalid _ _ _ _ H0) in Hexit.
    contradiction.
  - intros -> skipped ref tgt swap rest -> Hskip Hgate Hbad.
    destruct (sync_loop_skipped allowRefAltSwap skipped
                ((Some ref, Some tgt) :: rest) (sync_init 0) Hskip)
      as [c Hc].
    etransitivity; [exact Hc|]. simpl sync_loop.
    rewrite (sync_line_gated _ _ _ _ _ Hgate).
    rewrite learn_chrom_rejects; [reflexivity|simpl; lia|reflexivity|exact Hbad].
Qed.

Lemma sync_line_no_swap s ln f :
  numRefAltSwaps (s_cnt s) = 0 /\ MrefAltError (s_cnt s) = 0 ->
  sync_line sscanf_d ref_hdr tgt_hdr false s ln = Ok f ->
  numRefAltSwaps (s_cnt (flow_state f)) = 0
  /\ MrefAltError (s_cnt (flow_state f)) = 0.
Proof.
  intros Hs Hl. apply sync_line_cases in Hl.
  destruct Hl as [(c & -> & Hc)
                 |(ref & tgt & swap & c & s1 & -> & _ & Hr & Hlearn & Hf)].
  - simpl. destruct (s_cnt s); simpl in *.
    destruct Hc as [->|[->|[->|[->|(ref & tgt & _ & Hr)]]]]; simpl; try exact Hs.
    discriminate.
  - simpl in Hr. injection Hr as <- <-.
    apply learn_chrom_fields in Hlearn. simpl in Hlearn.
    destruct Hlearn as (E1 & _).
    destruct Hf as [[_ ->]|[_ (s2 & Ha & ->)]]; simpl.
    + rewrite E1. exact Hs.
    + apply accept_fields in Ha. destruct Ha as (r & t & _ & _ & ->).
      rewrite E1. simpl. destruct (s_cnt s); simpl in *. exact Hs.
Qed.

(** With allele-swap reconciliation disabled no line is counted as a
    swap or as a reconciliation error. *)
Theorem no_swap_when_disabled (lines : list sr_line) (chrom : Z) (s : sync) :
  sync_loop sscanf_d ref_hdr tgt_hdr false lines (sync_init chrom) = Ok s ->
  numRefAltSwaps (s_cnt s) = 0 /\ MrefAltError (s_cnt s) = 0.
Proof.
  assert (H0 : numRefAltSwaps (s_cnt (sync_init chrom)) = 0
               /\ MrefAltError (s_cnt (sync_init chrom)) = 0)
    by (split; reflexivity).
  revert H0. generalize (sync_init chrom). revert s.
  induction lines as [|ln rest IH]; intros s' s Hs; simpl.
  - intros E. injection E as <-. assumption.
  - destruct (sync_line _ _ _ _ s ln) as [f|] eqn:El; [|discriminate].
    pose proof (sync_line_no_swap _ _ _ Hs El) as Hs'.
    destruct f as [s1|s1]; simpl in *.
    + apply IH; assumption.
    + intros E. injection E as <-. assumption.
Qed.

End LoopPolicies.

Section LoopTallies.
Context {HTS : BcfGt}.
Variable sscanf_d : string -> option Z.
Variables ref_hdr tgt_hdr : bcf_hdr.

Lemma uint32_succ z : 0 <= z < 2 ^ 32 - 1 -> uint32 (z + 1) = z + 1.
Proof. intros H. unfold uint32. apply Z.mod_small. lia. Qed.

Lemma uint64_succ z : 0 <= z < 2 ^ 64 - 1 -> uint64 (z + 1) = z + 1.
Proof. intros H. unfold uint64. apply Z.mod_small. lia. Qed.

(** Every line the loop goes past is classified exactly once: while no
    tally is about to wrap, an iteration that does not break adds one
    to the sum of the five rejection tallies and [M], and a break adds
    nothing. *)
Theorem line_classified_once (allowRefAltSwap : bool) (s : sync)
    (ln : sr_line) (f : flow) :
  tallies_small s ->
  sync_line sscanf_d ref_hdr tgt_hdr allowRefAltSwap s ln = Ok f ->
  classified (flow_state f)
  = classified s + match f with Next _ => 1 | Break _ => 0 end.
Proof.
  intros (H1 & H2 & H3 & H4 & H5 & H6) Hl. apply sync_line_cases in Hl.
  destruct Hl as [(c & -> & Hc)
                 |(ref & tgt & swap & c & s1 & -> & _ & Hr & Hlearn & Hf)].
  - assert (Hc' : c = inc_MtargetOnly (s_cnt s) \/ c = inc_MrefOnly (s_cnt s)
                  \/ c = inc_MmultiAllelic (s_cnt s)
                  \/ c = inc_Mmonomorphic (s_cnt s)
                  \/ c = inc_MrefAltError (s_cnt s)).
    { destruct Hc as [?|[?|[?|[?|(ref & tgt & _ & Hr)]]]]; auto.
      apply reconcile_None in Hr. auto. }
    unfold classified. simpl. destruct (s_cnt s); simpl in *.
    destruct Hc' as [->|[->|[->|[->| ->]]]]; simpl;
      rewrite uint32_succ by assumption; lia.
  - assert (Hc : classified (with_cnt s c) = classified s).
    { apply reconcile_Some in Hr. unfold classified. simpl.
      destruct Hr as [[_ ->]|(_ & _ & ->)]; [reflexivity|].
      destruct (s_cnt s); reflexivity. }
    apply learn_chrom_fields in Hlearn. simpl in Hlearn.
    destruct Hlearn as (E1 & _).
    assert (Hc1 : classified s1 = classified s).
    { rewrite <- Hc, E1. reflexivity. }
    destruct Hf as [[_ ->]|[_ (s2 & Ha & ->)]]; simpl; [lia|].
    apply accept_fields in Ha. destruct Ha as (r & t & _ & _ & ->).
    rewrite <- Hc1. unfold classified. simpl.
    assert (HM : s_M s1 = s_M s) by (rewrite E1; reflexivity).
    rewrite HM, uint64_succ by assumption.
    destruct (s_cnt s1); simpl. lia.
Qed.

(** Lines with a record on one side only are never accepted: a run
    over such lines alone, and so a run over no line at all, exits for
    too few SNPs. *)
Theorem one_sided_lines_exit (lines : list sr_line) (allowRefAltSwap : bool)
    (chrom : Z) :
  Forall one_sided lines ->
  processVcfs sscanf_d ref_hdr tgt_hdr lines allowRefAltSwap chrom
  = Exit TooFewSnps.
Proof.
  intros Hall. unfold processVcfs.
  assert (H : forall s, exists s',
    sync_loop sscanf_d ref_hdr tgt_hdr allowRefAltSwap lines s = Ok s'
    /\ s_M s' = s_M s).
  { induction Hall as [|ln rest Hln _ IH]; intros s; simpl; [eauto|].
    unfold sync_line. destruct ln as [[ref|] [tgt|]]; simpl.
    - destruct Hln; discriminate.
    - apply (IH (with_cnt s (inc_MrefOnly (s_cnt s)))).
    - apply (IH (with_cnt s (inc_MtargetOnly (s_cnt s)))).
    - apply (IH (with_cnt s (inc_MtargetOnly (s_cnt s)))). }
  destruct (H (sync_init chrom)) as (s' & -> & HM). simpl.
  rewrite HM. reflexivity.
Qed.

End LoopTallies.

Section CtorComposition.
Context {HTS : BcfGt}.
Variable sscanf_d : string -> option Z.
Variables ref_hdr tgt_hdr : bcf_hdr.
Variable interp : Z -> Z -> float.

(** When the constructor returns, [processVcfs] has returned, and what
    the constructor holds is [buildGenoBits] applied to the [M], the
    haplotype vector, the genotype vector and the coordinates that came
    out of it.  These are at least 2 accepted SNPs with one coordinate,
    [2*Nref] haplotype bits and [Ntarget] codes per SNP, so every index
    the loops of [buildGenoBits] read is inside its vector.  The run is
    over fewer than [2^64] lines, so that [M] has not wrapped. *)
Theorem constructor_feeds_packer (lines : list sr_line)
    (allowRefAltSwap : bool) (chrom : Z) (cMmax : float) (built : packed) :
  Z.of_nat (length lines) < 2 ^ 64 ->
  SyncedVcfData sscanf_d ref_hdr tgt_hdr interp lines allowRefAltSwap chrom
    cMmax = Ok built ->
  exists s,
    processVcfs sscanf_d ref_hdr tgt_hdr lines allowRefAltSwap chrom = Ok s
    /\ let M := Z.to_nat (s_M s) in
       let nref := Z.to_nat (Nref ref_hdr) in
       let ntarget := Z.to_nat (Ntarget tgt_hdr) in
       let cMs := processMap interp (s_chrBps s) in
       built = buildGenoBits M nref ntarget (s_hapsRef s) (s_genosTarget s)
                 cMs cMmax
       /\ (2 <= M)%nat
       /\ M = length (s_chrBps s)
       /\ length cMs = M
       /\ length (s_hapsRef s) = (2 * nref * M)%nat
       /\ length (s_genosTarget s) = (ntarget * M)%nat
       /\ (forall m, (m < M)%nat -> (m < length cMs)%nat)
       /\ (forall m n, (m < M)%nat -> (n < nref)%nat ->
             (m * 2 * nref + 2 * n + 1 < length (s_hapsRef s))%nat)
       /\ (forall m n, (m < M)%nat -> (nref <= n < nref + ntarget)%nat ->
             (m * ntarget + n - nref < length (s_genosTarget s))%nat).
Proof.
  intros Hlines. unfold SyncedVcfData.
  destruct (processVcfs _ _ _ _ _ _) as [s|] eqn:Hproc; [|discriminate].
  simpl. destruct (ranges _ _) as [physRange cMrange].
  destruct ((physRange =? 0) || PrimFloat.eqb cMrange 0); [discriminate|].
  intros E. injection E as <-.
  exists s. split; [reflexivity|].
  unfold processVcfs in Hproc.
  destruct (sync_loop _ _ _ _ _ _) as [s0|] eqn:Hrun; [|discriminate].
  simpl in Hproc.
  destruct (Z.leb_spec (s_M s0) 1) as [|HM]; [discriminate|].
  injection Hproc as ->.
  pose proof (sync_loop_inv _ _ _ _ _ _ _ (sync_inv_init chrom) Hrun) as Hinv.
  pose proof (sync_loop_shape _ _ _ _ _ _ _ (sync_inv_init chrom)
                (sync_shape_init _ _ chrom) Hrun) as [Hh Hg Hk Hb].
  assert (Hle : (length (s_chrBps s) <= length lines)%nat).
  { apply sync_loop_written in Hrun. destruct Hrun as (added & E & Hsub).
    simpl in E. subst added. apply sublist_length in Hsub.
    rewrite !length_map in Hsub. rewrite Hk, length_map. exact Hsub. }
  assert (HMeq : s_M s = Z.of_nat (length (s_chrBps s))).
  { rewrite (inv_M s Hinv). unfold uint64. apply Z.mod_small. lia. }
  cbv zeta.
  assert (HMnat : Z.to_nat (s_M s) = length (s_chrBps s)).
  { rewrite HMeq, Nat2Z.id. reflexivity. }
  rewrite HMnat.
  assert (Hc : length (processMap interp (s_chrBps s)) = length (s_chrBps s)).
  { unfold processMap. apply length_map. }
  rewrite Hc, Hh, Hg.
  generalize dependent (length (s_chrBps s)). intros M Hh Hg _ _ HMnat _.
  generalize (Z.to_nat (Nref ref_hdr)) (Z.to_nat (Ntarget tgt_hdr)).
  intros nref ntarget.
  split; [reflexivity|]. split; [lia|]. split; [reflexivity|].
  split; [reflexivity|]. split; [reflexivity|]. split; [reflexivity|].
  split; [auto|]. split; intros m n Hm Hn; nia.
Qed.

End CtorComposition.

(** ** The sizes of the segments *)

Lemma list_sum_upper (b : nat) (l : list nat) :
  Forall (fun x => (x <= b)%nat) l -> (list_sum l <= b * length l)%nat.
Proof. induction 1 as [|x l Hx _ IH]; simpl; [lia|]. nia. Qed.

Lemma list_sum_lower (b : nat) (l : list nat) :
  Forall (fun x => (b <= x)%nat) l -> (b * length l <= list_sum l)%nat.
Proof. induction 1 as [|x l Hx _ IH]; simpl; [lia|]. nia. Qed.

Lemma closes_length cMs cMmax cur m :
  closes cMs cMmax cur m = true -> (16 <= length cur)%nat.
Proof.
  unfold closes. intros H. apply orb_true_iff in H. destruct H as [H|H].
  - apply Nat.eqb_eq in H. lia.
  - apply andb_true_iff in H. destruct H as [H _]. apply Nat.leb_le in H. lia.
Qed.

(** The state of the segmentation loop: closed segments of 16 to 64
    SNPs and a current segment of at most 64. *)
Lemma segment_closed_sizes cMs cMmax M :
  let s := fold_left (seg_step cMs cMmax) (seq 0 M) (SegState [] [] [] []) in
  Forall (fun seg => (16 <= length seg <= 64)%nat) (seg64snpInds s)
  /\ (length (snpInds s) <= 64)%nat
  /\ list_sum (map length (seg64snpInds s ++ [snpInds s])) = M.
Proof.
  intros s. subst s.
  destruct (seg_inv_loop cMs cMmax M) as [Hcov HcM HcMs Hcl Hcur Hpos Hin Hb].
  set (s := fold_left (seg_step cMs cMmax) (seq 0 M) (SegState [] [] [] [])) in *.
  split; [|split; [assumption|]].
  - apply Forall_lookup. intros k seg Hk.
    pose proof (proj1 (Forall_lookup _ _) Hcl k seg Hk) as Hlen.
    simpl in Hlen. split; [|lia].
    assert (HM : (0 < M)%nat).
    { destruct M; [|lia]. subst s. simpl in Hk. destruct k; discriminate. }
    assert (Hnext : exists seg' m,
      (seg64snpInds s ++ [snpInds s]) !! S k = Some seg'
      /\ seg' !! 0%nat = Some m).
    { pose proof (lookup_lt_Some _ _ _ Hk) as Hlt.
      destruct (Nat.lt_ge_cases (S k) (length (seg64snpInds s))) as [H1|H1].
      - destruct (lookup_lt_is_Some_2 _ _ H1) as [seg' Hs'].
        pose proof (proj1 (Forall_lookup _ _) Hcl _ _ Hs') as Hl'.
        destruct seg' as [|m seg']; [simpl in Hl'; lia|].
        exists (m :: seg'), m. split; [|reflexivity].
        rewrite lookup_app_l by assumption. exact Hs'.
      - specialize (Hpos HM).
        destruct (snpInds s) as [|m cur] eqn:Ec; [simpl in Hpos; lia|].
        exists (m :: cur), m. split; [|reflexivity].
        rewrite lookup_app_r by lia.
        replace (S k - length (seg64snpInds s))%nat with 0%nat by lia.
        reflexivity. }
    destruct Hnext as (seg' & m & Hs' & Hm).
    eapply closes_length. eapply (Hb k seg seg' m); try eassumption.
    apply lookup_app_l_Some. exact Hk.
  - rewrite <- length_concat, concat_app. simpl.
    rewrite app_nil_r, Hcov, length_seq. reflexivity.
Qed.

(** Every segment but the last has between 16 and 64 SNPs and the last
    at most 64; so there is at least one segment, [M] is at most 64
    times the number of segments, and at least 16 times the number of
    segments but one. *)
Theorem segment_sizes (M Nref_ Ntarget_ : nat) (hapsRef : list bool)
    (genosTarget : list Z) (cMs : list float) (cMmax : float) :
  let built := buildGenoBits M Nref_ Ntarget_ hapsRef genosTarget cMs cMmax in
  let segs := p_seg64snpInds built in
  (forall k seg, segs !! k = Some seg -> (S k < length segs)%nat ->
     (16 <= length seg <= 64)%nat)
  /\ Forall (fun seg => (length seg <= 64)%nat) segs
  /\ (1 <= Mseg64 built)%nat
  /\ (M <= 64 * Mseg64 built)%nat
  /\ (16 * (Mseg64 built - 1) <= M)%nat.
Proof.
  intros built segs. subst built segs. unfold_built. unfold segment.
  cbn [seg64snpInds].
  destruct (segment_closed_sizes cMs cMmax M) as (Hcl & Hcur & Hsum).
  set (s := fold_left (seg_step cMs cMmax) (seq 0 M) (SegState [] [] [] [])) in *.
  assert (Hall : Forall (fun seg => (length seg <= 64)%nat)
                   (seg64snpInds s ++ [snpInds s])).
  { apply Forall_app. split; [|constructor; [assumption|constructor]].
    eapply Forall_impl; [exact Hcl|]. simpl. intros; lia. }
  rewrite length_app. simpl length.
  split; [|split; [exact Hall|split; [lia|split]]].
  - intros k seg Hk Hlt. rewrite lookup_app_l in Hk by lia.
    apply (proj1 (Forall_lookup _ _) Hcl k seg Hk).
  - rewrite <- Hsum at 1.
    pose proof (list_sum_upper 64 (map length (seg64snpInds s ++ [snpInds s])))
      as Hu.
    rewrite length_map, length_app in Hu. simpl in Hu. apply Hu.
    apply Forall_map. exact Hall.
  - rewrite <- Hsum. rewrite map_app, list_sum_app.
    pose proof (list_sum_lower 16 (map length (seg64snpInds s))) as Hl.
    rewrite length_map in Hl.
    assert (H16 : Forall (fun x => (16 <= x)%nat) (map length (seg64snpInds s))).
    { apply Forall_map. eapply Forall_impl; [exact Hcl|]. simpl. intros; lia. }
    specialize (Hl H16). replace (length (seg64snpInds s) + 1 - 1)%nat
      with (length (seg64snpInds s)) by lia. lia.
Qed.

(** ** Reading the planes back *)

Lemma or_plane_sets q i (b : bool) j g :
  (i < length g)%nat -> b = true -> (j < 64)%nat ->
  bit (or_plane q i (shl64 (Z.b2z b) j) g) q i j = true.
Proof.
  intros Hi -> Hj. rewrite bit_or_plane, shl64_bit.
  rewrite bool_decide_eq_true_2 by auto.
  rewrite Nat.eqb_refl. simpl.
  destruct (Nat.ltb_spec j 64); [apply orb_true_r|lia].
Qed.

Section PackReads.
Variables (Nref_ Ntarget_ : nat) (hapsRef : list bool) (genosTarget : list Z).

(** The packing loop sets the bit of every call it reads as set. *)
Lemma pack_sets_call segs p m64 n j :
  (m64 < length segs)%nat -> (n < N_ Nref_ Ntarget_)%nat ->
  (j < length (nth m64 segs []))%nat -> (j < 64)%nat ->
  call_bit Nref_ Ntarget_ hapsRef genosTarget p n
    (nth j (nth m64 segs []) 0%nat) = true ->
  bit (pack Nref_ Ntarget_ hapsRef genosTarget segs) p
      (m64 * N_ Nref_ Ntarget_ + n) j = true.
Proof.
  intros Hm Hn Hj Hj64 Hc. unfold pack.
  apply (fold_left_sets _ _ m64); [apply grows_pack_seg|apply in_seq; lia|].
  intros g Hg. rewrite length_replicate in Hg. unfold pack_seg.
  apply (grows_fold _ _ (fun g0 x =>
           grows_pad_indiv Nref_ Ntarget_ m64 (nth m64 segs []) g0 x)).
  apply (fold_left_sets _ _ j); [apply grows_pack_snp|apply in_seq; lia|].
  intros g1 Hg1. unfold pack_snp.
  assert (Hi : forall g2 : list uint64_masks, length g2 = length g1 ->
            (m64 * N_ Nref_ Ntarget_ + n < length g2)%nat).
  { intros g2 Hg2. rewrite Hg2, Hg1, Hg. nia. }
  unfold call_bit in Hc.
  destruct (Nat.ltb_spec n Nref_) as [Hlt|Hge].
  - apply (grows_fold _ _ (fun g0 x =>
             grows_pack_target Nref_ Ntarget_ genosTarget m64 j
               (nth j (nth m64 segs []) 0%nat) g0 x)).
    apply (fold_left_sets _ _ n); [apply grows_pack_ref|apply in_seq; lia|].
    intros g2 Hg2. unfold pack_ref.
    change or_is2 with (or_plane P2). change or_is0 with (or_plane P0).
    destruct p; [|..|discriminate].
    + apply grows_or_plane. apply or_plane_sets; auto.
    + apply or_plane_sets; [rewrite length_or_plane|..]; auto.
  - apply (fold_left_sets _ _ n);
      [apply grows_pack_target|apply in_seq; unfold N_ in Hn; lia|].
    intros g2 Hg2. unfold pack_target. change or_is9 with (or_plane P9).
    change or_is2 with (or_plane P2). change or_is0 with (or_plane P0).
    assert (Hi2 : (m64 * N_ Nref_ Ntarget_ + n < length g2)%nat).
    { apply Hi. rewrite Hg2.
      apply (grows_fold _ _ (fun g0 x =>
               grows_pack_ref Nref_ Ntarget_ hapsRef m64 j
                 (nth j (nth m64 segs []) 0%nat) g0 x)). }
    destruct p.
    + apply grows_or_plane. apply grows_or_plane. apply or_plane_sets; auto.
    + apply grows_or_plane.
      apply or_plane_sets; [rewrite length_or_plane|..]; auto.
    + apply or_plane_sets; [rewrite !length_or_plane|..]; auto.
Qed.

(** No position carries both a bit of [is9] and a bit of another
    plane; a target individual carries at no position both [is0] and
    [is2]. *)
Lemma pack_exclusive segs p q i k :
  p <> q ->
  (p = P9 \/ q = P9
   \/ exists m64 n, i = (m64 * N_ Nref_ Ntarget_ + n)%nat
                    /\ (Nref_ <= n < N_ Nref_ Ntarget_)%nat) ->
  bit (pack Nref_ Ntarget_ hapsRef genosTarget segs) p i k
  && bit (pack Nref_ Ntarget_ hapsRef genosTarget segs) q i k = false.
Proof.
  intros Hpq Hcase. apply not_true_is_false. intros H.
  apply andb_true_iff in H. destruct H as [Hp Hq].
  apply sound_pack in Hp. apply sound_pack in Hq.
  destruct Hp as (m1 & n1 & E1 & Hn1 & Hm1 & Hp).
  destruct Hq as (m2 & n2 & E2 & Hn2 & Hm2 & Hq).
  rewrite E1 in E2. apply index_inj in E2; [|assumption..].
  destruct E2 as [<- <-].
  assert (Hn : forall m64 n, i = (m64 * N_ Nref_ Ntarget_ + n)%nat ->
            (n < N_ Nref_ Ntarget_)%nat -> n = n1).
  { intros m64 n E Hlt. rewrite E1 in E.
    apply index_inj in E; [destruct E; congruence|assumption..]. }
  destruct Hp as [[Hk1 Hc1]|[-> Hk1]]; destruct Hq as [[Hk2 Hc2]|[-> Hk2]];
    try lia; try contradiction.
  unfold call_bit in Hc1, Hc2.
  destruct (Nat.ltb_spec n1 Nref_) as [Hlt|Hge].
  - destruct Hcase as [->|[->|(m64 & n & E & Hr)]]; try discriminate.
    rewrite (Hn m64 n E ltac:(lia)) in Hr. lia.
  - destruct p, q; try contradiction;
      repeat match goal with
             | H : (_ =? _) = true |- _ => apply Z.eqb_eq in H
             end; lia.
Qed.

End PackReads.

Lemma land_zero_bits (a b : Z) :
  (forall k : nat,
     Z.testbit a (Z.of_nat k) && Z.testbit b (Z.of_nat k) = false) ->
  Z.land a b = 0.
Proof.
  intros H. apply Z.bits_inj'. intros n Hn.
  rewrite Z.land_spec, Z.bits_0, <- (Z2Nat.id n Hn). apply H.
Qed.

Lemma segment_le_64 M cMs cMmax m64 :
  (length (nth m64 (seg64snpInds (segment M cMs cMmax)) []) <= 64)%nat.
Proof.
  unfold segment. cbn [seg64snpInds].
  destruct (segment_closed_sizes cMs cMmax M) as (Hcl & Hcur & _).
  set (s := fold_left (seg_step cMs cMmax) (seq 0 M) (SegState [] [] [] [])) in *.
  assert (Hall : Forall (fun seg => (length seg <= 64)%nat)
                   (seg64snpInds s ++ [snpInds s])).
  { apply Forall_app. split; [|constructor; [assumption|constructor]].
    eapply Forall_impl; [exact Hcl|]. simpl. intros; lia. }
  destruct (nth_in_or_default m64 (seg64snpInds s ++ [snpInds s]) []) as [Hin | ->].
  - apply list_elem_of_In in Hin.
    apply (proj1 (Forall_forall _ _) Hall _ Hin).
  - simpl. lia.
Qed.

(** The planes read back: for a reference individual and a position
    inside a segment, the [is0] bit is the first haplotype bit of the
    sample at that SNP and the [is2] bit the second. *)
Theorem packed_reference_bits (M Nref_ Ntarget_ : nat) (hapsRef : list bool)
    (genosTarget : list Z) (cMs : list float) (cMmax : float)
    (m64 n j : nat) :
  let built := buildGenoBits M Nref_ Ntarget_ hapsRef genosTarget cMs cMmax in
  let seg := nth m64 (p_seg64snpInds built) [] in
  let m := nth j seg 0%nat in
  let x := genoBits built !!! (m64 * (Nref_ + Ntarget_) + n)%nat in
  (m64 < Mseg64 built)%nat -> (n < Nref_)%nat -> (j < length seg)%nat ->
  Z.testbit (is0 x) (Z.of_nat j) = nth (m * 2 * Nref_ + 2 * n)%nat hapsRef false
  /\ Z.testbit (is2 x) (Z.of_nat j)
     = nth (m * 2 * Nref_ + 2 * n + 1)%nat hapsRef false.
Proof.
  intros built seg m x Hm Hn Hj. subst built seg m x. unfold_built.
  set (segs := seg64snpInds (segment M cMs cMmax)) in *.
  pose proof (segment_le_64 M cMs cMmax m64) as H64. fold segs in H64.
  assert (Hlt : (n <? Nref_)%nat = true) by (apply Nat.ltb_lt; lia).
  assert (H : forall p,
    bit (pack Nref_ Ntarget_ hapsRef genosTarget segs) p
        (m64 * (Nref_ + Ntarget_) + n) j
    = call_bit Nref_ Ntarget_ hapsRef genosTarget p n
        (nth j (nth m64 segs []) 0%nat)).
  { intros p. destruct (call_bit _ _ _ _ _ _ _) eqn:Ec.
    - apply pack_sets_call; try assumption; unfold N_; lia.
    - destruct (bit _ _ _ _) eqn:E; [|reflexivity]. exfalso.
      apply sound_pack in E.
      destruct E as (m64' & n' & Hi & Hn' & Hm' & [[Hk Hc]|[_ Hk]]);
        (apply index_inj in Hi; [|unfold N_ in *; lia..]);
        destruct Hi as [<- <-]; [congruence|lia]. }
  pose proof (H P0) as H0. pose proof (H P2) as H2.
  unfold call_bit in H0, H2. rewrite Hlt in H0, H2. split; assumption.
Qed.

(** The planes read back: for a target individual and a position
    inside a segment, the [is0], [is2] and [is9] bits say whether the
    genotype code of the sample at that SNP is 0, 2 or 9. *)
Theorem packed_target_bits (M Nref_ Ntarget_ : nat) (hapsRef : list bool)
    (genosTarget : list Z) (cMs : list float) (cMmax : float)
    (m64 n j : nat) :
  let built := buildGenoBits M Nref_ Ntarget_ hapsRef genosTarget cMs cMmax in
  let seg := nth m64 (p_seg64snpInds built) [] in
  let geno := nth (nth j seg 0%nat * Ntarget_ + n - Nref_)%nat genosTarget 0 in
  let x := genoBits built !!! (m64 * (Nref_ + Ntarget_) + n)%nat in
  (m64 < Mseg64 built)%nat -> (Nref_ <= n < Nref_ + Ntarget_)%nat ->
  (j < length seg)%nat ->
  Z.testbit (is0 x) (Z.of_nat j) = (geno =? 0)
  /\ Z.testbit (is2 x) (Z.of_nat j) = (geno =? 2)
  /\ Z.testbit (is9 x) (Z.of_nat j) = (geno =? 9).
Proof.
  intros built seg geno x Hm Hn Hj. subst built seg geno x. unfold_built.
  set (segs := seg64snpInds (segment M cMs cMmax)) in *.
  pose proof (segment_le_64 M cMs cMmax m64) as H64. fold segs in H64.
  assert (Hlt : (n <? Nref_)%nat = false) by (apply Nat.ltb_ge; lia).
  assert (H : forall p,
    bit (pack Nref_ Ntarget_ hapsRef genosTarget segs) p
        (m64 * (Nref_ + Ntarget_) + n) j
    = call_bit Nref_ Ntarget_ hapsRef genosTarget p n
        (nth j (nth m64 segs []) 0%nat)).
  { intros p. destruct (call_bit _ _ _ _ _ _ _) eqn:Ec.
    - apply pack_sets_call; try assumption; unfold N_; lia.
    - destruct (bit _ _ _ _) eqn:E; [|reflexivity]. exfalso.
      apply sound_pack in E.
      destruct E as (m64' & n' & Hi & Hn' & Hm' & [[Hk Hc]|[_ Hk]]);
        (apply index_inj in Hi; [|unfold N_ in *; lia..]);
        destruct Hi as [<- <-]; [congruence|lia]. }
  pose proof (H P0) as H0. pose proof (H P2) as H2. pose proof (H P9) as H9.
  unfold call_bit in H0, H2, H9. rewrite Hlt in H0, H2, H9.
  split; [assumption|]. split; assumption.
Qed.

(** The planes never overlap where the downstream bitwise code relies
    on it: in every entry of [genoBits] the mask [is9] is disjoint from
    [is0] and from [is2], and for a target individual [is0] and [is2]
    are disjoint as well. *)
Theorem planes_disjoint (M Nref_ Ntarget_ : nat) (hapsRef : list bool)
    (genosTarget : list Z) (cMs : list float) (cMmax : float) :
  let built := buildGenoBits M Nref_ Ntarget_ hapsRef genosTarget cMs cMmax in
  (forall i,
     Z.land (is0 (genoBits built !!! i)) (is9 (genoBits built !!! i)) = 0
     /\ Z.land (is2 (genoBits built !!! i)) (is9 (genoBits built !!! i)) = 0)
  /\ (forall m64 n,
        (Nref_ <= n < Nref_ + Ntarget_)%nat ->
        Z.land (is0 (genoBits built !!! (m64 * (Nref_ + Ntarget_) + n)%nat))
               (is2 (genoBits built !!! (m64 * (Nref_ + Ntarget_) + n)%nat))
        = 0).
Proof.
  intros built. subst built. unfold_built.
  set (segs := seg64snpInds (segment M cMs cMmax)).
  split.
  - intros i. split; apply land_zero_bits; intros k.
    + apply (pack_exclusive Nref_ Ntarget_ hapsRef genosTarget segs P0 P9 i k);
        [discriminate|auto].
    + apply (pack_exclusive Nref_ Ntarget_ hapsRef genosTarget segs P2 P9 i k);
        [discriminate|auto].
  - intros m64 n Hn. apply land_zero_bits. intros k.
    apply (pack_exclusive Nref_ Ntarget_ hapsRef genosTarget segs P0 P2
             (m64 * (Nref_ + Ntarget_) + n) k); [discriminate|].
    right. right. exists m64, n. split; [reflexivity|exact Hn].
Qed.

(** ** The counters of the reference encoder *)

Section RefCounters.
Context {HTS : BcfGt}.

Lemma ref_fold_counts refAltSwap ls : forall a,
  ra_numMissing (fold_left (ref_finish refAltSwap) ls a)
  = ra_numMissing a + Z.of_nat (length (List.filter r_missing ls))
  /\ ra_numUnphased (fold_left (ref_finish refAltSwap) ls a)
     = ra_numUnphased a
       + Z.of_nat (length (List.filter
           (fun l => negb (r_missing l) && r_unphased l) ls)).
Proof.
  induction ls as [|l ls IH]; intros a; simpl fold_left.
  - simpl. lia.
  - destruct (IH (ref_finish refAltSwap a l)) as [-> ->].
    rewrite ref_finish_eq. simpl.
    destruct (r_missing l), (r_unphased l); simpl; lia.
Qed.

Lemma filter_counts_disjoint (ls : list ref_locals) :
  (length (List.filter r_missing ls)
   + length (List.filter (fun l => negb (r_missing l) && r_unphased l) ls)
   <= length ls)%nat.
Proof.
  induction ls as [|l ls IH]; simpl; [lia|].
  destruct (r_missing l), (r_unphased l); simpl; lia.
Qed.

(** The counters [process_ref_genotypes] returns: the number of samples
    with a missing allele, and the number of samples with both alleles
    present and the second not phased; no sample is counted in both, so
    together they are at most the number of samples. *)
Theorem ref_counters (nsmpl ngt : Z) (gt : list Z) (refAltSwap : bool)
    (hapsRef : list bool) (w : Z) (r : ref_acc) :
  process_ref_genotypes nsmpl ngt gt refAltSwap hapsRef w = Ok r ->
  ra_numMissing r
  = Z.of_nat (length (List.filter r_missing (ref_calls gt (seqZ 0 nsmpl))))
  /\ ra_numUnphased r
     = Z.of_nat (length (List.filter
         (fun l => negb (r_missing l) && r_unphased l)
         (ref_calls gt (seqZ 0 nsmpl))))
  /\ 0 <= ra_numMissing r /\ 0 <= ra_numUnphased r
  /\ ra_numMissing r + ra_numUnphased r <= Z.of_nat (Z.to_nat nsmpl).
Proof.
  intros H. apply process_ref_inv in H. destruct H as [_ ->].
  destruct (ref_fold_counts refAltSwap (ref_calls gt (seqZ 0 nsmpl))
              (RefAcc hapsRef 0 0 w)) as [-> ->].
  simpl. pose proof (filter_counts_disjoint (ref_calls gt (seqZ 0 nsmpl))) as Hd.
  unfold ref_calls in Hd at 3. rewrite length_map, length_seqZ in Hd.
  repeat split; lia.
Qed.

End RefCounters.

(** ** The further properties on the examples *)

Lemma target_encoder_exits_witness :
  process_target_genotypes (HTS := htslib_vcf) 1 3
    [bcf_gt_unphased 0; bcf_gt_unphased 1; bcf_gt_unphased 0] []
  = Exit TargetPloidy.
Proof.
  apply (proj1 (target_encoder_exits (HTS := htslib_vcf) 1 3
    [bcf_gt_unphased 0; bcf_gt_unphased 1; bcf_gt_unphased 0] []
    ltac:(lia))).
  lia.
Defined.

Lemma ref_encoder_exits_witness :
  process_ref_genotypes (HTS := htslib_vcf) 1 3
    [bcf_gt_unphased 0; bcf_gt_phased 1; bcf_gt_unphased 0] false [] w_init
  = Exit RefPloidy.
Proof.
  apply (proj1 (ref_encoder_exits (HTS := htslib_vcf) 1 3
    [bcf_gt_unphased 0; bcf_gt_phased 1; bcf_gt_unphased 0] false [] w_init
    ltac:(lia))).
  lia.
Defined.

(** The phased call [1|0] under [refAltSwap]. *)
Lemma ref_phased_verbatim_witness :
  ref_sample (HTS := htslib_vcf) 2 [bcf_gt_unphased 1; bcf_gt_phased 0] true
    (RefAcc [] 0 0 w_init) 0
  = Ok (RefAcc [false; true] 0 0 w_init).
Proof.
  apply (ref_phased_verbatim (HTS := htslib_vcf)
           [bcf_gt_unphased 1; bcf_gt_phased 0] true (RefAcc [] 0 0 w_init) 0);
    first [discriminate | reflexivity].
Defined.

(** The unphased call [1/0]: one ALT allele before and after. *)
Lemma ref_dosage_kept_witness :
  exists x y a',
    ref_sample (HTS := htslib_vcf) 2 [bcf_gt_unphased 1; bcf_gt_unphased 0]
      false (RefAcc [] 0 0 w_init) 0 = Ok a'
    /\ ra_hapsRef a' = [] ++ [x; y]
    /\ Z.b2z x + Z.b2z y = 1.
Proof.
  apply (ref_dosage_kept (HTS := htslib_vcf)
           [bcf_gt_unphased 1; bcf_gt_unphased 0] false
           (RefAcc [] 0 0 w_init) 0);
    first [discriminate | reflexivity].
Defined.

Lemma loop_vectors_shape_witness :
  exists s,
    sync_loop (HTS := htslib_vcf) ex_sscanf ex_hdr ex_hdr false ex_lines
      (sync_init 0) = Ok s
    /\ length (s_hapsRef s) = 6%nat
    /\ length (s_genosTarget s) = 3%nat
    /\ s_M s = 3.
Proof.
  destruct (sync_loop (HTS := htslib_vcf) ex_sscanf ex_hdr ex_hdr false
              ex_lines (sync_init 0)) as [s|e] eqn:E;
    [|vm_compute in E; discriminate].
  exists s. split; [reflexivity|].
  destruct (loop_vectors_shape (HTS := htslib_vcf) ex_sscanf ex_hdr ex_hdr
              ex_lines false 0 s E) as (H1 & H2 & _ & _ & H5).
  vm_compute in E. injection E as <-.
  split; [exact H1|]. split; [exact H2|exact H5].
Defined.

(** The keys of the three lines of the example, and the key of a line
    at position 2147483647, which wraps to -2147483648. *)
Lemma written_lines_witness :
  (exists s,
     sync_loop (HTS := htslib_vcf) ex_sscanf ex_hdr ex_hdr false ex_lines
       (sync_init 0) = Ok s
     /\ s_chrBps s = map (fun t => (s_chrom s, pos t + 1)) (s_out s)
     /\ s_chrBps s = [(20, 5); (20, 7); (20, 10)])
  /\ (exists s,
        sync_loop (HTS := htslib_vcf) ex_sscanf ex_hdr ex_hdr false
          ex_lines_wrap (sync_init 0) = Ok s
        /\ s_chrBps s = [(20, -2147483648)]).
Proof.
  split.
  - destruct (sync_loop (HTS := htslib_vcf) ex_sscanf ex_hdr ex_hdr false
                ex_lines (sync_init 0)) as [s|e] eqn:E;
      [|vm_compute in E; discriminate].
    exists s. split; [reflexivity|].
    destruct (written_lines (HTS := htslib_vcf) ex_sscanf ex_hdr ex_hdr
                ex_lines false 0 s E) as (_ & _ & _ & H4 & _).
    vm_compute in E. injection E as <-.
    split; [|reflexivity].
    apply H4. repeat constructor; simpl; lia.
  - destruct (sync_loop (HTS := htslib_vcf) ex_sscanf ex_hdr ex_hdr false
                ex_lines_wrap (sync_init 0)) as [s|e] eqn:E;
      [|vm_compute in E; discriminate].
    exists s. split; [reflexivity|].
    destruct (written_lines (HTS := htslib_vcf) ex_sscanf ex_hdr ex_hdr
                ex_lines_wrap false 0 s E) as (_ & _ & H3 & _).
    vm_compute in E. injection E as <-.
    rewrite H3. reflexivity.
Defined.

Lemma single_chromosome_witness :
  exists s,
    sync_loop (HTS := htslib_vcf) ex_sscanf ex_hdr ex_hdr false ex_lines
      (sync_init 0) = Ok s
    /\ Forall (fun t => rid t = 0) (s_out s).
Proof.
  destruct (sync_loop (HTS := htslib_vcf) ex_sscanf ex_hdr ex_hdr false
              ex_lines (sync_init 0)) as [s|e] eqn:E;
    [|vm_compute in E; discriminate].
  exists s. split; [reflexivity|].
  assert (H : Forall (fun t => rid t = s_prev_rid s) (s_out s)).
  { refine (single_chromosome (HTS := htslib_vcf) ex_sscanf ex_hdr ex_hdr
              ex_lines false 0 s _ E).
    repeat constructor; intros t Ht; injection Ht as <-; simpl; lia. }
  vm_compute in E. injection E as <-. exact H.
Defined.

Lemma no_swap_when_disabled_witness :
  exists s,
    sync_loop (HTS := htslib_vcf) ex_sscanf ex_hdr ex_hdr false ex_lines
      (sync_init 0) = Ok s
    /\ numRefAltSwaps (s_cnt s) = 0 /\ MrefAltError (s_cnt s) = 0.
Proof.
  destruct (sync_loop (HTS := htslib_vcf) ex_sscanf ex_hdr ex_hdr false
              ex_lines (sync_init 0)) as [s|e] eqn:E;
    [|vm_compute in E; discriminate].
  exists s. split; [reflexivity|].
  exact (no_swap_when_disabled (HTS := htslib_vcf) ex_sscanf ex_hdr ex_hdr
           ex_lines 0 s E).
Defined.

(** A line with a 3-allele target is classified once, as
    multi-allelic. *)
Lemma line_classified_once_witness :
  classified (with_cnt (sync_init 0) (Counters 0 0 1 0 0 0 0 0 0 0 0))
  = classified (sync_init 0) + 1.
Proof.
  refine (line_classified_once (HTS := htslib_vcf) ex_sscanf ex_hdr ex_hdr
            false (sync_init 0)
            (Some (Bcf1 0 4 3 ["A"; "C"; "G"]%string [2; 3] 2),
             Some (Bcf1 0 4 3 ["A"; "C"; "G"]%string [2; 6] 2))
            (Next (with_cnt (sync_init 0) (Counters 0 0 1 0 0 0 0 0 0 0 0)))
            _ eq_refl).
  unfold tallies_small. simpl. lia.
Defined.

Lemma one_sided_lines_exit_witness :
  processVcfs (HTS := htslib_vcf) ex_sscanf ex_hdr ex_hdr
    [(Some (Bcf1 0 4 2 ["A"; "C"]%string [2; 3] 2), None);
     (None, Some (Bcf1 0 6 2 ["A"; "C"]%string [2; 4] 2))]
    true 0
  = Exit TooFewSnps.
Proof.
  apply (one_sided_lines_exit (HTS := htslib_vcf) ex_sscanf ex_hdr ex_hdr).
  constructor; [right; reflexivity|].
  constructor; [left; reflexivity|].
  constructor.
Defined.

(** The run over the three lines of the example: the constructor packs
    the vectors [processVcfs] returned, 3 SNPs with 2 haplotype bits and
    1 code each. *)
Lemma constructor_feeds_packer_witness :
  exists s,
    processVcfs (HTS := htslib_vcf) ex_sscanf ex_hdr ex_hdr ex_lines false 0
    = Ok s
    /\ Packed 1 [[0; 1; 2]%nat] [[0.78125; 1.5625; 3.125]%float]
         [Masks 2 1 (2 ^ 64 - 8); Masks 0 4 (2 ^ 64 - 8 + 2)]
       = buildGenoBits 3 1 1 (s_hapsRef s) (s_genosTarget s)
           (processMap ex_interp (s_chrBps s)) 1%float
    /\ length (s_hapsRef s) = 6%nat
    /\ length (s_genosTarget s) = 3%nat.
Proof.
  destruct (constructor_feeds_packer (HTS := htslib_vcf) ex_sscanf ex_hdr
              ex_hdr ex_interp ex_lines false 0 1%float
              (Packed 1 [[0; 1; 2]%nat] [[0.78125; 1.5625; 3.125]%float]
                 [Masks 2 1 (2 ^ 64 - 8); Masks 0 4 (2 ^ 64 - 8 + 2)]))
    as (s & Hp & H); [simpl; lia | vm_compute; reflexivity |].
  exists s. split; [exact Hp|]. cbv zeta in H.
  destruct H as (Hb & _ & _ & _ & Hh & Hg & _).
  clear Hb. vm_compute in Hp. injection Hp as <-.
  split; [vm_compute; reflexivity|]. split; [exact Hh|exact Hg].
Defined.

(** The run over the three lines of the example reads chromosome 20 in
    the contig name "20" of its first line; with the contig named "X"
    it exits at that line. *)
Lemma chromosome_number_witness :
  (exists s,
     sync_loop (HTS := htslib_vcf) ex_sscanf ex_hdr ex_hdr false ex_lines
       (sync_init 0) = Ok s
     /\ ex_sscanf "20" = Some (s_chrom s))
  /\ sync_loop (HTS := htslib_vcf) ex_sscanf ex_hdr ex_hdr_X false ex_lines
       (sync_init 0) = Exit InvalidChromosome.
Proof.
  split.
  - destruct (sync_loop (HTS := htslib_vcf) ex_sscanf ex_hdr ex_hdr false
                ex_lines (sync_init 0)) as [s|e] eqn:E;
      [|vm_compute in E; discriminate].
    exists s. split; [reflexivity|].
    pose proof (chromosome_number (HTS := htslib_vcf) ex_sscanf ex_hdr ex_hdr
                  ex_lines false 0) as (H & _).
    destruct (H s E) as (_ & _ & _ & _ & Hfirst).
    refine (proj1 (Hfirst eq_refl [] _ _ false _ eq_refl _ eq_refl)).
    constructor.
  - pose proof (chromosome_number (HTS := htslib_vcf) ex_sscanf ex_hdr
                  ex_hdr_X ex_lines false 0) as (_ & _ & H).
    refine (H eq_refl [] _ _ false _ eq_refl _ eq_refl _).
    + constructor.
    + intros c Hc. vm_compute in Hc. discriminate.
Defined.

Lemma packed_reference_bits_witness :
  let x := genoBits ex_built !!! 0%nat in
  Z.testbit (is0 x) 1 = true /\ Z.testbit (is2 x) 1 = false.
Proof.
  apply (packed_reference_bits 3 1 1 ex_hapsRef ex_genosTarget ex_cMs3 1%float
           0 0 1); vm_compute; lia.
Defined.

Lemma packed_target_bits_witness :
  let x := genoBits ex_built !!! 1%nat in
  Z.testbit (is0 x) 2 = false
  /\ Z.testbit (is2 x) 2 = true
  /\ Z.testbit (is9 x) 2 = false.
Proof.
  apply (packed_target_bits 3 1 1 ex_hapsRef ex_genosTarget ex_cMs3 1%float
           0 1 2); vm_compute; lia.
Defined.

(** Two reference samples, [./1] and [0/0]: one missing, one unphased. *)
Lemma ref_counters_witness :
  exists r,
    process_ref_genotypes (HTS := htslib_vcf) 2 4
      [bcf_gt_missing; bcf_gt_unphased 1; bcf_gt_unphased 0; bcf_gt_unphased 0]
      false [] w_init = Ok r
    /\ ra_numMissing r = 1 /\ ra_numUnphased r = 1.
Proof.
  destruct (process_ref_genotypes (HTS := htslib_vcf) 2 4
      [bcf_gt_missing; bcf_gt_unphased 1; bcf_gt_unphased 0; bcf_gt_unphased 0]
      false [] w_init) as [r|e] eqn:E;
    [|vm_compute in E; discriminate].
  exists r. split; [reflexivity|].
  destruct (ref_counters (HTS := htslib_vcf) 2 4
      [bcf_gt_missing; bcf_gt_unphased 1; bcf_gt_unphased 0; bcf_gt_unphased 0]
      false [] w_init r E) as (H1 & H2 & _).
  split; [exact H1|exact H2].
Defined.
